(** * Vocalyn: the Ask-AI streaming protocol, the session reconciliation
      and the Today aggregator

    A shallow embedding of

    - [continueChatStream]            (services/geminiService.ts),
    - [handleSubmit] of ChatDetailView (components/ChatDetailView.tsx),
    - [getTodaysActionItemsFromNotes] (services/notesService.ts),

    together with the JavaScript built-ins they rely on
    ([String.prototype.includes], [split], [substring], [trim],
    [JSON.parse], the [Map] constructor, [Array.prototype.sort]), and of
    the code around them:

    - [renderAnswerText] of ChatDetailView,
    - [taskDates], [changeMonth] and the cells of the calendar
      (components/Calendar.tsx),
    - [toggleActionItemCompletion], [updateActionItemDate] and
      [saveManualTaskAsNote] (services/notesService.ts),
    - [popoverTasks], [handleToggleActionItem],
      [handleUpdateActionItemDate], [handleSaveManualTask] and
      [handleUpdateChatSession] (App.tsx).

    JavaScript strings are sequences of UTF-16 code units; they are modelled
    as lists of numbers.  Arrays of chat messages live in a store, so that
    the copies made by the spread syntax are distinguished from the array
    they copy. *)

From Stdlib Require Import ZArith NArith Ascii String DecimalString Sorted Lia.
From stdpp Require Import base tactics option list.

Local Open Scope N_scope.
Local Open Scope nat_scope.

#[local] Set Warnings "-register-all".

(** ** JavaScript strings *)

Module JS.

Definition code_unit := N.
Definition jsstring := list code_unit.

(** A literal: every character of the Rocq string is one code unit. *)
Definition js (s : string) : jsstring :=
  map N_of_ascii (list_ascii_of_string s).

(** The quotation mark and the line feed cannot be typed inside a literal. *)
Definition DQUOTE : code_unit := 34%N.
Definition LF : code_unit := 10%N.

(** [quoted s] is the JSON text of a string without escapes. *)
Definition quoted (s : string) : jsstring := DQUOTE :: js s ++ [DQUOTE].

(** Truthiness of a string value: the empty string is falsy. *)
Definition truthy_string (s : jsstring) : bool :=
  match s with [] => false | _ => true end.

(** Truthiness of [string | undefined]. *)
Definition truthy_opt (o : option jsstring) : bool :=
  match o with Some s => truthy_string s | None => false end.

(** [a || b] on [string | undefined]. *)
Definition or_else (a b : option jsstring) : option jsstring :=
  if truthy_opt a then a else b.

(** [sep] occurs in [s] at index [i]. *)
Definition occurs_at (sep s : jsstring) (i : nat) : Prop :=
  sep `prefix_of` drop i s.

Definition startsWith (s sep : jsstring) : bool :=
  bool_decide (sep `prefix_of` s).

(** [s.indexOf(sep)], with [None] for -1. *)
Fixpoint indexOf (s sep : jsstring) : option nat :=
  if startsWith s sep then Some 0
  else match s with
       | [] => None
       | _ :: s' => S <$> indexOf s' sep
       end.

(** [s.includes(sep)] *)
Fixpoint includes (s sep : jsstring) : bool :=
  startsWith s sep ||
  match s with
  | [] => false
  | _ :: s' => includes s' sep
  end.

(** [s.split(sep)] for a non-empty separator: the matches are found from
    left to right and do not overlap.  [skip] counts the code units of the
    current match still to be passed over, [cur] holds the current piece
    in reverse. *)
Fixpoint split_from (sep : jsstring) (skip : nat) (cur s : jsstring)
  : list jsstring :=
  match s with
  | [] => [rev cur]
  | c :: s' =>
      match skip with
      | S k => split_from sep k cur s'
      | O =>
          if startsWith s sep
          then rev cur :: split_from sep (length sep - 1) [] s'
          else split_from sep 0 (c :: cur) s'
      end
  end.

(** [s.split(sep)]; with the empty separator the string is cut into its
    code units. *)
Definition split (s sep : jsstring) : list jsstring :=
  match sep with
  | [] => map (fun c => [c]) s
  | _ => split_from sep 0 [] s
  end.

(** [s.substring(0, n)] *)
Definition substring0 (s : jsstring) (n : nat) : jsstring := take n s.

(** White space and line terminators, as removed by [trim] and matched by
    the regular expression class [\s]. *)
Definition is_space (c : code_unit) : bool :=
  ((9 <=? c) && (c <=? 13) || (c =? 32) || (c =? 160) || (c =? 5760)
   || (8192 <=? c) && (c <=? 8202) || (c =? 8232) || (c =? 8233)
   || (c =? 8239) || (c =? 8287) || (c =? 12288) || (c =? 65279))%N.

Fixpoint trimStart (s : jsstring) : jsstring :=
  match s with
  | c :: s' => if is_space c then trimStart s' else s
  | [] => []
  end.

Definition trim (s : jsstring) : jsstring :=
  rev (trimStart (rev (trimStart s))).

(** [n.toString()] for an integer. *)
Definition toString (z : Z) : jsstring :=
  js (NilZero.string_of_int (Z.to_int z)).

(** [s.padStart(2, '0')] *)
Definition padStart2 (s : jsstring) : jsstring :=
  replicate (2 - length s) 48%N ++ s.

End JS.

Import JS.

(** ** Built-in collections *)

Module Builtin.

Section Map.
Context {K V : Type} `{EqDecision K}.

(** [map.set(k, v)] on the entries of a [Map], in insertion order: a key
    already present keeps its position and takes the new value. *)
Fixpoint Map_set (k : K) (v : V) (m : list (K * V)) : list (K * V) :=
  match m with
  | [] => [(k, v)]
  | (k', v') :: m' =>
      if decide (k = k') then (k', v) :: m' else (k', v') :: Map_set k v m'
  end.

(** [new Map(entries)] *)
Definition Map_of (entries : list (K * V)) : list (K * V) :=
  fold_left (fun m kv => Map_set kv.1 kv.2 m) entries [].

(** [Array.from(map.values())] *)
Definition Map_values (m : list (K * V)) : list V := m.*2.
End Map.

Section Sort.
Context {A : Type} (compareFn : A -> A -> Z).

Fixpoint insert (x : A) (l : list A) : list A :=
  match l with
  | [] => [x]
  | y :: l' => if (0 <? compareFn x y)%Z then y :: insert x l' else x :: l
  end.

(** [array.sort(compareFn)].  The sort is stable; with a comparator
    that orders the elements consistently its result is the one built
    here by stable insertion, from the last element to the first. *)
Definition sort (l : list A) : list A := foldr insert [] l.
End Sort.

(** [array.join(sep)] on strings *)
Fixpoint join (sep : jsstring) (l : list jsstring) : jsstring :=
  match l with
  | [] => []
  | [s] => s
  | s :: l' => s ++ sep ++ join sep l'
  end.

(** [array.slice(0, -1)] *)
Definition slice_0_m1 {A} (l : list A) : list A := take (length l - 1) l.

End Builtin.

Import Builtin.

(** ** JSON values and [JSON.parse] *)

Module JSON.

(** A number literal denotes an exact decimal, [mantissa * 10 ^ exp10]
    with a sign; the runtime rounds it to a binary64 value, which this
    development only needs for truthiness ([rounds_to_zero]). *)
Record number := { negative : bool; mantissa : N; exp10 : Z }.

Inductive value :=
| JNull
| JBool (b : bool)
| JNumber (n : number)
| JString (s : jsstring)
| JArray (items : list value)
| JObject (fields : list (jsstring * value)).

(** The three outcomes of the fuelled descent. *)
Inductive result (A : Type) :=
| Parsed (a : A) (rest : jsstring)
| SyntaxError
| OutOfFuel.
Arguments Parsed {A} a rest.
Arguments SyntaxError {A}.
Arguments OutOfFuel {A}.

Definition is_ws (c : code_unit) : bool :=
  ((c =? 32) || (c =? 9) || (c =? 10) || (c =? 13))%N.

Fixpoint skip_ws (s : jsstring) : jsstring :=
  match s with
  | c :: s' => if is_ws c then skip_ws s' else s
  | [] => []
  end.

Definition is_digit (c : code_unit) : bool := ((48 <=? c) && (c <=? 57))%N.

Fixpoint span_digits (s : jsstring) : jsstring * jsstring :=
  match s with
  | c :: s' =>
      if is_digit c
      then let '(d, r) := span_digits s' in (c :: d, r)
      else ([], s)
  | [] => ([], [])
  end.

Definition N_of_digits (ds : jsstring) : N :=
  fold_left (fun acc d => acc * 10 + (d - 48))%N ds 0%N.

Definition hex_digit (c : code_unit) : option N :=
  if is_digit c then Some (c - 48)%N
  else if ((97 <=? c) && (c <=? 102))%N then Some (c - 87)%N
  else if ((65 <=? c) && (c <=? 70))%N then Some (c - 55)%N
  else None.

Definition hex4 (a b c d : code_unit) : option code_unit :=
  match hex_digit a, hex_digit b, hex_digit c, hex_digit d with
  | Some x, Some y, Some z, Some w => Some (((x * 16 + y) * 16 + z) * 16 + w)%N
  | _, _, _, _ => None
  end.

(** The character after a backslash, for the two-character escapes. *)
Definition simple_escape (e : code_unit) : option code_unit :=
  if (e =? 34)%N then Some 34%N          (* quotation mark *)
  else if (e =? 92)%N then Some 92%N     (* reverse solidus *)
  else if (e =? 47)%N then Some 47%N     (* solidus *)
  else if (e =? 98)%N then Some 8%N      (* b: backspace *)
  else if (e =? 102)%N then Some 12%N    (* f: form feed *)
  else if (e =? 110)%N then Some 10%N    (* n: line feed *)
  else if (e =? 114)%N then Some 13%N    (* r: carriage return *)
  else if (e =? 116)%N then Some 9%N     (* t: tabulation *)
  else None.

(** The characters of a string literal after its opening quotation mark,
    up to and including the closing one. *)
Fixpoint string_body (s acc : jsstring) : option (jsstring * jsstring) :=
  match s with
  | [] => None
  | c :: s' =>
      if (c =? 34)%N then Some (rev acc, s')
      else if (c =? 92)%N then
        match s' with
        | [] => None
        | e :: s'' =>
            match simple_escape e with
            | Some u => string_body s'' (u :: acc)
            | None =>
                if (e =? 117)%N then
                  match s'' with
                  | h1 :: h2 :: h3 :: h4 :: s3 =>
                      match hex4 h1 h2 h3 h4 with
                      | Some u => string_body s3 (u :: acc)
                      | None => None
                      end
                  | _ => None
                  end
                else None
            end
        end
      else if (c <? 32)%N then None
      else string_body s' (c :: acc)
  end.

(** A number literal: an optional minus sign; then either a single zero or
    a non-zero digit followed by digits; then optionally a point and one
    or more digits; then optionally [e] or [E], an optional sign and one
    or more digits. *)
Definition number_literal (s : jsstring) : option (number * jsstring) :=
  let '(neg, s1) :=
    match s with
    | c :: s' => if (c =? 45)%N then (true, s') else (false, s)
    | [] => (false, s)
    end in
  let int_part :=
    match s1 with
    | c :: s' =>
        if (c =? 48)%N then Some ([c], s')
        else if is_digit c then Some (span_digits s1)
        else None
    | [] => None
    end in
  match int_part with
  | None => None
  | Some (ip, s2) =>
      let frac_part :=
        match s2 with
        | c :: s' =>
            if (c =? 46)%N then
              match span_digits s' with
              | ([], _) => None
              | (fp, r) => Some (fp, r)
              end
            else Some ([], s2)
        | [] => Some ([], s2)
        end in
      match frac_part with
      | None => None
      | Some (fp, s3) =>
          let exp_part :=
            match s3 with
            | c :: s' =>
                if ((c =? 101) || (c =? 69))%N then
                  let '(eneg, s4) :=
                    match s' with
                    | d :: s'' =>
                        if (d =? 45)%N then (true, s'')
                        else if (d =? 43)%N then (false, s'')
                        else (false, s')
                    | [] => (false, s')
                    end in
                  match span_digits s4 with
                  | ([], _) => None
                  | (ep, r) =>
                      let e := Z.of_N (N_of_digits ep) in
                      Some (if eneg then (- e)%Z else e, r)
                  end
                else Some (0%Z, s3)
            | [] => Some (0%Z, s3)
            end in
          match exp_part with
          | None => None
          | Some (e, s5) =>
              Some ({| negative := neg;
                       mantissa := N_of_digits (ip ++ fp);
                       exp10 := (e - Z.of_nat (length fp))%Z |}, s5)
          end
      end
  end.

Fixpoint expect (lit s : jsstring) : option jsstring :=
  match lit, s with
  | [], _ => Some s
  | c :: lit', d :: s' => if (c =? d)%N then expect lit' s' else None
  | _ :: _, [] => None
  end.

Definition of_option {A} (o : option (A * jsstring)) : result A :=
  match o with Some (a, r) => Parsed a r | None => SyntaxError end.

Fixpoint parse_value (fuel : nat) (s : jsstring) : result value :=
  match fuel with
  | O => OutOfFuel
  | S f =>
      match skip_ws s with
      | [] => SyntaxError
      | c :: s' =>
          if (c =? 110)%N then
            of_option (pair JNull <$> expect (js "ull") s')
          else if (c =? 116)%N then
            of_option (pair (JBool true) <$> expect (js "rue") s')
          else if (c =? 102)%N then
            of_option (pair (JBool false) <$> expect (js "alse") s')
          else if (c =? 34)%N then
            of_option (prod_map JString id <$> string_body s' [])
          else if (c =? 91)%N then
            match skip_ws s' with
            | 93%N :: r => Parsed (JArray []) r
            | _ => parse_elements f s' []
            end
          else if (c =? 123)%N then
            match skip_ws s' with
            | 125%N :: r => Parsed (JObject []) r
            | _ => parse_members f s' []
            end
          else if (c =? 45)%N || is_digit c then
            of_option (prod_map JNumber id <$> number_literal (c :: s'))
          else SyntaxError
      end
  end
with parse_elements (fuel : nat) (s : jsstring) (acc : list value)
  : result value :=
  match fuel with
  | O => OutOfFuel
  | S f =>
      match parse_value f s with
      | Parsed v r =>
          match skip_ws r with
          | 44%N :: r' => parse_elements f r' (v :: acc)
          | 93%N :: r' => Parsed (JArray (rev (v :: acc))) r'
          | _ => SyntaxError
          end
      | SyntaxError => SyntaxError
      | OutOfFuel => OutOfFuel
      end
  end
with parse_members (fuel : nat) (s : jsstring)
       (acc : list (jsstring * value)) : result value :=
  match fuel with
  | O => OutOfFuel
  | S f =>
      match skip_ws s with
      | 34%N :: s1 =>
          (* a repeated key keeps its position and takes the last value *)
          match string_body s1 [] with
          | Some (k, s2) =>
              match skip_ws s2 with
              | 58%N :: s3 =>
                  match parse_value f s3 with
                  | Parsed v r =>
                      match skip_ws r with
                      | 44%N :: r' => parse_members f r' (Map_set k v acc)
                      | 125%N :: r' => Parsed (JObject (Map_set k v acc)) r'
                      | _ => SyntaxError
                      end
                  | SyntaxError => SyntaxError
                  | OutOfFuel => OutOfFuel
                  end
              | _ => SyntaxError
              end
          | None => SyntaxError
          end
      | _ => SyntaxError
      end
  end.

(** [JSON.parse(s)]: [None] stands for the [SyntaxError] it throws.  The
    fuel is never exhausted, see [parse_value_fuel]. *)
Definition parse (s : jsstring) : option value :=
  match parse_value (2 * length s + 2) s with
  | Parsed v r => match skip_ws r with [] => Some v | _ => None end
  | _ => None
  end.

(** The literal denotes a decimal that the runtime rounds to zero: it is
    zero, or at most half the least positive binary64 value, [2 ^ -1075]. *)
Definition rounds_to_zero (n : number) : bool :=
  (mantissa n =? 0)%N
  || ((exp10 n <? 0)%Z
      && (Z.of_N (mantissa n) * 2 ^ 1075 <=? 10 ^ (- exp10 n))%Z).

(** [Boolean(v)] *)
Definition truthy (v : value) : bool :=
  match v with
  | JNull => false
  | JBool b => b
  | JNumber n => negb (rounds_to_zero n)
  | JString s => truthy_string s
  | JArray _ | JObject _ => true
  end.

Definition get_field (k : jsstring) (fs : list (jsstring * value))
  : option value :=
  snd <$> find (fun kv => bool_decide (kv.1 = k)) fs.

(** [Boolean(v.length)] for a value [v] that is not [null]. *)
Definition truthy_length (v : value) : bool :=
  match v with
  | JArray items => negb (Nat.eqb (length items) 0)
  | JString s => truthy_string s
  | JObject fs =>
      match get_field (js "length") fs with
      | Some l => truthy l
      | None => false
      end
  | JNull | JBool _ | JNumber _ => false
  end.

End JSON.

Import JSON.

(** ** The data model (types.ts) *)

Record Emotion := { emotion : jsstring; justification : jsstring }.

Record EmotionAnalysis := { summary : jsstring; emotions : list Emotion }.

Record ActionItem := {
  text : jsstring;
  completed : bool;
  dueDate : jsstring;          (* YYYY-MM-DD or the empty string *)
  time : option jsstring       (* HH:MM, optional *)
}.

(** [ProcessedNoteWithId].  The services guard against a missing
    [actionItems], which the rows of the hosted table may lack. *)
Record ProcessedNoteWithId := {
  note_id : jsstring;
  note_createdAt : jsstring;
  refinedNote : jsstring;
  emotionAnalysis : EmotionAnalysis;
  actionItems : option (list ActionItem)
}.

(** [WebSource]; both fields are copied from the backend's grounding
    metadata, where they are optional. *)
Record WebSource := { uri : option jsstring; title : option jsstring }.

(** [AskAIResponse].  [sources] holds whatever [JSON.parse] returned. *)
Record AskAIResponse := {
  answer : jsstring;
  sources : JSON.value;
  webSources : option (list WebSource)
}.

Inductive Role := user | model.

Inductive Content :=
| CString (s : jsstring)
| CObject (r : AskAIResponse).

Record ChatMessage := { role : Role; content : Content }.

(** Arrays of messages are held in a store and named by their index. *)
Definition loc := nat.
Abbreviation store := (list (list ChatMessage)).

Record ChatSession := {
  session_id : jsstring;
  session_title : jsstring;
  session_createdAt : jsstring;
  noteIds : list jsstring;
  messages : loc
}.

(** ** The generation backend, as seen by the client *)

Record GroundingWeb := { web_uri : option jsstring; web_title : option jsstring }.

Record GroundingChunk := { web : option GroundingWeb }.

(** One chunk of the response stream: [chunk.text] and
    [chunk.candidates?.[0]?.groundingMetadata?.groundingChunks]. *)
Record GenerateContentResponse := {
  chunk_text : option jsstring;
  groundingChunks : option (list GroundingChunk)
}.

(** What the backend does with a request: it delivers [chunks], and then
    the stream either ends or fails ([fails = true]); a request that is
    rejected outright delivers no chunk and fails. *)
Record ResponseStream := {
  chunks : list GenerateContentResponse;
  fails : bool
}.

(** The two prompt templates.  Their fixed English text is not reproduced;
    a prompt is the template together with the three texts spliced in. *)
Inductive Template := SearchPrompt | NotesOnlyPrompt.

Record Prompt := {
  template : Template;
  prompt_history : jsstring;
  prompt_notes : jsstring;
  prompt_question : jsstring
}.

Record GenerateRequest := {
  contents : Prompt;
  googleSearch : bool          (* config.tools = [{googleSearch: {}}] *)
}.

(** ** The streaming answer protocol (geminiService.ts) *)

(** What the generator yields: [{ text?, sources?, webSources? }]. *)
Record StreamEvent := {
  ev_text : option jsstring;
  ev_sources : option JSON.value;
  ev_webSources : option (list WebSource)
}.

Definition text_event (t : option jsstring) : StreamEvent :=
  {| ev_text := t; ev_sources := None; ev_webSources := None |}.
Definition sources_event (v : JSON.value) : StreamEvent :=
  {| ev_text := None; ev_sources := Some v; ev_webSources := None |}.
Definition webSources_event (w : list WebSource) : StreamEvent :=
  {| ev_text := None; ev_sources := None; ev_webSources := Some w |}.

(** The steps of one run of the generator, in order: the request it sends,
    the chunks it receives, the events it yields. *)
Inductive Step :=
| Request (r : GenerateRequest)
| Receive (c : GenerateContentResponse)
| Yield (e : StreamEvent).

(** A run: its steps, and whether it ended by throwing. *)
Record Run := { steps : list Step; threw : bool }.

Definition yielded (r : Run) : list StreamEvent :=
  omap (fun s => match s with Yield e => Some e | _ => None end) (steps r).

Definition separator : jsstring := js "%%SOURCES_JSON%%".

Definition noteBlock (note : ProcessedNoteWithId) : jsstring :=
  js "--- NOTE START ---" ++ [LF] ++
  js "noteId: " ++ [DQUOTE] ++ note_id note ++ [DQUOTE] ++ [LF] ++
  js "Content:" ++ [LF] ++
  refinedNote note ++ [LF] ++
  js "--- NOTE END ---" ++ [LF].

Definition notesContext (notes : list ProcessedNoteWithId) : jsstring :=
  join [LF; LF] (map noteBlock notes).

Definition historyLine (message : ChatMessage) : jsstring :=
  match role message with
  | user =>
      js "User: " ++
      match content message with
      | CString s => s
      | CObject _ => js "[object Object]"
      end
  | model =>
      js "Assistant: " ++
      match content message with
      | CObject r => answer r
      | CString s => s
      end
  end.

Definition historyContext (history : list ChatMessage) : jsstring :=
  join [LF] (map historyLine history).

(** The web sources pushed while scanning the received chunks. *)
Definition webSources_of_chunk (chunk : GenerateContentResponse)
  : list WebSource :=
  match groundingChunks chunk with
  | Some gs =>
      omap (fun grounding =>
              match web grounding with
              | Some w =>
                  Some {| uri := web_uri w;
                          title := or_else (web_title w) (web_uri w) |}
              | None => None
              end) gs
  | None => []
  end.

(** [Array.from(new Map(webSources.map(item => [item.uri, item])).values())] *)
Definition uniqueWebSources (webSources : list WebSource) : list WebSource :=
  Map_values (Map_of (map (fun item => (uri item, item)) webSources)).

(** [fullText += chunk.text] over the chunks with a truthy text. *)
Definition fullText_of (cs : list GenerateContentResponse) : jsstring :=
  fold_left (fun fullText chunk =>
               match chunk_text chunk with
               | Some t => if truthy_string t then fullText ++ t else fullText
               | None => fullText
               end) cs [].

Section ContinueChatStream.

(** The opaque generation capability. *)
Variable generateContentStream : GenerateRequest -> ResponseStream.

Definition searchRun (prompt : Prompt) : Run :=
  let req := {| contents := prompt; googleSearch := true |} in
  let result := generateContentStream req in
  let allChunks := chunks result in
  let loop :=
    flat_map (fun chunk =>
                Receive chunk ::
                (if truthy_opt (chunk_text chunk)
                 then [Yield (text_event (chunk_text chunk))] else []))
             allChunks in
  if fails result then {| steps := Request req :: loop; threw := true |}
  else
    let webSources := flat_map webSources_of_chunk allChunks in
    let unique := uniqueWebSources webSources in
    {| steps := Request req :: loop ++
                (if (0 <? length unique)%nat
                 then [Yield (webSources_event unique)] else []);
       threw := false |}.

Definition notesOnlyRun (prompt : Prompt) : Run :=
  let req := {| contents := prompt; googleSearch := false |} in
  let resultStream := generateContentStream req in
  let received := map Receive (chunks resultStream) in
  if fails resultStream
  then {| steps := Request req :: received; threw := true |}
  else
    let fullText := fullText_of (chunks resultStream) in
    if includes fullText separator then
      let parts := split fullText separator in
      let answerText := parts !! 0 in
      let jsonPart := parts !! 1 in
      {| steps := Request req :: received ++
                  Yield (text_event answerText) ::
                  match JSON.parse (default (js "undefined") jsonPart) with
                  | Some sources => [Yield (sources_event sources)]
                  | None => []
                  end;
         threw := false |}
    else
      {| steps := Request req :: received ++ [Yield (text_event (Some fullText))];
         threw := false |}.

Definition continueChatStream (notes : list ProcessedNoteWithId)
    (question : jsstring) (history : list ChatMessage)
    (useGoogleSearch : bool) : Run :=
  let notesContext := notesContext notes in
  let historyContext := historyContext history in
  if useGoogleSearch then
    searchRun {| template := SearchPrompt;
                 prompt_history := historyContext;
                 prompt_notes := notesContext;
                 prompt_question := question |}
  else
    notesOnlyRun {| template := NotesOnlyPrompt;
                    prompt_history := historyContext;
                    prompt_notes := notesContext;
                    prompt_question := question |}.

End ContinueChatStream.

(** ** The Today aggregator (notesService.ts) *)

(** The caller's local calendar date, as read from [new Date()]:
    [getMonth] counts from zero. *)
Record LocalDate := { getFullYear : Z; getMonth : Z; getDate : Z }.

Record TodaysActionItem := {
  noteId : jsstring;
  itemIndex : nat;
  item : ActionItem;
  noteTitle : jsstring
}.

Definition localTodayStr (today : LocalDate) : jsstring :=
  let year := getFullYear today in
  let month := padStart2 (toString (getMonth today + 1)) in
  let day := padStart2 (toString (getDate today)) in
  toString year ++ js "-" ++ month ++ js "-" ++ day.

Definition isActionItemForToday (today : LocalDate) (dueDate : jsstring) : bool :=
  if negb (truthy_string dueDate) then false
  else bool_decide (dueDate = localTodayStr today).

(** [refinedNote.split('\n')[0].replace(/^#\s*/, '') || 'Untitled Note'] *)
Definition noteTitle_of (refinedNote : jsstring) : jsstring :=
  let firstLine := default [] (split refinedNote [LF] !! 0) in
  let stripped :=
    match firstLine with
    | 35%N :: rest => trimStart rest
    | _ => firstLine
    end in
  if truthy_string stripped then stripped else js "Untitled Note".

Section TodaysActions.

(** [String.prototype.localeCompare], which depends on the locale of the
    runtime: negative, zero or positive. *)
Variable localeCompare : jsstring -> jsstring -> Z.

(** The comparator passed to [sort]. *)
Definition compareByTime (a b : TodaysActionItem) : Z :=
  let aTime := time (item a) in
  let bTime := time (item b) in
  if truthy_opt aTime && truthy_opt bTime
  then localeCompare (default [] aTime) (default [] bTime)
  else if truthy_opt aTime then (-1)%Z
  else if truthy_opt bTime then 1%Z
  else 0%Z.

(** The entries pushed for one note, in the order of its action items. *)
Definition todaysItems_of_note (today : LocalDate)
    (note : ProcessedNoteWithId) : list TodaysActionItem :=
  match actionItems note with
  | Some items =>
      omap id
        (imap (fun index item =>
                 if isActionItemForToday today (dueDate item)
                    && negb (completed item)
                 then Some {| noteId := note_id note;
                              itemIndex := index;
                              item := item;
                              noteTitle := noteTitle_of (refinedNote note) |}
                 else None) items)
  | None => []
  end.

Definition getTodaysActionItemsFromNotes (today : LocalDate)
    (notes : list ProcessedNoteWithId) : list TodaysActionItem :=
  let todaysItems := flat_map (todaysItems_of_note today) notes in
  sort compareByTime todaysItems.

End TodaysActions.

(** ** Session reconciliation (ChatDetailView.tsx) *)

Definition read (h : store) (r : loc) : list ChatMessage := default [] (h !! r).

(** A new array: [[...a]], [[...a, x]], [a.slice(..)]. *)
Definition alloc (h : store) (a : list ChatMessage) : store * loc :=
  (h ++ [a], length h).

(** The state of the component: the values of its [useState] cells. *)
Record ViewState := {
  session : ChatSession;
  question : jsstring;
  isStreaming : bool;
  error : option jsstring;
  useGoogleSearch : bool
}.

(** What [handleSubmit] does to the outside, in order. *)
Inductive Effect :=
| CallStream (notes : list ProcessedNoteWithId) (question : jsstring)
    (history : loc) (useGoogleSearch : bool)   (* continueChatStream(..) *)
| Generator (s : Step)                          (* a step of the generator *)
| StreamDone                                    (* the iteration ends *)
| StreamThrew                                   (* the iteration throws *)
| SessionUpdate (s : ChatSession).              (* onSessionUpdate(..) *)

Record Outcome := {
  out_store : store;
  out_state : ViewState;
  effects : list Effect
}.

Definition with_messages (s : ChatSession) (m : loc) : ChatSession :=
  {| session_id := session_id s; session_title := session_title s;
     session_createdAt := session_createdAt s; noteIds := noteIds s;
     messages := m |}.

(** The three local variables of the loop. *)
Record Collected := {
  fullAnswer : jsstring;
  collectedSources : JSON.value;
  collectedWebSources : list WebSource
}.

Definition collect (acc : Collected) (chunk : StreamEvent) : Collected :=
  {| fullAnswer :=
       if truthy_opt (ev_text chunk)
       then fullAnswer acc ++ default [] (ev_text chunk)
       else fullAnswer acc;
     collectedSources :=
       match ev_sources chunk with
       | Some v => if JSON.truthy v then v else collectedSources acc
       | None => collectedSources acc
       end;
     collectedWebSources :=
       match ev_webSources chunk with
       | Some w => w
       | None => collectedWebSources acc
       end |}.

(** The local variables and the state cell [session] while the exchange is
    under way. *)
Record Working := {
  w_store : store;
  w_shown : ChatSession;            (* the state cell [session] *)
  w_currentMessages : loc;          (* the local [currentMessages] *)
  w_isFirstMessage : bool;
  w_collected : Collected
}.

(** The list of messages on display. *)
Definition shownMessages (w : Working) : list ChatMessage :=
  read (w_store w) (messages (w_shown w)).

Definition userMessage_of (questionToAsk : jsstring) : ChatMessage :=
  {| role := user; content := CString questionToAsk |}.

Definition placeholderMessage : ChatMessage :=
  {| role := model;
     content := CObject {| answer := []; sources := JArray [];
                           webSources := None |} |}.

(** Step 1 of [handleSubmit], "Update UI Optimistically": the user message
    and the placeholder are appended to copies of the message list. *)
Definition optimistic (h : store) (session0 : ChatSession)
    (questionToAsk : jsstring) : Working :=
  let userMessage := userMessage_of questionToAsk in
  let '(h1, currentMessages1) :=
    alloc h (read h (messages session0) ++ [userMessage]) in
  let isFirstMessage := Nat.eqb (length (read h1 (messages session0))) 0 in
  let '(h2, currentMessages) :=
    alloc h1 (read h1 currentMessages1 ++ [placeholderMessage]) in
  {| w_store := h2;
     w_shown := with_messages session0 currentMessages;
     w_currentMessages := currentMessages;
     w_isFirstMessage := isFirstMessage;
     w_collected := {| fullAnswer := []; collectedSources := JArray [];
                       collectedWebSources := [] |} |}.

(** The updater passed to [setSession] inside the loop.  Updaters are
    applied in the order in which they are issued, each one when issued. *)
Definition updateLast (acc : Collected) (h : store) (prev : ChatSession)
  : store * ChatSession :=
  let '(h1, msgs) := alloc h (read h (messages prev)) in
  let n := length (read h1 msgs) in
  let h2 :=
    match read h1 msgs !! (n - 1) with
    | Some lastMsg =>
        match role lastMsg, content lastMsg with
        | model, CObject c =>
            <[msgs :=
                <[n - 1 :=
                    {| role := role lastMsg;
                       content := CObject
                         {| answer := fullAnswer acc;
                            sources :=
                              if JSON.truthy_length (collectedSources acc)
                              then collectedSources acc else sources c;
                            webSources :=
                              if (0 <? length (collectedWebSources acc))%nat
                              then Some (collectedWebSources acc)
                              else webSources c |} |}]>
                  (read h1 msgs)]> h1
        | _, _ => h1
        end
    | None => h1
    end in
  (h2, with_messages prev msgs).

(** One iteration of [for await (const chunk of stream)]. *)
Definition onChunk (w : Working) (chunk : StreamEvent) : Working :=
  let acc := collect (w_collected w) chunk in
  let '(h, shown) := updateLast acc (w_store w) (w_shown w) in
  {| w_store := h;
     w_shown := shown;
     w_currentMessages := w_currentMessages w;
     w_isFirstMessage := w_isFirstMessage w;
     w_collected := acc |}.

(** The whole loop, over the events the generator yields. *)
Definition consume (events : list StreamEvent) (w : Working) : Working :=
  fold_left onChunk events w.

Definition errorMessage : jsstring :=
  js "Failed to get an answer from the AI. The service may be unavailable. Please try again.".

(** Steps 2 and 3, after the loop has ended normally: the final session is
    built from the local copy and handed to [onSessionUpdate]. *)
Definition commit (session0 : ChatSession) (questionToAsk : jsstring)
    (w : Working) : store * ChatSession :=
  let acc := w_collected w in
  let '(h, finalMessages) :=
    alloc (w_store w) (read (w_store w) (w_currentMessages w)) in
  let h' :=
    <[finalMessages :=
        <[length (read h finalMessages) - 1 :=
            {| role := model;
               content := CObject
                 {| answer := fullAnswer acc;
                    sources := collectedSources acc;
                    webSources := Some (collectedWebSources acc) |} |}]>
          (read h finalMessages)]> h in
  (h',
   {| session_id := session_id session0;
      session_title :=
        if w_isFirstMessage w then substring0 questionToAsk 50
        else session_title session0;
      session_createdAt := session_createdAt session0;
      noteIds := noteIds session0;
      messages := finalMessages |}).

(** The [catch] block: [setSession(s => ({...s, messages: s.messages.slice(0, -1)}))]. *)
Definition rollback (w : Working) : store * ChatSession :=
  let '(h, sliced) := alloc (w_store w) (slice_0_m1 (shownMessages w)) in
  (h, with_messages (w_shown w) sliced).

(** [allNotes.filter(note => session.noteIds.includes(note.id))] *)
Definition contextNotes_of (allNotes : list ProcessedNoteWithId)
    (s : ChatSession) : list ProcessedNoteWithId :=
  filter (fun note => note_id note ∈ noteIds s) allNotes.

Section HandleSubmit.

Variable generateContentStream : GenerateRequest -> ResponseStream.

(** The generator started by [handleSubmit]; its body runs once the loop
    asks for the first event, when the store is the one left by
    [optimistic]. *)
Definition streamOf (allNotes : list ProcessedNoteWithId)
    (h : store) (st : ViewState) : Run :=
  let session0 := session st in
  let contextNotes := contextNotes_of allNotes session0 in
  continueChatStream generateContentStream contextNotes (question st)
    (read (w_store (optimistic h session0 (question st))) (messages session0))
    (useGoogleSearch st).

(** [handleSubmit], run on the store [h] and the component state [st];
    the values it closes over are those of [st]. *)
Definition handleSubmit (allNotes : list ProcessedNoteWithId)
    (h : store) (st : ViewState) : Outcome :=
  if isStreaming st || negb (truthy_string (trim (question st)))
  then {| out_store := h; out_state := st; effects := [] |}
  else
    let session0 := session st in
    let questionToAsk := question st in
    let w0 := optimistic h session0 questionToAsk in
    let contextNotes := contextNotes_of allNotes session0 in
    let call :=
      CallStream contextNotes questionToAsk (messages session0)
                 (useGoogleSearch st) in
    let stream := streamOf allNotes h st in
    let w := consume (yielded stream) w0 in
    if threw stream then
      let '(h', shown) := rollback w in
      {| out_store := h';
         out_state :=
           {| session := shown;
              question := [];
              isStreaming := false;
              error := Some errorMessage;
              useGoogleSearch := useGoogleSearch st |};
         effects := call :: map Generator (steps stream) ++ [StreamThrew] |}
    else
      let '(h', finalSession) := commit session0 questionToAsk w in
      {| out_store := h';
         out_state :=
           {| session := finalSession;
              question := [];
              isStreaming := false;
              error := None;
              useGoogleSearch := useGoogleSearch st |};
         effects := call :: map Generator (steps stream)
                    ++ [StreamDone; SessionUpdate finalSession] |}.

End HandleSubmit.

(** ** Vocabulary of the statements *)

(** A backend that answers every request with [resp]. *)
Definition replying (resp : ResponseStream) : GenerateRequest -> ResponseStream :=
  fun _ => resp.

(** The concatenation of the text fragments of the received chunks. *)
Definition streamedText (cs : list GenerateContentResponse) : jsstring :=
  concat (omap chunk_text cs).

(** The text before the first separator, or the whole text without one. *)
Definition answerSegment (s : jsstring) : jsstring :=
  match indexOf s separator with
  | Some i => take i s
  | None => s
  end.

(** The text after the first separator, up to the next separator if there
    is one. *)
Definition citationSegment (s : jsstring) : jsstring :=
  match indexOf s separator with
  | Some i => answerSegment (drop (i + length separator) s)
  | None => []
  end.

(** The response of the first example: an answer, the separator and one
    citation. *)
Definition skyAnswer : jsstring := js "The sky is blue." ++ [LF].

Definition skyCitations : jsstring :=
  LF :: js "[{" ++ quoted "noteId" ++ js ":" ++ quoted "n1" ++ js ","
     ++ quoted "snippet" ++ js ":" ++ quoted "sky note" ++ js "}]".

Definition skyResponse : jsstring := skyAnswer ++ separator ++ skyCitations.

Definition skySources : JSON.value :=
  JArray [JObject [(js "noteId", JString (js "n1"));
                   (js "snippet", JString (js "sky note"))]].

Definition textChunk (t : jsstring) : GenerateContentResponse :=
  {| chunk_text := Some t; groundingChunks := None |}.

(** The distinct elements of a list, each at the place of its first
    occurrence. *)
Fixpoint first_occurrences {K} `{EqDecision K} (l : list K) : list K :=
  match l with
  | [] => []
  | x :: l' => x :: filter (fun y => y <> x) (first_occurrences l')
  end.

(** The text events of the search mode: one for each chunk with a text. *)
Definition forwardedTexts (cs : list GenerateContentResponse) : list StreamEvent :=
  omap (fun chunk =>
          if truthy_opt (chunk_text chunk)
          then Some (text_event (chunk_text chunk)) else None) cs.

(** Two chunks whose grounding metadata name the same page, first with the
    title "A" and then with an empty title. *)
Definition groundedChunk (u t : jsstring) : GenerateContentResponse :=
  {| chunk_text := None;
     groundingChunks :=
       Some [{| web := Some {| web_uri := Some u; web_title := Some t |} |}] |}.

Definition twiceGrounded : ResponseStream :=
  {| chunks := [groundedChunk (js "https://a.com") (js "A");
                groundedChunk (js "https://a.com") (js "")];
     fails := false |}.

(** An entry has a time when its [time] is present and not empty. *)
Definition hasTime (e : TodaysActionItem) : bool := truthy_opt (time (item e)).

Definition timeOf (e : TodaysActionItem) : jsstring := default [] (time (item e)).

(** Comparison of strings by code units, which is how [localeCompare]
    orders two times written as HH:MM. *)
Fixpoint codeUnitCompare (x y : jsstring) : Z :=
  match x, y with
  | [], [] => 0
  | [], _ :: _ => -1
  | _ :: _, [] => 1
  | a :: x', b :: y' =>
      if (a <? b)%N then -1
      else if (b <? a)%N then 1
      else codeUnitCompare x' y'
  end%Z.

(** The example of the Today view: three open items due on the day, at
    09:00, without a time, and at 08:00. *)
Definition exampleDay : LocalDate :=
  {| getFullYear := 2025; getMonth := 0; getDate := 5 |}.

Definition dueItem (t : option jsstring) : ActionItem :=
  {| text := js "task"; completed := false; dueDate := js "2025-01-05";
     time := t |}.

Definition exampleNote : ProcessedNoteWithId :=
  {| note_id := js "n1"; note_createdAt := js "2025-01-01T00:00:00Z";
     refinedNote := js "# Plans";
     emotionAnalysis := {| summary := []; emotions := [] |};
     actionItems := Some [dueItem (Some (js "09:00")); dueItem None;
                          dueItem (Some (js "08:00"))] |}.

Definition exampleEntry (i : nat) (t : option jsstring) : TodaysActionItem :=
  {| noteId := js "n1"; itemIndex := i; item := dueItem t;
     noteTitle := js "Plans" |}.

(** The answer assembled from the events of a stream: the texts in order,
    the last truthy [sources], the last [webSources]. *)
Definition assembledAnswer (events : list StreamEvent) : jsstring :=
  concat (omap ev_text events).

Definition assembledSources (events : list StreamEvent) : JSON.value :=
  default (JArray [])
    (last (filter (fun v => JSON.truthy v = true) (omap ev_sources events))).

Definition assembledWebSources (events : list StreamEvent) : list WebSource :=
  default [] (last (omap ev_webSources events)).

Definition assembledMessage (events : list StreamEvent) : ChatMessage :=
  {| role := model;
     content := CObject {| answer := assembledAnswer events;
                           sources := assembledSources events;
                           webSources := Some (assembledWebSources events) |} |}.

(** The sessions handed to [onSessionUpdate], in order. *)
Definition persisted (out : Outcome) : list ChatSession :=
  omap (fun e => match e with SessionUpdate s => Some s | _ => None end)
       (effects out).

(** While the exchange is under way: the arrays that existed before are
    untouched, the local copy holds the former messages, the user message
    and the placeholder, and the list on display holds the former messages,
    the user message and one message of the model. *)
Definition underWay (h : store) (session0 : ChatSession) (q : jsstring)
    (w : Working) : Prop :=
  let old := read h (messages session0) in
  let u := userMessage_of q in
  (exists ext,
     w_store w = h ++ [old ++ [u]; old ++ [u; placeholderMessage]] ++ ext) /\
  w_currentMessages w = S (length h) /\
  w_isFirstMessage w = Nat.eqb (length old) 0 /\
  (exists r, w_shown w = with_messages session0 r /\ r < length (w_store w)) /\
  (exists m c, shownMessages w = old ++ [u; m] /\
               role m = model /\ content m = CObject c).

(** An example of an exchange: a session with one earlier question and
    answer, a pending question, and three notes of which two are in the
    context of the session. *)
Definition earlierMessages : list ChatMessage :=
  [ {| role := user; content := CString (js "What is the sky like?") |};
    {| role := model;
       content := CObject {| answer := js "Blue."; sources := JArray [];
                             webSources := None |} |} ].

Definition exampleSession : ChatSession :=
  {| session_id := js "c1"; session_title := js "What is the sky like?";
     session_createdAt := js "2025-01-05T10:00:00Z";
     noteIds := [js "n1"; js "n3"]; messages := 0 |}.

Definition exampleState : ViewState :=
  {| session := exampleSession; question := js "And the sea?";
     isStreaming := false; error := None; useGoogleSearch := false |}.

Definition exampleStore : store := [earlierMessages].

Definition noteWithId (i : string) : ProcessedNoteWithId :=
  {| note_id := js i; note_createdAt := js "2025-01-01T00:00:00Z";
     refinedNote := js "# Sky"; emotionAnalysis := {| summary := []; emotions := [] |};
     actionItems := Some [] |}.

Definition exampleNotes : list ProcessedNoteWithId :=
  [noteWithId "n1"; noteWithId "n2"; noteWithId "n3"].

(** A new session, before its first exchange. *)
Definition newSession : ChatSession :=
  {| session_id := js "c2"; session_title := js "New Chat";
     session_createdAt := js "2025-01-05T11:00:00Z";
     noteIds := [js "n1"]; messages := 0 |}.

Definition newState : ViewState :=
  {| session := newSession;
     question := js "Which of my notes mention the colour of the sky at noon?";
     isStreaming := false; error := None; useGoogleSearch := false |}.

(** A backend that fails after a first chunk. *)
Definition brokenStream : ResponseStream :=
  {| chunks := [textChunk (js "Blue")]; fails := true |}.

(** The session built on success, with its messages at [r]. *)
Definition finalSession_at (h : store) (st : ViewState) (r : loc) : ChatSession :=
  {| session_id := session_id (session st);
     session_title :=
       match read h (messages (session st)) with
       | [] => substring0 (question st) 50
       | _ :: _ => session_title (session st)
       end;
     session_createdAt := session_createdAt (session st);
     noteIds := noteIds (session st);
     messages := r |}.

(** The call that starts the generator. *)
Definition streamCall (allNotes : list ProcessedNoteWithId) (st : ViewState)
  : Effect :=
  CallStream (contextNotes_of allNotes (session st)) (question st)
             (messages (session st)) (useGoogleSearch st).

(** The same exchange with the search switched on. *)
Definition searchingState : ViewState :=
  {| session := exampleSession; question := js "And the sea?";
     isStreaming := false; error := None; useGoogleSearch := true |}.

(** The response of the first example, cut inside the separator. *)
Definition skyStream : ResponseStream :=
  {| chunks := [textChunk (take 20 skyResponse); textChunk (drop 20 skyResponse)];
     fails := false |}.

(** The fallback sentence, in two chunks and without a separator. *)
Definition plainStream : ResponseStream :=
  {| chunks := [textChunk (js "I could not find an answer ");
                textChunk (js "in the selected notes.")];
     fails := false |}.

(** An answer followed by the separator and by text that is not JSON. *)
Definition malformedStream : ResponseStream :=
  {| chunks := [textChunk (js "Blue.%%SOURCES_"); textChunk (js "JSON%%[{oops")];
     fails := false |}.

(** An answer followed by two separators, each with a JSON array behind. *)
Definition repeatedStream : ResponseStream :=
  {| chunks := [textChunk (js "Blue.%%SOURCES_JSON%%[]%%SOURCES_JSON%%[1]")];
     fails := false |}.

(** * Further parts of the application *)

(** ** The tasks of a selected date (App.tsx) *)

(** [toYYYYMMDD(d)] *)
Definition toYYYYMMDD (d : LocalDate) : jsstring :=
  let year := getFullYear d in
  let month := padStart2 (toString (getMonth d + 1)) in
  let day := padStart2 (toString (getDate d)) in
  toString year ++ js "-" ++ month ++ js "-" ++ day.

Section PopoverTasks.

Variable localeCompare : jsstring -> jsstring -> Z.

(** The comparator of the popover: open items first, then as in the Today
    view. *)
Definition compareForPopover (a b : TodaysActionItem) : Z :=
  let aTime := time (item a) in
  let bTime := time (item b) in
  if negb (Bool.eqb (completed (item a)) (completed (item b)))
  then (if completed (item a) then 1 else -1)%Z
  else if truthy_opt aTime && truthy_opt bTime
  then localeCompare (default [] aTime) (default [] bTime)
  else if truthy_opt aTime then (-1)%Z
  else if truthy_opt bTime then 1%Z
  else 0%Z.

(** The entries pushed for one note. *)
Definition tasks_of_note (selectedDateStr : jsstring)
    (note : ProcessedNoteWithId) : list TodaysActionItem :=
  match actionItems note with
  | Some items =>
      omap id
        (imap (fun index item =>
                 if bool_decide (dueDate item = selectedDateStr)
                 then Some {| noteId := note_id note;
                              itemIndex := index;
                              item := item;
                              noteTitle := noteTitle_of (refinedNote note) |}
                 else None) items)
  | None => []
  end.

(** The memo [popoverTasks]; [datePopover] is the date of the popover, if
    one is open. *)
Definition popoverTasks (datePopover : option LocalDate)
    (notes : list ProcessedNoteWithId) : list TodaysActionItem :=
  match datePopover with
  | None => []
  | Some date =>
      let selectedDateStr := toYYYYMMDD date in
      let tasks := flat_map (tasks_of_note selectedDateStr) notes in
      sort compareForPopover tasks
  end.

End PopoverTasks.

(** ** The calendar (Calendar.tsx) *)

(** [set.add(x)] on a [Set], held in insertion order. *)
Definition Set_add (x : jsstring) (s : list jsstring) : list jsstring :=
  if bool_decide (x ∈ s) then s else s ++ [x].

(** [set.has(x)] *)
Definition Set_has (s : list jsstring) (x : jsstring) : bool :=
  bool_decide (x ∈ s).

(** The memo [taskDates]: the due dates of all action items, the empty
    ones left out. *)
Definition taskDates (notes : list ProcessedNoteWithId) : list jsstring :=
  fold_left
    (fun dates note =>
       match actionItems note with
       | Some items =>
           fold_left (fun dates item =>
                        if truthy_string (dueDate item)
                        then Set_add (dueDate item) dates else dates)
                     items dates
       | None => dates
       end) notes [].

(** A cell of the month on display: [fullDate] is
    [new Date(year, month, day)] for a day of that month, so that no field
    overflows into the next one.  The constructor reads a year from 0 to 99
    as a year of the twentieth century. *)
Definition fullDate (year month day : Z) : LocalDate :=
  {| getFullYear :=
       if ((0 <=? year) && (year <=? 99))%Z then (1900 + year)%Z else year;
     getMonth := month;
     getDate := day |}.

(** [dateStr] in [renderCells] *)
Definition dateStr (year month day : Z) : jsstring :=
  toString year ++ js "-" ++ padStart2 (toString (month + 1))
  ++ js "-" ++ padStart2 (toString day).

(** [hasTasks] in [renderCells]: the cell gets a dot. *)
Definition hasTasks (notes : list ProcessedNoteWithId) (year month day : Z) : bool :=
  Set_has (taskDates notes) (dateStr year month day).

(** [changeMonth(offset)], on the date held by the calendar: the day is set
    to 1 and the month moved, a month outside 0..11 carrying into the year.
    The time of day, which the date keeps, is not modelled. *)
Definition changeMonth (offset : Z) (prevDate : LocalDate) : LocalDate :=
  let m := (getMonth prevDate + offset)%Z in
  {| getFullYear := (getFullYear prevDate + m / 12)%Z;
     getMonth := (m mod 12)%Z;
     getDate := 1 |}.


(** A completed item due on the example day. *)
Definition doneItem (t : option jsstring) : ActionItem :=
  {| text := js "task"; completed := true; dueDate := js "2025-01-05";
     time := t |}.

(** A second note: four items due on the example day, two of them
    completed. *)
Definition popoverNote : ProcessedNoteWithId :=
  {| note_id := js "n2"; note_createdAt := js "2025-01-02T00:00:00Z";
     refinedNote := js "# Errands";
     emotionAnalysis := {| summary := []; emotions := [] |};
     actionItems := Some [doneItem (Some (js "09:00")); dueItem None;
                          dueItem (Some (js "08:00")); doneItem None] |}.


(** ** The answer on display (ChatDetailView.tsx) *)

(** The elements made by [renderAnswerText]: a list item, a heading of a
    level, a paragraph, with the key and the text they are given.  The class
    names, one fixed string for each kind, are left out. *)
Inductive Element :=
| Li (key : nat) (children : jsstring)
| Heading (level : nat) (key : nat) (children : jsstring)
| Paragraph (key : nat) (children : jsstring).

Definition children_of (e : Element) : jsstring :=
  match e with
  | Li _ c | Heading _ _ c | Paragraph _ c => c
  end.

Definition key_of (e : Element) : nat :=
  match e with
  | Li k _ | Heading _ k _ | Paragraph k _ => k
  end.

(** The length of the match of a run of number signs at the start of the
    line. *)
Fixpoint leadingHashes (line : jsstring) : nat :=
  match line with
  | 35%N :: rest => S (leadingHashes rest)
  | _ => 0
  end.

(** The callback of [map] in [renderAnswerText]. *)
Definition renderLine (index : nat) (line : jsstring) : Element :=
  let line := trim line in
  if startsWith line (js "* ") then Li index (drop 2 line)
  else if startsWith line (js "#") then
    let level :=
      if (0 <? leadingHashes line)%nat then leadingHashes line else 1 in
    let content := trimStart (drop (leadingHashes line) line) in
    Heading (Nat.min (level + 1) 6) index content
  else Paragraph index line.

Definition renderAnswerText (text : jsstring) : list Element :=
  let cleanText := default [] (split text separator !! 0) in
  imap renderLine (split cleanText [LF]).

(** [t] is a piece of [s]: a run of consecutive code units of [s]. *)
Definition piece_of (t s : jsstring) : Prop :=
  exists before after, s = before ++ t ++ after.


(** ** Ticking and re-dating an action item (notesService.ts, App.tsx) *)

(** A row of the hosted table of notes, as [select().single()] returns
    it. *)
Record NoteRow := {
  row_id : jsstring;
  created_at : jsstring;
  refined_note : jsstring;
  emotion_analysis : EmotionAnalysis;
  action_items : option (list ActionItem)
}.

(** The answer of the table to a request, [{ data, error }]; of the error
    only its presence is read. *)
Record Response := { resp_data : option NoteRow; resp_error : bool }.

(** How an asynchronous function ends. *)
Inductive Promise (A : Type) :=
| Resolved (a : A)
| Rejected.
Arguments Resolved {A} a.
Arguments Rejected {A}.

Definition with_actionItems (note : ProcessedNoteWithId)
    (items : option (list ActionItem)) : ProcessedNoteWithId :=
  {| note_id := note_id note; note_createdAt := note_createdAt note;
     refinedNote := refinedNote note; emotionAnalysis := emotionAnalysis note;
     actionItems := items |}.

Definition with_completed (item : ActionItem) (b : bool) : ActionItem :=
  {| text := text item; completed := b; dueDate := dueDate item;
     time := time item |}.

Definition with_dueDate (item : ActionItem) (d : jsstring) : ActionItem :=
  {| text := text item; completed := completed item; dueDate := d;
     time := time item |}.

(** What a call of one of the two services leaves behind: the note it was
    given, whose items it changes in place (the copy [updatedItems] is a new
    array of the same item objects); the requests sent to the table, each
    with the id and the items; and the promise it returns. *)
Record ServiceRun := {
  note_after : ProcessedNoteWithId;
  requests : list (jsstring * list ActionItem);
  returned : Promise (option ProcessedNoteWithId)
}.

(** What a handler of the application leaves behind: the notes held in
    the state, and the requests sent to the table. *)
Record NotesRun := {
  notes_after : list ProcessedNoteWithId;
  notes_requests : list (jsstring * list ActionItem)
}.

Section NoteUpdates.

(** [supabase.from('notes').update({ action_items }).eq('id', id).select().single()] *)
Variable notes_update : jsstring -> list ActionItem -> Response.

(** Spreading a missing [actionItems] throws. *)
Definition toggleActionItemCompletion (note : ProcessedNoteWithId)
    (itemIndex : nat) : ServiceRun :=
  match actionItems note with
  | None => {| note_after := note; requests := []; returned := Rejected |}
  | Some items =>
      let updatedItems :=
        alter (fun item => with_completed item (negb (completed item)))
              itemIndex items in
      let response := notes_update (note_id note) updatedItems in
      {| note_after := with_actionItems note (Some updatedItems);
         requests := [(note_id note, updatedItems)];
         returned :=
           match resp_data response with
           | Some data =>
               if resp_error response then Resolved None
               else Resolved (Some (with_actionItems note (action_items data)))
           | None => Resolved None
           end |}
  end.

Definition updateActionItemDate (note : ProcessedNoteWithId)
    (itemIndex : nat) (newDueDate : jsstring) : ServiceRun :=
  match actionItems note with
  | None => {| note_after := note; requests := []; returned := Rejected |}
  | Some items =>
      let updatedItems :=
        alter (fun item => with_dueDate item newDueDate) itemIndex items in
      let response := notes_update (note_id note) updatedItems in
      {| note_after := with_actionItems note (Some updatedItems);
         requests := [(note_id note, updatedItems)];
         returned :=
           match resp_data response with
           | Some data =>
               if resp_error response then Resolved None
               else Resolved (Some (with_actionItems note (action_items data)))
           | None => Resolved None
           end |}
  end.

(** The end of both handlers: the note found by [find] is the object held
    in [notes], at the index [i], so that what the service did to it shows
    in the state; when the service returns a note, every note with that id
    is replaced by it. *)
Definition afterService (notes : list ProcessedNoteWithId) (noteId : jsstring)
    (i : nat) (run : ServiceRun) : NotesRun :=
  let currentNotes := <[i := note_after run]> notes in
  {| notes_after :=
       match returned run with
       | Resolved (Some updatedNote) =>
           map (fun n => if bool_decide (note_id n = noteId)
                         then updatedNote else n) currentNotes
       | _ => currentNotes
       end;
     notes_requests := requests run |}.

Definition handleToggleActionItem (notes : list ProcessedNoteWithId)
    (noteId : jsstring) (itemIndex : nat) : NotesRun :=
  match list_find (fun n => note_id n = noteId) notes with
  | None => {| notes_after := notes; notes_requests := [] |}
  | Some (i, note) =>
      afterService notes noteId i (toggleActionItemCompletion note itemIndex)
  end.

Definition handleUpdateActionItemDate (notes : list ProcessedNoteWithId)
    (noteId : jsstring) (itemIndex : nat) (newDate : jsstring) : NotesRun :=
  match list_find (fun n => note_id n = noteId) notes with
  | None => {| notes_after := notes; notes_requests := [] |}
  | Some (i, note) =>
      afterService notes noteId i (updateActionItemDate note itemIndex newDate)
  end.

End NoteUpdates.

(** A table that stores what it is sent and returns the row. *)
Definition stores_items (notes_update : jsstring -> list ActionItem -> Response)
  : Prop :=
  forall id items,
    resp_error (notes_update id items) = false /\
    exists data, resp_data (notes_update id items) = Some data /\
                 action_items data = Some items.

(** A table that refuses every request. *)
Definition refuses (notes_update : jsstring -> list ActionItem -> Response)
  : Prop :=
  forall id items,
    resp_error (notes_update id items) = true \/
    resp_data (notes_update id items) = None.

Definition storingTable (id : jsstring) (items : list ActionItem) : Response :=
  {| resp_data := Some {| row_id := id; created_at := js "2025-01-01T00:00:00Z";
                          refined_note := js "# Plans";
                          emotion_analysis := {| summary := []; emotions := [] |};
                          action_items := Some items |};
     resp_error := false |}.

Definition failingTable (id : jsstring) (items : list ActionItem) : Response :=
  {| resp_data := None; resp_error := true |}.


(** ** A task added from the calendar (notesService.ts, App.tsx) *)

(** The row sent by [insert]. *)
Record NoteInsert := {
  ins_user_id : jsstring;
  ins_refined_note : jsstring;
  ins_emotion_analysis : EmotionAnalysis;
  ins_action_items : list ActionItem
}.

(** The argument of [saveManualTaskAsNote]. *)
Record ManualTask := {
  task_text : jsstring;
  task_dueDate : jsstring;
  task_time : option jsstring
}.

(** [ManualTaskPayload], what the dialog hands over. *)
Record ManualTaskPayload := {
  payload_text : jsstring;
  payload_time : option jsstring
}.

(** The cells of the application state that [handleSaveManualTask] reads
    and sets. *)
Record TaskState := {
  st_notes : list ProcessedNoteWithId;
  selectedDateForTask : option LocalDate;
  isAddTaskModalOpen : bool;
  st_error : option jsstring
}.

Section ManualTask.

(** The id of the signed-in user, if there is one. *)
Variable getUser : option jsstring.

(** [supabase.from('notes').insert(row).select().single()] *)
Variable notes_insert : NoteInsert -> Response.

(** [new Date(s).getTime()], with [None] for the NaN of an invalid date. *)
Variable getTime : jsstring -> option Z.

Definition saveManualTaskAsNote (task : ManualTask)
  : Promise ProcessedNoteWithId :=
  match getUser with
  | None => Rejected
  | Some user_id =>
      let noteContent := js "# To-Do: " ++ task_text task in
      let emotionAnalysis :=
        {| summary := js "Task added manually from calendar.";
           emotions := [] |} in
      let actionItems :=
        [{| text := task_text task; completed := false;
            dueDate := task_dueDate task; time := task_time task |}] in
      let response :=
        notes_insert {| ins_user_id := user_id;
                        ins_refined_note := noteContent;
                        ins_emotion_analysis := emotionAnalysis;
                        ins_action_items := actionItems |} in
      if resp_error response then Rejected
      else match resp_data response with
           | None => Rejected
           | Some data =>
               Resolved {| note_id := row_id data;
                           note_createdAt := created_at data;
                           refinedNote := refined_note data;
                           emotionAnalysis := emotion_analysis data;
                           actionItems := action_items data |}
           end
  end.

(** The comparator of the notes, newest first; a NaN counts as zero. *)
Definition byCreatedAtDesc (a b : ProcessedNoteWithId) : Z :=
  match getTime (note_createdAt b), getTime (note_createdAt a) with
  | Some tb, Some ta => (tb - ta)%Z
  | _, _ => 0%Z
  end.

Definition handleSaveManualTask (st : TaskState) (task : ManualTaskPayload)
  : TaskState :=
  match selectedDateForTask st with
  | None => st
  | Some selected =>
      let year := getFullYear selected in
      let month := padStart2 (toString (getMonth selected + 1)) in
      let day := padStart2 (toString (getDate selected)) in
      let dueDate := toString year ++ js "-" ++ month ++ js "-" ++ day in
      match saveManualTaskAsNote
              {| task_text := payload_text task; task_dueDate := dueDate;
                 task_time := payload_time task |} with
      | Resolved newNote =>
          {| st_notes := sort byCreatedAtDesc (newNote :: st_notes st);
             selectedDateForTask := None;
             isAddTaskModalOpen := false;
             st_error := st_error st |}
      | Rejected =>
          {| st_notes := st_notes st;
             selectedDateForTask := selectedDateForTask st;
             isAddTaskModalOpen := isAddTaskModalOpen st;
             st_error := Some (js "Failed to save task.") |}
      end
  end.

End ManualTask.

(** A table that stores the row it is sent and returns it. *)
Definition stores_note (notes_insert : NoteInsert -> Response) : Prop :=
  forall row,
    resp_error (notes_insert row) = false /\
    exists data, resp_data (notes_insert row) = Some data /\
                 refined_note data = ins_refined_note row /\
                 action_items data = Some (ins_action_items row).

(** The first line of a text. *)
Definition firstLine (s : jsstring) : jsstring :=
  default [] (split s [LF] !! 0).

Definition storingInsert (row : NoteInsert) : Response :=
  {| resp_data := Some {| row_id := js "n9";
                          created_at := js "2025-01-03T00:00:00Z";
                          refined_note := ins_refined_note row;
                          emotion_analysis := ins_emotion_analysis row;
                          action_items := Some (ins_action_items row) |};
     resp_error := false |}.

Definition taskState : TaskState :=
  {| st_notes := [exampleNote]; selectedDateForTask := Some exampleDay;
     isAddTaskModalOpen := true; st_error := None |}.


(** ** The list of chat sessions (App.tsx) *)

(** The cells of the application state that hold chat sessions. *)
Record ChatListState := {
  chatSessions : list ChatSession;
  pendingChatSession : option ChatSession
}.

Section UpdateChatSession.

(** [chatService.saveChatSession], whose result is awaited and dropped. *)
Variable saveChatSession : ChatSession -> Promise ChatSession.

(** [new Date(s).getTime()], with [None] for the NaN of an invalid date. *)
Variable getTime : jsstring -> option Z.

Definition bySessionCreatedAtDesc (a b : ChatSession) : Z :=
  match getTime (session_createdAt b), getTime (session_createdAt a) with
  | Some tb, Some ta => (tb - ta)%Z
  | _, _ => 0%Z
  end.

Definition handleUpdateChatSession (st : ChatListState)
    (updatedSession : ChatSession) : ChatListState :=
  match saveChatSession updatedSession with
  | Rejected => st
  | Resolved _ =>
      {| chatSessions :=
           let prev := chatSessions st in
           match list_find (fun s => session_id s = session_id updatedSession)
                           prev with
           | Some (existingIndex, _) => <[existingIndex := updatedSession]> prev
           | None => sort bySessionCreatedAtDesc (updatedSession :: prev)
           end;
         pendingChatSession :=
           match pendingChatSession st with
           | Some current =>
               if bool_decide (session_id current = session_id updatedSession)
               then None else Some current
           | None => None
           end |}
  end.

End UpdateChatSession.

(** [sessionToView] in the chat view: the pending session if it is the
    selected one, else the first session of the list with the selected
    id. *)
Definition sessionToView (st : ChatListState) (selectedChatId : option jsstring)
  : option ChatSession :=
  match pendingChatSession st with
  | Some pending =>
      if bool_decide (Some (session_id pending) = selectedChatId)
      then Some pending
      else snd <$> list_find (fun s => Some (session_id s) = selectedChatId)
                             (chatSessions st)
  | None =>
      snd <$> list_find (fun s => Some (session_id s) = selectedChatId)
                        (chatSessions st)
  end.

(** A service that saves every session. *)
Definition savingService (s : ChatSession) : Promise ChatSession := Resolved s.

(** The state of the application while a new session is pending. *)
Definition pendingState : ChatListState :=
  {| chatSessions := [exampleSession]; pendingChatSession := Some newSession |}.


(** The state once the user has typed [q] into the input:
    [setQuestion(q)]. *)
Definition withQuestion (st : ViewState) (q : jsstring) : ViewState :=
  {| session := session st; question := q; isStreaming := isStreaming st;
     error := error st; useGoogleSearch := useGoogleSearch st |}.

(** The messages on display in the state left by an exchange. *)
Definition onDisplay (out : Outcome) : list ChatMessage :=
  read (out_store out) (messages (session (out_state out))).


(** ** Examples for the handlers *)

Definition taskNotes : list ProcessedNoteWithId := [exampleNote; popoverNote].

Definition nextDay : LocalDate :=
  {| getFullYear := 2025; getMonth := 0; getDate := 6 |}.

Definition milkTask : ManualTaskPayload :=
  {| payload_text := js "Buy milk"; payload_time := Some (js "10:00") |}.

(** No creation date can be read. *)
Definition noTime (s : jsstring) : option Z := None.

(** The example state with three spaces typed as the question. *)
Definition blankState : ViewState := withQuestion exampleState (js "   ").

(** A backend that fails on the first question of the new session and
    answers any other. *)
Definition flakyBackend (req : GenerateRequest) : ResponseStream :=
  if bool_decide (prompt_question (contents req) = question newState)
  then brokenStream else skyStream.

(** * Properties *)

(** ** Strings: [includes], [indexOf] and [split] *)

Section StringFacts.

Implicit Types s sep cur : jsstring.

Lemma startsWith_prefix s sep : startsWith s sep = true <-> sep `prefix_of` s.
Proof. unfold startsWith. apply bool_decide_eq_true. Qed.

Lemma startsWith_nil sep : sep <> [] -> startsWith [] sep = false.
Proof.
  intros Hne. unfold startsWith. apply bool_decide_eq_false.
  intros Hp. apply prefix_nil_inv in Hp. done.
Qed.

Lemma not_occurs_at_0 s sep : startsWith s sep = false -> ~ occurs_at sep s 0.
Proof.
  intros E H. unfold occurs_at in H. rewrite drop_0 in H.
  apply startsWith_prefix in H. congruence.
Qed.

Lemma occurs_at_0 s sep : occurs_at sep s 0 <-> sep `prefix_of` s.
Proof. unfold occurs_at. by rewrite drop_0. Qed.

Lemma occurs_at_S sep c s i : occurs_at sep (c :: s) (S i) <-> occurs_at sep s i.
Proof. reflexivity. Qed.

Lemma occurs_at_nil sep i : occurs_at sep [] i <-> occurs_at sep [] 0.
Proof. unfold occurs_at. by rewrite !drop_nil. Qed.

(** [includes] holds exactly when the separator occurs somewhere. *)
Lemma includes_occurs s sep :
  includes s sep = true <-> exists i, occurs_at sep s i.
Proof.
  induction s as [|c s IH]; simpl.
  - rewrite orb_false_r, startsWith_prefix, <- occurs_at_0. split.
    + intros H. by exists 0.
    + intros [i H]. by apply occurs_at_nil in H.
  - rewrite orb_true_iff, startsWith_prefix, <- occurs_at_0, IH. split.
    + intros [H | [i H]]; [by exists 0 | by exists (S i)].
    + intros [[|i] H]; [by left | right; by exists i].
Qed.

Lemma indexOf_unfold s sep :
  indexOf s sep =
  if startsWith s sep then Some 0
  else match s with [] => None | _ :: s' => S <$> indexOf s' sep end.
Proof. by destruct s. Qed.

(** [indexOf] finds the least index at which the separator occurs. *)
Lemma indexOf_Some s sep i :
  indexOf s sep = Some i <->
  occurs_at sep s i /\ forall j, j < i -> ~ occurs_at sep s j.
Proof.
  revert i. induction s as [|c s IH]; intros i; rewrite indexOf_unfold.
  - destruct (startsWith [] sep) eqn:E.
    + apply startsWith_prefix, occurs_at_0 in E. split.
      * intros [= <-]. split; [exact E | lia].
      * intros [_ Hmin]. destruct i as [|i]; [done |].
        exfalso. apply (Hmin 0); [lia | exact E].
    + apply not_occurs_at_0 in E. split; [done |].
      intros [H _]. by apply occurs_at_nil in H.
  - destruct (startsWith (c :: s) sep) eqn:E.
    + apply startsWith_prefix, occurs_at_0 in E. split.
      * intros [= <-]. split; [exact E | lia].
      * intros [_ Hmin]. destruct i as [|i]; [done |].
        exfalso. apply (Hmin 0); [lia | exact E].
    + apply not_occurs_at_0 in E.
      destruct i as [|i].
      * split; [by destruct (indexOf s sep) | intros [H _]; done].
      * specialize (IH i). split.
        -- intros H. destruct (indexOf s sep) as [k|]; [|done].
           injection H as ->. destruct IH as [[Ho Hmin] _]; [done|].
           split; [exact Ho |].
           intros [|j] Hj; [done |]. apply Hmin. lia.
        -- intros [H Hmin]. destruct IH as [_ ->]; [done |].
           split; [exact H |].
           intros j Hj. apply (Hmin (S j)). lia.
Qed.

Lemma indexOf_None s sep :
  indexOf s sep = None <-> forall i, ~ occurs_at sep s i.
Proof.
  induction s as [|c s IH]; rewrite indexOf_unfold.
  - destruct (startsWith [] sep) eqn:E.
    + apply startsWith_prefix, occurs_at_0 in E.
      split; [done |]. intros H. exfalso. by apply (H 0).
    + apply not_occurs_at_0 in E. split; [| done].
      intros _ i H. by apply occurs_at_nil in H.
  - destruct (startsWith (c :: s) sep) eqn:E.
    + apply startsWith_prefix, occurs_at_0 in E.
      split; [done |]. intros H. exfalso. by apply (H 0).
    + apply not_occurs_at_0 in E.
      rewrite fmap_None, IH. split.
      * intros H [|i]; [done | apply H].
      * intros H i. apply (H (S i)).
Qed.

Lemma includes_indexOf s sep :
  includes s sep = true <-> is_Some (indexOf s sep).
Proof.
  rewrite includes_occurs. split.
  - intros Hex. destruct (indexOf s sep) eqn:E; [by eexists |].
    destruct Hex as [i Hi]. by apply indexOf_None with (i := i) in E.
  - intros [i Hi]. exists i. by apply indexOf_Some in Hi as [? _].
Qed.

Lemma includes_false s sep :
  includes s sep = false <-> forall i, ~ occurs_at sep s i.
Proof.
  rewrite <- not_true_iff_false, includes_occurs. split.
  - intros H i Hi. apply H. by exists i.
  - intros H [i Hi]. by apply (H i).
Qed.

(** Passing over the rest of a match. *)
Lemma split_from_skip sep k cur s :
  k <= length s ->
  split_from sep k cur s = split_from sep 0 cur (drop k s).
Proof.
  revert s. induction k as [|k IH]; intros s Hk; [done |].
  destruct s as [|c s]; simpl in *; [lia |].
  apply IH. lia.
Qed.

Lemma split_from_indexOf sep cur s :
  sep <> [] ->
  split_from sep 0 cur s =
  match indexOf s sep with
  | None => [rev cur ++ s]
  | Some i =>
      (rev cur ++ take i s) :: split_from sep 0 [] (drop (i + length sep) s)
  end.
Proof.
  intros Hne. revert cur. induction s as [|c s IH]; intros cur; simpl.
  - rewrite startsWith_nil by done. by rewrite app_nil_r.
  - destruct (startsWith (c :: s) sep) eqn:E.
    + rewrite app_nil_r. f_equal.
      apply startsWith_prefix in E. apply prefix_length in E. simpl in E.
      destruct sep as [|d sep]; [done |]. simpl in *.
      rewrite Nat.sub_0_r. apply split_from_skip. lia.
    + rewrite IH. destruct (indexOf s sep) as [i|]; simpl.
      * by rewrite <- app_assoc.
      * by rewrite <- app_assoc.
Qed.

(** The equation of [split]: cut at the first occurrence, go on behind it. *)
Lemma split_indexOf s sep :
  sep <> [] ->
  split s sep =
  match indexOf s sep with
  | None => [s]
  | Some i => take i s :: split (drop (i + length sep) s) sep
  end.
Proof.
  intros Hne. unfold split. destruct sep as [|d sep]; [done |].
  by rewrite split_from_indexOf.
Qed.

(** When the text is cut at the first occurrence of the separator. *)
Lemma indexOf_app_take_drop s sep i :
  indexOf s sep = Some i -> s = take i s ++ sep ++ drop (i + length sep) s.
Proof.
  intros H. apply indexOf_Some in H as [[k Hk] _].
  rewrite <- (take_drop i s) at 1. f_equal. rewrite Hk at 1. f_equal.
  rewrite <- drop_drop, Hk. by rewrite drop_app_length.
Qed.

End StringFacts.

(** ** [JSON.parse]: what is consumed, and the fuel *)

Section Fuel.
Implicit Types (s r : jsstring) (f : nat).

Lemma skip_ws_length s : length (skip_ws s) <= length s.
Proof.
  induction s as [|c s IH]; simpl; [lia |].
  destruct (is_ws c); simpl; lia.
Qed.

Lemma skip_ws_cons_length s c r : skip_ws s = c :: r -> length r < length s.
Proof.
  intros H. pose proof (skip_ws_length s) as Hl. rewrite H in Hl. simpl in Hl. lia.
Qed.

Lemma span_digits_length s d r : span_digits s = (d, r) -> length r <= length s.
Proof.
  revert d r. induction s as [|c s IH]; intros d r; simpl.
  - intros [= <- <-]. simpl. lia.
  - destruct (is_digit c).
    + destruct (span_digits s) as [d' r'] eqn:E. intros [= <- <-].
      specialize (IH _ _ eq_refl). lia.
    + intros [= <- <-]. simpl. lia.
Qed.

Lemma expect_length lit s r : expect lit s = Some r -> length r <= length s.
Proof.
  revert s. induction lit as [|c lit IH]; intros [|d s]; simpl; try done.
  - intros [= <-]. simpl. lia.
  - intros [= <-]. simpl. lia.
  - destruct (c =? d)%N; [| done]. intros H%IH. lia.
Qed.

Lemma string_body_length s acc k r :
  string_body s acc = Some (k, r) -> length r <= length s.
Proof.
  revert acc. induction s as [s IH] using (induction_ltof1 _ (@length _)).
  unfold ltof in IH. intros acc. destruct s as [|c s]; simpl; [done |].
  destruct (c =? 34)%N; [intros [= <- <-]; lia |].
  destruct (c =? 92)%N.
  - destruct s as [|e s]; [done |].
    destruct (simple_escape e).
    + intros H%IH; simpl in *; lia.
    + destruct (e =? 117)%N; [| done].
      destruct s as [|h1 [|h2 [|h3 [|h4 s]]]]; try done.
      destruct (hex4 h1 h2 h3 h4); [| done].
      intros H%IH; simpl in *; lia.
  - destruct (c <? 32)%N; [done |].
    intros H%IH; simpl in *; lia.
Qed.

Lemma number_literal_length s n r :
  number_literal s = Some (n, r) -> length r <= length s.
Proof.
  unfold number_literal. intros H.
  repeat (case_match; simplify_eq);
    repeat match goal with
           | H : span_digits _ = _ |- _ => apply span_digits_length in H
           end;
    simpl in *; lia.
Qed.

Lemma of_option_fuel {A} (o : option (A * jsstring)) : of_option o <> OutOfFuel.
Proof. by destruct o as [[? ?]|]. Qed.

Lemma of_option_length {A} (o : option (A * jsstring)) (a : A) r n :
  (forall a' r', o = Some (a', r') -> length r' <= n) ->
  of_option o = Parsed a r -> length r <= n.
Proof.
  destruct o as [[a' r']|]; [| done]. intros H [= <- <-]. by apply (H a' r').
Qed.

Ltac lengths :=
  repeat match goal with
         | H : skip_ws _ = _ :: _ |- _ => apply skip_ws_cons_length in H
         | H : string_body _ _ = Some _ |- _ => apply string_body_length in H
         | H : expect _ _ = Some _ |- _ => apply expect_length in H
         | H : number_literal _ = Some _ |- _ => apply number_literal_length in H
         end.

(** What is left after a value is no longer than what was there. *)
Lemma parse_consumes f :
  (forall s v r, parse_value f s = Parsed v r -> length r <= length s) /\
  (forall s acc v r, parse_elements f s acc = Parsed v r -> length r <= length s) /\
  (forall s acc v r, parse_members f s acc = Parsed v r -> length r <= length s).
Proof.
  induction f as [|f (IHv & IHe & IHm)]; [by repeat split |].
  split; [| split].
  - intros s v r. simpl. destruct (skip_ws s) as [|c s'] eqn:E; [done |].
    apply skip_ws_cons_length in E.
    repeat case_match; try done;
      try (intros Hp; first [apply IHe in Hp | apply IHm in Hp]; lia);
      try (intros [= <- <-]; lengths; simpl in *; lia);
      apply of_option_length; intros x1 x2 Hx;
      apply fmap_Some in Hx as (y & Hy & Hxy); try destruct y; simplify_eq/=;
      lengths; simpl in *; lia.
  - intros s acc v r. simpl. destruct (parse_value f s) as [v' r'| |] eqn:Ev;
      [| done | done].
    apply IHv in Ev.
    repeat case_match; try done;
      try (intros Hp; apply IHe in Hp; lengths; lia);
      intros [= <- <-]; lengths; simpl in *; lia.
  - intros s acc v r. simpl.
    repeat case_match; try done;
      try match goal with
          | Hv : parse_value _ _ = Parsed _ _ |- _ => apply IHv in Hv
          end;
      try (intros Hp; apply IHm in Hp; lengths; simpl in *; lia);
      intros [= <- <-]; lengths; simpl in *; lia.
Qed.

(** The fuel given by [JSON.parse] is never used up: a failure of
    [JSON.parse] is a syntax error. *)
Lemma parse_fuel f :
  (forall s, 2 * length s + 1 <= f -> parse_value f s <> OutOfFuel) /\
  (forall s acc, 2 * length s + 2 <= f -> parse_elements f s acc <> OutOfFuel) /\
  (forall s acc, 2 * length s + 2 <= f -> parse_members f s acc <> OutOfFuel).
Proof.
  induction f as [|f (IHv & IHe & IHm)]; [repeat split; intros; lia |].
  pose proof (parse_consumes f) as (Cv & Ce & Cm).
  split; [| split].
  - intros s Hf. simpl. destruct (skip_ws s) as [|c s'] eqn:E; [done |].
    apply skip_ws_cons_length in E.
    repeat case_match; try done; try apply of_option_fuel;
      first [apply IHe | apply IHm]; lia.
  - intros s acc Hf. simpl. destruct (parse_value f s) as [v' r'| |] eqn:Ev.
    + apply Cv in Ev. repeat case_match; try done.
      all: lengths; apply IHe; lia.
    + done.
    + exfalso. revert Ev. apply IHv. lia.
  - intros s acc Hf. simpl.
    repeat case_match; try done.
    all: try match goal with
             | H : parse_value _ _ = OutOfFuel |- _ =>
                 exfalso; revert H; lengths; apply IHv; simpl in *; lia
             end.
    all: match goal with H : parse_value _ _ = Parsed _ _ |- _ => apply Cv in H end.
    all: lengths; apply IHm; simpl in *; lia.
Qed.

Lemma parse_value_fuel s : parse_value (2 * length s + 2) s <> OutOfFuel.
Proof. apply parse_fuel. lia. Qed.

(** [JSON.parse] fails only on a syntax error or on text left over. *)
Lemma parse_None s :
  JSON.parse s = None <->
  parse_value (2 * length s + 2) s = SyntaxError \/
  exists v r, parse_value (2 * length s + 2) s = Parsed v r /\ skip_ws r <> [].
Proof.
  unfold JSON.parse. pose proof (parse_value_fuel s) as Hfuel.
  destruct (parse_value _ s) as [v r| |]; [| by split; auto | done].
  destruct (skip_ws r) eqn:E; split; try done.
  - intros [? | (v' & r' & [= <- <-] & Hne)]; [done |]. by rewrite E in Hne.
  - intros _. right. exists v, r. by rewrite E.
Qed.

End Fuel.

(** ** The notes-only mode of [continueChatStream] *)

Section NotesOnly.

Implicit Types (resp : ResponseStream) (s : jsstring).

Lemma separator_not_nil : separator <> [].
Proof. discriminate. Qed.

(** The buffered text is the concatenation of the text fragments. *)
Lemma fullText_of_streamedText cs : fullText_of cs = streamedText cs.
Proof.
  unfold fullText_of, streamedText.
  rewrite <- (app_nil_l (concat _)). generalize (@nil code_unit) as acc.
  induction cs as [|c cs IH]; intros acc; simpl.
  - by rewrite app_nil_r.
  - destruct (chunk_text c) as [t|]; simpl; [| apply IH].
    destruct t as [|u t]; simpl.
    + apply IH.
    + rewrite IH. by rewrite <- app_assoc.
Qed.

Lemma yielded_steps req cs evs :
  yielded {| steps := Request req :: map Receive cs ++ map Yield evs;
             threw := false |} = evs.
Proof.
  unfold yielded. simpl.
  induction cs as [|c cs IH]; simpl; [| exact IH].
  induction evs as [|e evs IH]; simpl; [done | by rewrite IH].
Qed.

Lemma split_0 s : split s separator !! 0 = Some (answerSegment s).
Proof.
  rewrite split_indexOf by apply separator_not_nil. unfold answerSegment.
  by destruct (indexOf s separator).
Qed.

Lemma split_1 s :
  includes s separator = true ->
  split s separator !! 1 = Some (citationSegment s).
Proof.
  intros [i Hi]%includes_indexOf.
  rewrite split_indexOf by apply separator_not_nil. unfold citationSegment.
  rewrite Hi. simpl. apply split_0.
Qed.

(** With a separator in it, the text is the answer segment, the separator
    and a rest whose own answer segment is the citation segment; the
    separator does not occur before the end of the answer segment. *)
Lemma segments_cut s :
  includes s separator = true ->
  exists rest,
    s = answerSegment s ++ separator ++ rest /\
    citationSegment s = answerSegment rest /\
    forall j, j < length (answerSegment s) -> ~ occurs_at separator s j.
Proof.
  intros [i Hi]%includes_indexOf.
  exists (drop (i + length separator) s).
  unfold citationSegment, answerSegment. rewrite Hi.
  split; [by apply indexOf_app_take_drop |]. split; [done |].
  intros j Hj. apply indexOf_Some in Hi as [_ Hmin]. apply Hmin.
  rewrite length_take in Hj. lia.
Qed.

(** In the notes-only mode every chunk is received before anything is
    yielded, and what is yielded depends on the buffered text alone. *)
Lemma notesOnly_completed resp notes question history :
  fails resp = false ->
  let run := continueChatStream (replying resp) notes question history false in
  let fullText := streamedText (chunks resp) in
  threw run = false /\
  (exists req, steps run =
               Request req :: map Receive (chunks resp)
               ++ map Yield (yielded run)) /\
  yielded run =
    if includes fullText separator
    then text_event (Some (answerSegment fullText)) ::
         match JSON.parse (citationSegment fullText) with
         | Some sources => [sources_event sources]
         | None => []
         end
    else [text_event (Some fullText)].
Proof.
  intros Hok. cbv zeta.
  unfold continueChatStream, notesOnlyRun, replying. rewrite Hok.
  rewrite fullText_of_streamedText.
  set (fullText := streamedText (chunks resp)).
  set (req := {| contents := _; googleSearch := false |}).
  destruct (includes fullText separator) eqn:Hinc.
  - rewrite split_0, (split_1 _ Hinc). simpl default.
    set (evs := text_event _ :: match JSON.parse _ with
                                | Some _ => _ | None => _ end).
    assert (Yield (text_event (Some (answerSegment fullText))) ::
            match JSON.parse (citationSegment fullText) with
            | Some sources => [Yield (sources_event sources)]
            | None => []
            end = map Yield evs) as ->.
    { subst evs. by destruct (JSON.parse _). }
    rewrite yielded_steps. simpl. eauto.
  - change [Yield (text_event (Some fullText))]
      with (map Yield [text_event (Some fullText)]).
    rewrite yielded_steps. simpl. eauto.
Qed.

(** A backend failure ends the run with an exception, nothing yielded. *)
Lemma notesOnly_failed resp notes question history :
  fails resp = true ->
  let run := continueChatStream (replying resp) notes question history false in
  threw run = true /\ yielded run = [].
Proof.
  intros Hf. cbv zeta.
  unfold continueChatStream, notesOnlyRun, replying. rewrite Hf.
  split; [done |]. unfold yielded. simpl.
  induction (chunks resp) as [|c cs IH]; [done | exact IH].
Qed.

End NotesOnly.

(** ** Claims about the notes-only mode *)

(** C2.  In the notes-only mode, when the text fragments of the backend
    stream concatenate to the answer "The sky is blue." with a line feed,
    the separator and the JSON array of one citation, the generator yields
    exactly two events, the text event carrying the text before the
    separator and then the sources event carrying the parsed array, and it
    yields them only after it has received every chunk. *)
Theorem C2_sky_example resp notes question history :
  fails resp = false ->
  streamedText (chunks resp) = skyResponse ->
  let run := continueChatStream (replying resp) notes question history false in
  yielded run = [text_event (Some skyAnswer); sources_event skySources] /\
  threw run = false /\
  exists req,
    steps run =
    Request req :: map Receive (chunks resp)
    ++ [Yield (text_event (Some skyAnswer)); Yield (sources_event skySources)].
Proof.
  intros Hok Htext.
  destruct (notesOnly_completed resp notes question history Hok)
    as (Hthrew & [req Hsteps] & Hy).
  cbv zeta in *. rewrite Htext in Hy.
  assert (includes skyResponse separator = true) as Hinc
    by (vm_compute; reflexivity).
  assert (answerSegment skyResponse = skyAnswer) as Hans
    by (vm_compute; reflexivity).
  assert (JSON.parse (citationSegment skyResponse) = Some skySources) as Hcit
    by (vm_compute; reflexivity).
  rewrite Hinc, Hans, Hcit in Hy.
  split; [exact Hy |]. split; [exact Hthrew |].
  exists req. rewrite Hsteps, Hy. reflexivity.
Qed.

Lemma C2_sky_example_witness :
  fails skyStream = false /\
  streamedText (chunks skyStream) = skyResponse /\
  yielded (continueChatStream (replying skyStream) [] (js "sky?") [] false)
  = [text_event (Some skyAnswer); sources_event skySources].
Proof.
  split; [reflexivity |]. split; [vm_compute; reflexivity |].
  apply (C2_sky_example skyStream [] (js "sky?") []);
    [reflexivity | vm_compute; reflexivity].
Defined.

(** C3.  In the notes-only mode, when the buffered text does not contain
    the separator, the generator yields exactly one event, the text event
    carrying the whole buffered text, and no sources event. *)
Theorem C3_no_separator resp notes question history :
  fails resp = false ->
  includes (streamedText (chunks resp)) separator = false ->
  let run := continueChatStream (replying resp) notes question history false in
  yielded run = [text_event (Some (streamedText (chunks resp)))] /\
  threw run = false.
Proof.
  intros Hok Hinc.
  destruct (notesOnly_completed resp notes question history Hok)
    as (Hthrew & _ & Hy).
  cbv zeta in *. rewrite Hinc in Hy. by split.
Qed.

Lemma C3_no_separator_witness :
  fails plainStream = false /\
  includes (streamedText (chunks plainStream)) separator = false /\
  yielded (continueChatStream (replying plainStream) [] (js "why?") [] false)
  = [text_event (Some (js "I could not find an answer in the selected notes."))].
Proof.
  split; [reflexivity |]. split; [vm_compute; reflexivity |].
  apply (C3_no_separator plainStream [] (js "why?") []);
    [reflexivity | vm_compute; reflexivity].
Defined.

(** C4.  In the notes-only mode, when the buffered text contains the
    separator and the segment after it is not valid JSON, the generator
    yields the text event carrying the text before the separator, yields no
    sources event and ends normally. *)
Theorem C4_malformed_citations resp notes question history :
  fails resp = false ->
  includes (streamedText (chunks resp)) separator = true ->
  JSON.parse (citationSegment (streamedText (chunks resp))) = None ->
  let run := continueChatStream (replying resp) notes question history false in
  yielded run = [text_event (Some (answerSegment (streamedText (chunks resp))))] /\
  threw run = false.
Proof.
  intros Hok Hinc Hparse.
  destruct (notesOnly_completed resp notes question history Hok)
    as (Hthrew & _ & Hy).
  cbv zeta in *. rewrite Hinc, Hparse in Hy. by split.
Qed.

Lemma C4_malformed_citations_witness :
  fails malformedStream = false /\
  includes (streamedText (chunks malformedStream)) separator = true /\
  JSON.parse (citationSegment (streamedText (chunks malformedStream))) = None /\
  yielded (continueChatStream (replying malformedStream) [] (js "sky?") [] false)
  = [text_event (Some (js "Blue."))] /\
  threw (continueChatStream (replying malformedStream) [] (js "sky?") [] false)
  = false.
Proof.
  split; [reflexivity |]. split; [vm_compute; reflexivity |].
  split; [vm_compute; reflexivity |].
  apply (C4_malformed_citations malformedStream [] (js "sky?") []);
    [reflexivity | vm_compute; reflexivity | vm_compute; reflexivity].
Defined.

(** C10.  In the notes-only mode, when the buffered text contains the
    separator twice or more, [a] being the text before its first occurrence
    and [b] the text between that occurrence and the next one behind it, the
    answer yielded is [a], the JSON parse is attempted on [b] alone, and the
    text [c] after the second occurrence has no effect on what is yielded. *)
Theorem C10_repeated_separator resp notes question history (a b c : jsstring) :
  fails resp = false ->
  streamedText (chunks resp) = a ++ separator ++ b ++ separator ++ c ->
  indexOf (a ++ separator ++ b ++ separator ++ c) separator = Some (length a) ->
  indexOf (b ++ separator ++ c) separator = Some (length b) ->
  let run := continueChatStream (replying resp) notes question history false in
  yielded run =
    text_event (Some a) ::
    match JSON.parse b with
    | Some sources => [sources_event sources]
    | None => []
    end /\
  threw run = false.
Proof.
  intros Hok Htext Ha Hb.
  destruct (notesOnly_completed resp notes question history Hok)
    as (Hthrew & _ & Hy).
  cbv zeta in *. rewrite Htext in Hy.
  assert (includes (a ++ separator ++ b ++ separator ++ c) separator = true)
    as Hinc by (apply includes_indexOf; eauto).
  assert (answerSegment (a ++ separator ++ b ++ separator ++ c) = a) as Hans.
  { unfold answerSegment. rewrite Ha. by rewrite take_app_length. }
  assert (citationSegment (a ++ separator ++ b ++ separator ++ c) = b) as Hcit.
  { unfold citationSegment. rewrite Ha.
    rewrite <- drop_drop, drop_app_length, drop_app_length.
    unfold answerSegment. rewrite Hb. by rewrite take_app_length. }
  rewrite Hinc, Hans, Hcit in Hy. by split.
Qed.

Lemma C10_repeated_separator_witness :
  yielded (continueChatStream (replying repeatedStream) [] (js "sky?") [] false)
  = [text_event (Some (js "Blue.")); sources_event (JArray [])].
Proof.
  apply (C10_repeated_separator repeatedStream [] (js "sky?") []
           (js "Blue.") (js "[]") (js "[1]"));
    vm_compute; reflexivity.
Defined.

(** Occurrences are counted as [split] finds them: an occurrence that
    overlaps the one before it is not a match of its own, and stays in the
    second part, which then is not JSON. *)
Lemma overlapping_separators :
  split (js "A%%SOURCES_JSON%%SOURCES_JSON%%[1]") separator
  = [js "A"; js "SOURCES_JSON%%[1]"] /\
  JSON.parse (js "SOURCES_JSON%%[1]") = None.
Proof. split; vm_compute; reflexivity. Qed.

(** ** The [Map] constructor *)

Section MapFacts.
Context {K V : Type} `{EqDecision K}.
Implicit Types (m : list (K * V)) (k : K) (v : V).

Lemma Map_of_snoc (l : list (K * V)) k v :
  Map_of (l ++ [(k, v)]) = Map_set k v (Map_of l).
Proof. unfold Map_of. by rewrite fold_left_app. Qed.

Lemma Map_set_keys m k v :
  (Map_set k v m).*1 = if decide (k ∈ m.*1) then m.*1 else m.*1 ++ [k].
Proof.
  induction m as [|[k' v'] m IH].
  - destruct (decide (k ∈ ([] : list (K * V)).*1)) as [Hin|_]; [| done].
    by apply not_elem_of_nil in Hin.
  - change ((k', v') :: m).*1 with (k' :: m.*1). simpl Map_set.
    destruct (decide (k = k')) as [->|Hne].
    + destruct (decide (k' ∈ k' :: m.*1)) as [_|Hnin]; [done |].
      exfalso. apply Hnin, elem_of_cons. by left.
    + change ((k', v') :: Map_set k v m).*1 with (k' :: (Map_set k v m).*1).
      rewrite IH. destruct (decide (k ∈ m.*1)) as [Hin|Hnin].
      * destruct (decide (k ∈ k' :: m.*1)) as [_|Hnin]; [done |].
        exfalso. apply Hnin, elem_of_cons. by right.
      * destruct (decide (k ∈ k' :: m.*1)) as [Hin|_]; [| done].
        apply elem_of_cons in Hin as [?|?]; done.
Qed.

Lemma Map_set_elem m k v k' v' :
  NoDup m.*1 ->
  (k', v') ∈ Map_set k v m <->
  (k' = k /\ v' = v) \/ (k' <> k /\ (k', v') ∈ m).
Proof.
  induction m as [|[k0 v0] m IH]; simpl; intros Hnd.
  - rewrite list_elem_of_singleton. split.
    + intros [= -> ->]. by left.
    + intros [[-> ->] | [_ Hin]]; [done |]. by apply not_elem_of_nil in Hin.
  - apply NoDup_cons in Hnd as [Hk0 Hnd].
    destruct (decide (k = k0)) as [->|Hne].
    + rewrite !elem_of_cons. split.
      * intros [[= -> ->] | Hin]; [by left |]. right.
        split; [| by right]. intros ->. apply Hk0.
        apply list_elem_of_fmap. by exists (k0, v').
      * intros [[-> ->] | [Hne [[= ? ?] | Hin]]]; [by left | done | by right].
    + rewrite !elem_of_cons, (IH Hnd). split.
      * intros [[= -> ->] | [[-> ->] | [Hne' Hin]]].
        -- right. split; [congruence | by left].
        -- by left.
        -- right. split; [done | by right].
      * intros [[-> ->] | [Hne' [[= -> ->] | Hin]]].
        -- right. by left.
        -- by left.
        -- right. right. by split.
Qed.

End MapFacts.

Section FirstOccurrences.
Context {K : Type} `{EqDecision K}.
Implicit Types (l : list K).

Lemma elem_of_first_occurrences l x : x ∈ first_occurrences l <-> x ∈ l.
Proof.
  induction l as [|y l IH]; simpl; [done |].
  rewrite !elem_of_cons, list_elem_of_filter, IH.
  destruct (decide (x = y)); tauto.
Qed.

Lemma NoDup_first_occurrences l : NoDup (first_occurrences l).
Proof.
  induction l as [|y l IH]; simpl; [constructor |].
  apply NoDup_cons. split.
  - rewrite list_elem_of_filter. tauto.
  - by apply NoDup_filter.
Qed.

Lemma first_occurrences_snoc l x :
  first_occurrences (l ++ [x]) =
  if decide (x ∈ l) then first_occurrences l else first_occurrences l ++ [x].
Proof.
  induction l as [|y l IH].
  - destruct (decide (x ∈ [])) as [Hin|_]; [| done].
    by apply not_elem_of_nil in Hin.
  - change (first_occurrences ((y :: l) ++ [x]))
      with (y :: filter (fun z => z <> y) (first_occurrences (l ++ [x]))).
    change (first_occurrences (y :: l))
      with (y :: filter (fun z => z <> y) (first_occurrences l)).
    rewrite IH. destruct (decide (x ∈ l)) as [Hin|Hnin].
    + destruct (decide (x ∈ y :: l)) as [_|Hn]; [done |].
      exfalso. apply Hn, elem_of_cons. by right.
    + rewrite filter_app. destruct (decide (x = y)) as [->|Hne].
      * destruct (decide (y ∈ y :: l)) as [_|Hn].
        -- rewrite filter_singleton_False by (tauto || exact []).
           by rewrite app_nil_r.
        -- exfalso. apply Hn, elem_of_cons. by left.
      * destruct (decide (x ∈ y :: l)) as [Hin|_].
        -- apply elem_of_cons in Hin as [?|?]; done.
        -- by rewrite filter_singleton_True by (done || exact []).
Qed.

End FirstOccurrences.

Section MapOf.
Context {K V : Type} `{EqDecision K}.
Implicit Types (l : list (K * V)).

(** The keys of [new Map(entries)]: the distinct keys of the entries, in
    the order of their first occurrences. *)
Lemma Map_of_keys l : (Map_of l).*1 = first_occurrences l.*1.
Proof.
  induction l as [|[k v] l IH] using rev_ind; [done |].
  rewrite Map_of_snoc, Map_set_keys, fmap_app, IH.
  change ([(k, v)].*1) with [k]. rewrite first_occurrences_snoc.
  destruct (decide (k ∈ l.*1)) as [Hin|Hnin];
    destruct (decide (k ∈ first_occurrences l.*1)) as [Hin'|Hnin'];
    try done; rewrite elem_of_first_occurrences in *; done.
Qed.

Lemma Map_of_NoDup l : NoDup (Map_of l).*1.
Proof. rewrite Map_of_keys. apply NoDup_first_occurrences. Qed.

(** The value of a key in [new Map(entries)] comes from the last entry
    with that key. *)
Lemma Map_of_last l k v :
  (k, v) ∈ Map_of l <-> last (filter (fun e => e.1 = k) l) = Some (k, v).
Proof.
  revert k v. induction l as [|[k0 v0] l IH] using rev_ind; intros k v.
  - simpl. split; [intros Hin; by apply not_elem_of_nil in Hin | done].
  - rewrite Map_of_snoc, (Map_set_elem _ _ _ _ _ (Map_of_NoDup l)).
    rewrite filter_app, IH. destruct (decide (k = k0)) as [->|Hne].
    + rewrite filter_singleton_True by (done || exact []).
      rewrite last_snoc. split.
      * intros [[_ ->] | [? _]]; done.
      * intros [= ->]. by left.
    + rewrite filter_singleton_False by (simpl; congruence || exact []).
      rewrite app_nil_r. split.
      * intros [[? _] | [_ ?]]; done.
      * intros ?. by right.
Qed.

End MapOf.

(** ** The search mode of [continueChatStream] *)

Section SearchMode.

Implicit Types (resp : ResponseStream) (ws : list WebSource).

Lemma filter_entries ws (u : option jsstring) :
  filter (fun e : option jsstring * WebSource => e.1 = u)
         (map (fun item => (uri item, item)) ws)
  = map (fun item => (uri item, item)) (filter (fun x => uri x = u) ws).
Proof.
  induction ws as [|w ws IH]; [done |].
  rewrite map_cons, !filter_cons. simpl. rewrite IH.
  by destruct (decide (uri w = u)).
Qed.

(** An entry of the map is filed under the uri of its own value. *)
Lemma Map_of_entries_key ws (k : option jsstring) (w : WebSource) :
  (k, w) ∈ Map_of (map (fun item => (uri item, item)) ws) -> k = uri w.
Proof.
  intros Hin%Map_of_last. apply last_Some_elem_of in Hin.
  apply list_elem_of_filter in Hin as [_ Hin].
  apply list_elem_of_fmap in Hin as (x & [= -> ->] & _). done.
Qed.

(** One source is kept for each uri, at the place where the uri first
    occurs. *)
Lemma uniqueWebSources_uris ws :
  map uri (uniqueWebSources ws) = first_occurrences (map uri ws).
Proof.
  unfold uniqueWebSources, Map_values.
  assert ((map (fun item => (uri item, item)) ws).*1 = map uri ws) as <-.
  { induction ws as [|w ws IH]; [done |]. simpl. f_equal. apply IH. }
  rewrite <- Map_of_keys.
  pose proof (Map_of_entries_key ws) as Hkey.
  induction (Map_of _) as [|[k w] m IH]; [done |].
  simpl. f_equal.
  - symmetry. apply Hkey. by left.
  - apply IH. intros k' w' Hin. apply Hkey. by right.
Qed.

(** The source kept for a uri is the last one collected for it. *)
Lemma uniqueWebSources_last ws (w : WebSource) :
  w ∈ uniqueWebSources ws <->
  last (filter (fun x => uri x = uri w) ws) = Some w.
Proof.
  unfold uniqueWebSources, Map_values.
  rewrite list_elem_of_fmap. split.
  - intros ([k w'] & -> & Hin). simpl.
    pose proof (Map_of_entries_key _ _ _ Hin) as ->.
    apply Map_of_last in Hin. rewrite filter_entries in Hin.
    change (map ?f ?l) with (f <$> l) in Hin. rewrite fmap_last in Hin.
    destruct (last _) as [x|]; [| done]. by injection Hin as _ ->.
  - intros Hlast. exists (uri w, w). split; [done |].
    apply Map_of_last. rewrite filter_entries.
    change (map ?f ?l) with (f <$> l). by rewrite fmap_last, Hlast.
Qed.

(** A collected source without a title of its own is titled by its uri. *)
Lemma collected_title chunk (w : WebSource) :
  w ∈ webSources_of_chunk chunk ->
  truthy_opt (title w) = true \/ title w = uri w.
Proof.
  unfold webSources_of_chunk. destruct (groundingChunks chunk) as [gs|].
  - intros (g & _ & Hg)%list_elem_of_omap.
    destruct (web g) as [gw|]; [| done]. injection Hg as <-. simpl.
    unfold or_else. destruct (truthy_opt (web_title gw)) eqn:E; auto.
  - intros Hin. by apply not_elem_of_nil in Hin.
Qed.

Lemma yielded_search req cs tail :
  omap (fun x => match x with Yield e => Some e | _ => None end)
    (Request req ::
     flat_map (fun chunk =>
                 Receive chunk ::
                 (if truthy_opt (chunk_text chunk)
                  then [Yield (text_event (chunk_text chunk))] else [])) cs
     ++ tail)
  = forwardedTexts cs
    ++ omap (fun x => match x with Yield e => Some e | _ => None end) tail.
Proof.
  simpl. induction cs as [|c cs IH]; [done |].
  simpl. unfold forwardedTexts. simpl.
  destruct (truthy_opt (chunk_text c)); simpl; by rewrite IH.
Qed.

(** In the search mode the texts are forwarded as they arrive; once the
    stream has ended, the deduplicated web sources are yielded in one last
    event, unless there are none. *)
Lemma search_completed resp notes question history :
  fails resp = false ->
  let run := continueChatStream (replying resp) notes question history true in
  let unique :=
    uniqueWebSources (flat_map webSources_of_chunk (chunks resp)) in
  yielded run =
    forwardedTexts (chunks resp)
    ++ match unique with [] => [] | _ => [webSources_event unique] end /\
  threw run = false.
Proof.
  intros Hok. cbv zeta.
  unfold continueChatStream, searchRun, replying. rewrite Hok.
  split; [| done]. unfold yielded. cbn [steps].
  rewrite yielded_search. f_equal.
  by destruct (uniqueWebSources _).
Qed.

End SearchMode.

(** C5, as amended.  In the search mode, once the stream has ended, the web
    sources collected from the grounding metadata of all chunks (a source
    without a non-empty title being titled by its uri) are deduplicated by
    uri: one source is kept for each uri, at the place of the first
    occurrence of the uri, and it is the last source collected for that uri.
    One last event carrying the deduplicated list is yielded exactly when
    the list is not empty.  For two chunks that reference "https://a.com"
    with the titles "A" and then "", the deduplicated list is the single
    source whose uri and title are both "https://a.com". *)
Theorem C5_web_sources_last_wins resp notes question history :
  fails resp = false ->
  let run := continueChatStream (replying resp) notes question history true in
  let collected := flat_map webSources_of_chunk (chunks resp) in
  let unique := uniqueWebSources collected in
  (forall w, w ∈ collected -> truthy_opt (title w) = true \/ title w = uri w) /\
  map uri unique = first_occurrences (map uri collected) /\
  (forall w, w ∈ unique <->
             last (filter (fun x => uri x = uri w) collected) = Some w) /\
  yielded run =
    forwardedTexts (chunks resp)
    ++ match unique with [] => [] | _ => [webSources_event unique] end /\
  threw run = false /\
  uniqueWebSources (flat_map webSources_of_chunk (chunks twiceGrounded))
  = [{| uri := Some (js "https://a.com"); title := Some (js "https://a.com") |}].
Proof.
  intros Hok. cbv zeta.
  destruct (search_completed resp notes question history Hok) as [Hy Hthrew].
  cbv zeta in *. repeat split.
  - intros w Hin. apply list_elem_of_In, in_flat_map in Hin as (c & _ & Hin).
    apply list_elem_of_In in Hin. by apply (collected_title c).
  - apply uniqueWebSources_uris.
  - by apply uniqueWebSources_last.
  - by apply uniqueWebSources_last.
  - exact Hy.
  - exact Hthrew.
Qed.

Lemma C5_web_sources_last_wins_witness :
  fails twiceGrounded = false /\
  yielded (continueChatStream (replying twiceGrounded) [] (js "news?") [] true)
  = [webSources_event
       [{| uri := Some (js "https://a.com");
           title := Some (js "https://a.com") |}]].
Proof.
  split; [reflexivity |].
  apply (C5_web_sources_last_wins twiceGrounded [] (js "news?") []).
  reflexivity.
Defined.

(** C5 as stated fails: for the two chunks of the example the deduplicated
    list is not the source titled "A". *)
Lemma C5_first_title_refuted :
  uniqueWebSources (flat_map webSources_of_chunk (chunks twiceGrounded))
  <> [{| uri := Some (js "https://a.com"); title := Some (js "A") |}].
Proof. vm_compute. discriminate. Qed.

(** ** [Array.prototype.sort] and the comparator of the Today view *)

Section SortFacts.
Context {A : Type} (compareFn : A -> A -> Z).

Lemma insert_Permutation x (l : list A) : insert compareFn x l ≡ₚ x :: l.
Proof.
  induction l as [|y l IH]; simpl; [done |].
  destruct (0 <? compareFn x y)%Z; [| done].
  rewrite IH. apply Permutation_swap.
Qed.

Lemma sort_Permutation (l : list A) : sort compareFn l ≡ₚ l.
Proof.
  induction l as [|x l IH]; simpl; [done |].
  by rewrite insert_Permutation, IH.
Qed.

(** With a comparator that never puts two elements each after the other,
    every element of the result is followed by one that does not go
    before it. *)
Hypothesis compareFn_asym :
  forall x y, (0 < compareFn x y)%Z -> (compareFn y x <= 0)%Z.

Lemma insert_Sorted x (l : list A) :
  Sorted (fun a b => (compareFn a b <= 0)%Z) l ->
  Sorted (fun a b => (compareFn a b <= 0)%Z) (insert compareFn x l).
Proof.
  induction l as [|y l IH]; simpl; intros Hs.
  - repeat constructor.
  - destruct (0 <? compareFn x y)%Z eqn:E.
    + apply Z.ltb_lt in E. apply Sorted_inv in Hs as [Hs Hhd].
      constructor; [by apply IH |].
      destruct l as [|z l]; simpl.
      * constructor. by apply compareFn_asym.
      * destruct (0 <? compareFn x z)%Z.
        -- constructor. by apply HdRel_inv in Hhd.
        -- constructor. by apply compareFn_asym.
    + apply Z.ltb_ge in E. constructor; [done |]. by constructor.
Qed.

Lemma sort_Sorted (l : list A) :
  Sorted (fun a b => (compareFn a b <= 0)%Z) (sort compareFn l).
Proof.
  induction l as [|x l IH]; simpl; [constructor | by apply insert_Sorted].
Qed.

End SortFacts.

Section CompareByTime.
Variable localeCompare : jsstring -> jsstring -> Z.
Implicit Types (e x y : TodaysActionItem) (l : list TodaysActionItem).

Local Abbreviation cmp := (compareByTime localeCompare).

Lemma compareByTime_timed x y :
  hasTime x = true -> hasTime y = true ->
  cmp x y = localeCompare (timeOf x) (timeOf y).
Proof. unfold compareByTime, hasTime. by intros -> ->. Qed.

Lemma compareByTime_timed_untimed x y :
  hasTime x = true -> hasTime y = false -> cmp x y = (-1)%Z.
Proof. unfold compareByTime, hasTime. by intros -> ->. Qed.

Lemma compareByTime_untimed_timed x y :
  hasTime x = false -> hasTime y = true -> cmp x y = 1%Z.
Proof. unfold compareByTime, hasTime. by intros -> ->. Qed.

Lemma compareByTime_untimed x y :
  hasTime x = false -> hasTime y = false -> cmp x y = 0%Z.
Proof. unfold compareByTime, hasTime. by intros -> ->. Qed.

Lemma compareByTime_asym :
  (forall s t, (0 < localeCompare s t)%Z -> (localeCompare t s <= 0)%Z) ->
  forall x y, (0 < cmp x y)%Z -> (cmp y x <= 0)%Z.
Proof.
  intros Hasym x y.
  destruct (hasTime x) eqn:Hx, (hasTime y) eqn:Hy.
  - rewrite !compareByTime_timed by done. apply Hasym.
  - rewrite compareByTime_timed_untimed by done. lia.
  - rewrite (compareByTime_timed_untimed y x) by done. lia.
  - rewrite !compareByTime_untimed by done. lia.
Qed.

(** A timed entry is inserted among the timed ones. *)
Lemma insert_timed x (ts us : list TodaysActionItem) :
  hasTime x = true ->
  Forall (fun e => hasTime e = false) us ->
  insert cmp x (ts ++ us) = insert cmp x ts ++ us.
Proof.
  intros Hx Hus. induction ts as [|y ts IH]; simpl.
  - destruct us as [|u us]; simpl; [done |].
    apply Forall_cons in Hus as [Hu _].
    by rewrite compareByTime_timed_untimed.
  - destruct (0 <? cmp x y)%Z; [| done]. simpl. by rewrite IH.
Qed.

(** An entry without a time goes behind all the timed ones and before the
    other entries without a time. *)
Lemma insert_untimed x (ts us : list TodaysActionItem) :
  hasTime x = false ->
  Forall (fun e => hasTime e = true) ts ->
  Forall (fun e => hasTime e = false) us ->
  insert cmp x (ts ++ us) = ts ++ x :: us.
Proof.
  intros Hx Hts Hus. induction ts as [|y ts IH]; simpl.
  - destruct us as [|u us]; simpl; [done |].
    apply Forall_cons in Hus as [Hu _].
    by rewrite compareByTime_untimed.
  - apply Forall_cons in Hts as [Hy Hts].
    rewrite compareByTime_untimed_timed by done. simpl. by rewrite IH.
Qed.

(** The sorted list: the timed entries, sorted, and then the entries
    without a time in their former order. *)
Lemma sort_by_time l :
  sort cmp l =
  sort cmp (filter (fun e => hasTime e = true) l)
  ++ filter (fun e => hasTime e = false) l.
Proof.
  induction l as [|x l IH]; [done |].
  assert (Forall (fun e => hasTime e = true)
            (sort cmp (filter (fun e => hasTime e = true) l))) as Hts.
  { apply Forall_forall. intros e He.
    rewrite sort_Permutation in He. by apply list_elem_of_filter in He as [? _]. }
  assert (Forall (fun e => hasTime e = false)
            (filter (fun e => hasTime e = false) l)) as Hus.
  { apply Forall_forall. intros e He.
    by apply list_elem_of_filter in He as [? _]. }
  change (sort cmp (x :: l)) with (insert cmp x (sort cmp l)). rewrite IH.
  rewrite !filter_cons. destruct (hasTime x) eqn:Hx.
  - rewrite decide_True, decide_False by done.
    by rewrite insert_timed.
  - rewrite decide_False, decide_True by done.
    by rewrite insert_untimed.
Qed.

End CompareByTime.

Lemma codeUnitCompare_asym x y :
  (0 < codeUnitCompare x y)%Z -> (codeUnitCompare y x <= 0)%Z.
Proof.
  revert y. induction x as [|a x IH]; intros [|b y]; simpl; try lia.
  destruct (a <? b)%N eqn:Eab, (b <? a)%N eqn:Eba; try lia.
  apply IH.
Qed.

(** ** The Today aggregator *)

Section Today.
Variable localeCompare : jsstring -> jsstring -> Z.
Implicit Types (e : TodaysActionItem) (note : ProcessedNoteWithId).

Lemma localTodayStr_truthy today : truthy_string (localTodayStr today) = true.
Proof.
  unfold localTodayStr. cbv zeta.
  by destruct (toString (getFullYear today)).
Qed.

(** The test on the due date is string equality with the local date. *)
Lemma isActionItemForToday_true today d :
  isActionItemForToday today d = true <-> d = localTodayStr today.
Proof.
  unfold isActionItemForToday. destruct (truthy_string d) eqn:E; simpl.
  - apply bool_decide_eq_true.
  - split; [done |]. intros ->. by rewrite localTodayStr_truthy in E.
Qed.

Lemma elem_of_todaysItems_of_note today note e :
  e ∈ todaysItems_of_note today note <->
  exists items,
    actionItems note = Some items /\
    items !! itemIndex e = Some (item e) /\
    dueDate (item e) = localTodayStr today /\
    completed (item e) = false /\
    noteId e = note_id note /\
    noteTitle e = noteTitle_of (refinedNote note).
Proof.
  unfold todaysItems_of_note. destruct (actionItems note) as [items|].
  - rewrite list_elem_of_omap. split.
    + intros (x & Hx & Hid). simpl in Hid. subst x.
      apply elem_of_lookup_imap in Hx as (i & it & Hf & Hit).
      destruct (isActionItemForToday today (dueDate it)) eqn:Hdue; [| done].
      destruct (completed it) eqn:Hc; [done |]. simpl in Hf.
      injection Hf as ->. simpl. exists items.
      apply isActionItemForToday_true in Hdue. done.
    + intros (items' & [= <-] & Hit & Hdue & Hc & Hid & Htitle).
      exists (Some e). split; [| done].
      apply elem_of_lookup_imap. exists (itemIndex e), (item e).
      split; [| done].
      apply isActionItemForToday_true in Hdue. rewrite Hdue, Hc. simpl.
      f_equal. destruct e; simpl in *; by subst.
  - split.
    + intros Hin. by apply not_elem_of_nil in Hin.
    + by intros (items & ? & _).
Qed.

(** What the aggregator returns: the open items due today. *)
Lemma elem_of_getTodaysActionItemsFromNotes today notes e :
  e ∈ getTodaysActionItemsFromNotes localeCompare today notes <->
  exists note items,
    note ∈ notes /\
    actionItems note = Some items /\
    items !! itemIndex e = Some (item e) /\
    dueDate (item e) = localTodayStr today /\
    completed (item e) = false /\
    noteId e = note_id note /\
    noteTitle e = noteTitle_of (refinedNote note).
Proof.
  unfold getTodaysActionItemsFromNotes. cbv zeta.
  rewrite sort_Permutation, list_elem_of_In, in_flat_map. split.
  - intros (note & Hnote & Hin). apply list_elem_of_In in Hnote, Hin.
    apply elem_of_todaysItems_of_note in Hin as (items & H).
    by exists note, items.
  - intros (note & items & Hnote & H). exists note.
    rewrite <- !list_elem_of_In. split; [done |].
    apply elem_of_todaysItems_of_note. by exists items.
Qed.

Lemma Sorted_timed (l : list TodaysActionItem) :
  Forall (fun e => hasTime e = true) l ->
  Sorted (fun a b => (compareByTime localeCompare a b <= 0)%Z) l ->
  Sorted (fun a b => (localeCompare (timeOf a) (timeOf b) <= 0)%Z) l.
Proof.
  induction l as [|x l IH]; intros Hall Hs; [constructor |].
  apply Forall_cons in Hall as [Hx Hall].
  apply Sorted_inv in Hs as [Hs Hhd].
  constructor; [by apply IH |].
  destruct l as [|y l]; constructor.
  apply HdRel_inv in Hhd. apply Forall_cons in Hall as [Hy _].
  by rewrite compareByTime_timed in Hhd.
Qed.

(** The example, before the comparison of 09:00 with 08:00 is decided. *)
Lemma example_sorted :
  getTodaysActionItemsFromNotes localeCompare exampleDay [exampleNote] =
  if (0 <? localeCompare (js "09:00") (js "08:00"))%Z
  then [exampleEntry 2 (Some (js "08:00")); exampleEntry 0 (Some (js "09:00"));
        exampleEntry 1 None]
  else [exampleEntry 0 (Some (js "09:00")); exampleEntry 2 (Some (js "08:00"));
        exampleEntry 1 None].
Proof.
  unfold getTodaysActionItemsFromNotes. cbv zeta.
  assert (flat_map (todaysItems_of_note exampleDay) [exampleNote] =
          [exampleEntry 0 (Some (js "09:00")); exampleEntry 1 None;
           exampleEntry 2 (Some (js "08:00"))]) as ->
    by (vm_compute; reflexivity).
  cbn [sort foldr insert].
  rewrite (compareByTime_untimed_timed localeCompare
             (exampleEntry 1 None) (exampleEntry 2 (Some (js "08:00"))))
    by reflexivity.
  change (0 <? 1)%Z with true. cbn iota. cbn [insert].
  rewrite (compareByTime_timed localeCompare
             (exampleEntry 0 (Some (js "09:00")))
             (exampleEntry 2 (Some (js "08:00")))) by reflexivity.
  change (timeOf (exampleEntry 0 (Some (js "09:00")))) with (js "09:00").
  change (timeOf (exampleEntry 2 (Some (js "08:00")))) with (js "08:00").
  destruct (0 <? localeCompare (js "09:00") (js "08:00"))%Z; [| done].
  cbn [insert].
  rewrite (compareByTime_timed_untimed localeCompare
             (exampleEntry 0 (Some (js "09:00"))) (exampleEntry 1 None))
    by reflexivity.
  done.
Qed.

End Today.

(** C6, as amended.  The Today aggregator returns an action item exactly
    when its due date is string-equal to the caller's local date written
    YYYY-MM-DD and it is not completed.  The items with a time come first,
    in ascending order of time, and the items without a time (absent or
    empty) come after them; for open items due today at 09:00, without a
    time and at 08:00 the order produced is 08:00, 09:00, no time.  The
    comparison of times is the runtime's, assumed consistent. *)
Theorem C6_today_timed_first
    (localeCompare : jsstring -> jsstring -> Z) today notes :
  (forall s t, (0 < localeCompare s t)%Z -> (localeCompare t s <= 0)%Z) ->
  (0 < localeCompare (js "09:00") (js "08:00"))%Z ->
  let result := getTodaysActionItemsFromNotes localeCompare today notes in
  (forall e,
     e ∈ result <->
     exists note items,
       note ∈ notes /\
       actionItems note = Some items /\
       items !! itemIndex e = Some (item e) /\
       dueDate (item e) = localTodayStr today /\
       completed (item e) = false /\
       noteId e = note_id note /\
       noteTitle e = noteTitle_of (refinedNote note)) /\
  (exists timed untimed,
     result = timed ++ untimed /\
     Forall (fun e => hasTime e = true) timed /\
     Forall (fun e => hasTime e = false) untimed /\
     Sorted (fun a b => (localeCompare (timeOf a) (timeOf b) <= 0)%Z) timed) /\
  map (fun e => time (item e))
      (getTodaysActionItemsFromNotes localeCompare exampleDay [exampleNote])
  = [Some (js "08:00"); Some (js "09:00"); None].
Proof.
  intros Hasym H0908. cbv zeta. split; [| split].
  - intros e. apply elem_of_getTodaysActionItemsFromNotes.
  - unfold getTodaysActionItemsFromNotes. cbv zeta.
    set (todaysItems := flat_map _ notes).
    exists (sort (compareByTime localeCompare)
              (filter (fun e => hasTime e = true) todaysItems)),
           (filter (fun e => hasTime e = false) todaysItems).
    assert (Forall (fun e => hasTime e = true)
              (sort (compareByTime localeCompare)
                 (filter (fun e => hasTime e = true) todaysItems))) as Hts.
    { apply Forall_forall. intros e He. rewrite sort_Permutation in He.
      by apply list_elem_of_filter in He as [? _]. }
    split; [apply sort_by_time |]. split; [exact Hts |]. split.
    + apply Forall_forall. intros e He.
      by apply list_elem_of_filter in He as [? _].
    + apply Sorted_timed; [exact Hts |].
      apply sort_Sorted, compareByTime_asym, Hasym.
  - apply Z.ltb_lt in H0908. by rewrite example_sorted, H0908.
Qed.

Lemma C6_today_timed_first_witness :
  (forall s t, (0 < codeUnitCompare s t)%Z -> (codeUnitCompare t s <= 0)%Z) /\
  (0 < codeUnitCompare (js "09:00") (js "08:00"))%Z /\
  map (fun e => time (item e))
      (getTodaysActionItemsFromNotes codeUnitCompare exampleDay [exampleNote])
  = [Some (js "08:00"); Some (js "09:00"); None].
Proof.
  split; [exact codeUnitCompare_asym |]. split; [reflexivity |].
  destruct (C6_today_timed_first codeUnitCompare exampleDay [exampleNote]
              codeUnitCompare_asym eq_refl) as (_ & _ & Hex).
  exact Hex.
Defined.

(** C6 as stated fails: whatever the comparison of times, the item without
    a time is not put first in the example. *)
Lemma C6_untimed_first_refuted :
  ~ exists localeCompare,
      map (fun e => time (item e))
          (getTodaysActionItemsFromNotes localeCompare exampleDay [exampleNote])
      = [None; Some (js "08:00"); Some (js "09:00")].
Proof.
  intros [localeCompare H]. rewrite example_sorted in H.
  destruct (0 <? localeCompare _ _)%Z; discriminate.
Qed.

(** ** The store of message arrays *)

Section Store.
Implicit Types (h ext : store) (a b : list ChatMessage) (r : loc).

Lemma read_app_l h ext r : r < length h -> read (h ++ ext) r = read h r.
Proof. intros Hr. unfold read. by rewrite lookup_app_l. Qed.

Lemma read_app_new h a ext : read (h ++ a :: ext) (length h) = a.
Proof. unfold read. by rewrite list_lookup_middle. Qed.

Lemma insert_app_new h a b : <[length h := b]> (h ++ [a]) = h ++ [b].
Proof. by rewrite insert_app_r_alt, Nat.sub_diag. Qed.

Lemma insert_last_of_three (old : list ChatMessage) (u m m' : ChatMessage) :
  <[length (old ++ [u; m]) - 1 := m']> (old ++ [u; m]) = old ++ [u; m'].
Proof.
  rewrite length_app. simpl.
  rewrite insert_app_r_alt by lia.
  by replace (length old + 2 - 1 - length old) with 1 by lia.
Qed.

Lemma lookup_last_of_three (old : list ChatMessage) (u m : ChatMessage) :
  (old ++ [u; m]) !! (length (old ++ [u; m]) - 1) = Some m.
Proof.
  rewrite length_app. simpl.
  rewrite lookup_app_r by lia.
  by replace (length old + 2 - 1 - length old) with 1 by lia.
Qed.

Lemma slice_last_of_three (old : list ChatMessage) (u m : ChatMessage) :
  slice_0_m1 (old ++ [u; m]) = old ++ [u].
Proof.
  unfold slice_0_m1. rewrite length_app. simpl.
  replace (length old + 2 - 1) with (length (old ++ [u])).
  - change (old ++ [u; m]) with (old ++ [u] ++ [m]).
    rewrite app_assoc. apply take_app_length.
  - rewrite length_app. simpl. lia.
Qed.

End Store.

(** ** The loop of [handleSubmit] *)

Section Loop.
Implicit Types (h : store) (w : Working) (events : list StreamEvent).

Lemma optimistic_eq h session0 q :
  messages session0 < length h ->
  optimistic h session0 q =
  {| w_store := h ++ [read h (messages session0) ++ [userMessage_of q];
                      read h (messages session0)
                      ++ [userMessage_of q; placeholderMessage]];
     w_shown := with_messages session0 (S (length h));
     w_currentMessages := S (length h);
     w_isFirstMessage := Nat.eqb (length (read h (messages session0))) 0;
     w_collected := {| fullAnswer := []; collectedSources := JArray [];
                       collectedWebSources := [] |} |}.
Proof.
  intros Hr. unfold optimistic, alloc.
  rewrite (read_app_l h _ _ Hr), read_app_new.
  rewrite length_app, Nat.add_1_r. simpl length.
  by rewrite <- !app_assoc.
Qed.

Lemma underWay_optimistic h session0 q :
  messages session0 < length h ->
  underWay h session0 q (optimistic h session0 q).
Proof.
  intros Hr. rewrite optimistic_eq by done. unfold underWay. cbv zeta.
  cbn [w_store w_shown w_currentMessages w_isFirstMessage].
  split; [exists []; by rewrite app_nil_r |]. split; [done |].
  split; [done |]. split.
  - exists (S (length h)). split; [done |]. rewrite length_app. simpl. lia.
  - exists placeholderMessage, {| answer := []; sources := JArray [];
                                  webSources := None |}.
    split; [| done]. unfold shownMessages. simpl.
    change (h ++ [?a; ?b]) with (h ++ [a] ++ [b]).
    rewrite app_assoc.
    replace (S (length h)) with (length (h ++ [read h (messages session0)
                                               ++ [userMessage_of q]])).
    + apply read_app_new.
    + rewrite length_app. simpl. lia.
Qed.

(** One iteration copies the list on display and rewrites its last
    message; everything else stays as it was. *)
Lemma underWay_onChunk h session0 q w chunk :
  underWay h session0 q w -> underWay h session0 q (onChunk w chunk).
Proof.
  unfold underWay. cbv zeta.
  intros ([ext Hst] & Hcur & Hfirst & (r & Hshown & Hr) & (m & c & Hmsgs & Hrole & Hc)).
  unfold onChunk, updateLast, alloc.
  unfold shownMessages in Hmsgs.
  rewrite read_app_new, Hmsgs, lookup_last_of_three, Hrole, Hc.
  rewrite insert_last_of_three, insert_app_new.
  set (m' := {| role := model; content := _ |}).
  cbn [w_store w_shown w_currentMessages w_isFirstMessage].
  split; [| split; [done | split; [done | split]]].
  - exists (ext ++ [read h (messages session0) ++ [userMessage_of q; m']]).
    rewrite Hst. by rewrite <- !app_assoc.
  - exists (length (w_store w)). rewrite Hshown. split; [done |].
    rewrite length_app. simpl. lia.
  - exists m', (match content m' with CObject c' => c' | _ => c end).
    split; [| done].
    unfold shownMessages. cbn [w_store w_shown]. rewrite Hshown.
    cbn [messages with_messages]. apply read_app_new.
Qed.

Lemma underWay_consume h session0 q events w :
  underWay h session0 q w -> underWay h session0 q (consume events w).
Proof.
  revert w. induction events as [|chunk events IH]; intros w Hw; [done |].
  apply IH. by apply underWay_onChunk.
Qed.

Lemma collected_onChunk w chunk :
  w_collected (onChunk w chunk) = collect (w_collected w) chunk.
Proof. unfold onChunk. by destruct (updateLast _ _ _). Qed.

Lemma collected_consume events w :
  w_collected (consume events w) = fold_left collect events (w_collected w).
Proof.
  revert w. induction events as [|chunk events IH]; intros w; [done |].
  simpl. by rewrite IH, collected_onChunk.
Qed.

Lemma omap_cons {A B} (f : A -> option B) (x : A) (l : list A) :
  omap f (x :: l) =
  match f x with Some y => y :: omap f l | None => omap f l end.
Proof. done. Qed.

(** The local variables after the loop, in terms of the events. *)
Lemma fold_collect events (acc : Collected) :
  fold_left collect events acc =
  {| fullAnswer := fullAnswer acc ++ assembledAnswer events;
     collectedSources :=
       default (collectedSources acc)
         (last (filter (fun v => JSON.truthy v = true)
                  (omap ev_sources events)));
     collectedWebSources :=
       default (collectedWebSources acc) (last (omap ev_webSources events)) |}.
Proof.
  revert acc. induction events as [|e events IH]; intros acc.
  - simpl. unfold assembledAnswer. simpl. rewrite app_nil_r. by destruct acc.
  - cbn [fold_left]. rewrite IH. unfold collect, assembledAnswer.
    cbn [fullAnswer collectedSources collectedWebSources].
    rewrite !omap_cons. f_equal.
    + destruct (ev_text e) as [[|c t]|]; cbn [truthy_opt truthy_string default].
      * done.
      * by rewrite <- app_assoc.
      * done.
    + destruct (ev_sources e) as [v|]; [| done].
      rewrite filter_cons. destruct (JSON.truthy v) eqn:Ev.
      * rewrite decide_True by done. rewrite last_cons.
        by destruct (last _).
      * case_decide; [discriminate | reflexivity].
    + destruct (ev_webSources e) as [ws|]; [| done].
      rewrite last_cons. by destruct (last (omap ev_webSources events)).
Qed.

Lemma collected_after_loop h session0 q events :
  w_collected (consume events (optimistic h session0 q)) =
  {| fullAnswer := assembledAnswer events;
     collectedSources := assembledSources events;
     collectedWebSources := assembledWebSources events |}.
Proof.
  rewrite collected_consume, fold_collect.
  unfold optimistic, alloc. done.
Qed.

End Loop.

(** ** The two ways out of [handleSubmit] *)

Section Exchange.
Variable generateContentStream : GenerateRequest -> ResponseStream.
Implicit Types (h : store) (st : ViewState)
  (allNotes : list ProcessedNoteWithId).

Local Abbreviation run := (handleSubmit generateContentStream).
Local Abbreviation stream := (streamOf generateContentStream).

(** The generator is given the context notes, the question and the
    messages of the session as they were before the exchange. *)
Lemma streamOf_eq allNotes h st :
  messages (session st) < length h ->
  stream allNotes h st =
  continueChatStream generateContentStream
    (contextNotes_of allNotes (session st)) (question st)
    (read h (messages (session st))) (useGoogleSearch st).
Proof.
  intros Hr. unfold streamOf. cbv zeta. rewrite optimistic_eq by done.
  cbn [w_store]. by rewrite read_app_l.
Qed.

Lemma handleSubmit_rejected allNotes h st :
  isStreaming st = true \/ truthy_string (trim (question st)) = false ->
  run allNotes h st = {| out_store := h; out_state := st; effects := [] |}.
Proof.
  intros Hrej. unfold handleSubmit.
  destruct Hrej as [-> | ->]; [done |]. by rewrite orb_true_r.
Qed.

(** When the stream ends normally: the final session is built from the
    local copy of the messages and handed over once. *)
Lemma handleSubmit_commits allNotes h st :
  messages (session st) < length h ->
  isStreaming st = false ->
  truthy_string (trim (question st)) = true ->
  threw (stream allNotes h st) = false ->
  exists ext r,
    run allNotes h st =
    {| out_store := h ++ ext;
       out_state := {| session := finalSession_at h st r;
                       question := [];
                       isStreaming := false;
                       error := None;
                       useGoogleSearch := useGoogleSearch st |};
       effects := streamCall allNotes st
                  :: map Generator (steps (stream allNotes h st))
                  ++ [StreamDone; SessionUpdate (finalSession_at h st r)] |}
    /\ read (h ++ ext) r =
       read h (messages (session st))
       ++ [userMessage_of (question st);
           assembledMessage (yielded (stream allNotes h st))].
Proof.
  intros Hr Hidle Hq Hok.
  pose proof (underWay_consume h (session st) (question st)
                (yielded (stream allNotes h st))
                _ (underWay_optimistic h (session st) (question st) Hr))
    as Hw.
  pose proof (collected_after_loop h (session st) (question st)
                (yielded (stream allNotes h st))) as Hacc.
  unfold handleSubmit. rewrite Hidle, Hq. cbn [negb orb]. cbv zeta.
  rewrite Hok.
  set (w := consume _ _) in *.
  destruct Hw as ([ext Hst] & Hcur & Hfirst & _ & _). cbv zeta in *.
  unfold commit, alloc. rewrite Hcur, Hfirst, Hacc.
  cbn [fullAnswer collectedSources collectedWebSources].
  assert (read (w_store w) (S (length h)) =
          read h (messages (session st))
          ++ [userMessage_of (question st); placeholderMessage]) as Hcopy.
  { rewrite Hst. change (h ++ [?a; ?b] ++ ext) with (h ++ [a] ++ b :: ext).
    rewrite app_assoc.
    replace (S (length h))
      with (length (h ++ [read h (messages (session st))
                          ++ [userMessage_of (question st)]])).
    - apply read_app_new.
    - rewrite length_app. simpl. lia. }
  rewrite Hcopy, read_app_new, insert_last_of_three, insert_app_new.
  exists ([read h (messages (session st)) ++ [userMessage_of (question st)];
           read h (messages (session st))
           ++ [userMessage_of (question st); placeholderMessage]]
          ++ ext
          ++ [read h (messages (session st))
              ++ [userMessage_of (question st);
                  assembledMessage (yielded (stream allNotes h st))]]),
         (length (w_store w)).
  assert (w_store w
          ++ [read h (messages (session st))
              ++ [userMessage_of (question st);
                  assembledMessage (yielded (stream allNotes h st))]]
          = h ++ ([read h (messages (session st))
                   ++ [userMessage_of (question st)];
                   read h (messages (session st))
                   ++ [userMessage_of (question st); placeholderMessage]]
                  ++ ext
                  ++ [read h (messages (session st))
                      ++ [userMessage_of (question st);
                          assembledMessage (yielded (stream allNotes h st))]]))
    as Hstore.
  { rewrite Hst. by rewrite <- !app_assoc. }
  split.
  - unfold finalSession_at, streamCall, contextNotes_of.
    rewrite <- Hstore.
    destruct (read h (messages (session st))); reflexivity.
  - rewrite <- Hstore. apply read_app_new.
Qed.

(** When the stream throws: the last message on display is dropped, an
    error is shown and nothing is handed over. *)
Lemma handleSubmit_rolls_back allNotes h st :
  messages (session st) < length h ->
  isStreaming st = false ->
  truthy_string (trim (question st)) = true ->
  threw (stream allNotes h st) = true ->
  exists ext r m,
    run allNotes h st =
    {| out_store := h ++ ext;
       out_state := {| session := with_messages (session st) r;
                       question := [];
                       isStreaming := false;
                       error := Some errorMessage;
                       useGoogleSearch := useGoogleSearch st |};
       effects := streamCall allNotes st
                  :: map Generator (steps (stream allNotes h st))
                  ++ [StreamThrew] |}
    /\ shownMessages (consume (yielded (stream allNotes h st))
                        (optimistic h (session st) (question st)))
       = read h (messages (session st)) ++ [userMessage_of (question st); m]
    /\ role m = model
    /\ read (h ++ ext) r =
       read h (messages (session st)) ++ [userMessage_of (question st)].
Proof.
  intros Hr Hidle Hq Hthrew.
  pose proof (underWay_consume h (session st) (question st)
                (yielded (stream allNotes h st))
                _ (underWay_optimistic h (session st) (question st) Hr))
    as Hw.
  unfold handleSubmit. rewrite Hidle, Hq. cbn [negb orb]. cbv zeta.
  rewrite Hthrew.
  set (w := consume _ _) in *.
  destruct Hw as ([ext Hst] & _ & _ & (r & Hshown & _) & (m & c & Hmsgs & Hrole & _)).
  cbv zeta in *.
  unfold rollback, alloc. rewrite Hmsgs, slice_last_of_three, Hshown.
  exists ([read h (messages (session st)) ++ [userMessage_of (question st)];
           read h (messages (session st))
           ++ [userMessage_of (question st); placeholderMessage]]
          ++ ext
          ++ [read h (messages (session st)) ++ [userMessage_of (question st)]]),
         (length (w_store w)), m.
  assert (w_store w
          ++ [read h (messages (session st)) ++ [userMessage_of (question st)]]
          = h ++ ([read h (messages (session st))
                   ++ [userMessage_of (question st)];
                   read h (messages (session st))
                   ++ [userMessage_of (question st); placeholderMessage]]
                  ++ ext
                  ++ [read h (messages (session st))
                      ++ [userMessage_of (question st)]])) as Hstore.
  { rewrite Hst. by rewrite <- !app_assoc. }
  rewrite <- Hstore. split; [reflexivity |]. split; [reflexivity |].
  split; [exact Hrole |]. apply read_app_new.
Qed.

End Exchange.

(** ** Claims about the session reconciliation *)

Lemma persisted_effects call (steps : list Step) (tail : list Effect) :
  omap (fun e => match e with SessionUpdate s => Some s | _ => None end)
       (call :: map Generator steps ++ tail)
  = match call with SessionUpdate s => [s] | _ => [] end
    ++ omap (fun e => match e with SessionUpdate s => Some s | _ => None end)
         tail.
Proof.
  rewrite omap_cons.
  assert (omap (fun e => match e with SessionUpdate s => Some s | _ => None end)
               (map Generator steps ++ tail)
          = omap (fun e => match e with SessionUpdate s => Some s | _ => None end)
                 tail) as ->.
  { induction steps as [|x steps IH]; [done | exact IH]. }
  by destruct call.
Qed.

(** The request sent to the backend carries the history, the notes and the
    question given to the generator. *)
Lemma continueChatStream_request gen notes q history flag :
  exists req tail,
    steps (continueChatStream gen notes q history flag) = Request req :: tail /\
    prompt_history (contents req) = historyContext history /\
    prompt_notes (contents req) = notesContext notes /\
    prompt_question (contents req) = q /\
    googleSearch req = flag.
Proof.
  unfold continueChatStream. destruct flag.
  - unfold searchRun. cbv zeta. destruct (fails _); eexists _, _; by split.
  - unfold notesOnlyRun. cbv zeta. destruct (fails _).
    + eexists _, _; by split.
    + destruct (includes _ _); eexists _, _; by split.
Qed.

(** C1.  In an exchange driven by [handleSubmit] the session is handed to
    [onSessionUpdate] at most once; when it is, the stream has ended
    without throwing, the hand-over is the last thing done, after every step
    of the generator, and the session handed over holds the former messages,
    the user message and, in place of the placeholder, the message
    assembled from the events: the concatenated answer text and the
    collected citation lists.  An accepted exchange whose stream ends
    normally does hand the session over. *)
Theorem C1_persisted_once_after_stream gen allNotes h st :
  messages (session st) < length h ->
  let out := handleSubmit gen allNotes h st in
  let stream := streamOf gen allNotes h st in
  length (persisted out) <= 1 /\
  (forall s, s ∈ persisted out ->
     threw stream = false /\
     effects out = streamCall allNotes st :: map Generator (steps stream)
                   ++ [StreamDone; SessionUpdate s] /\
     read (out_store out) (messages s) =
       read h (messages (session st))
       ++ [userMessage_of (question st); assembledMessage (yielded stream)]) /\
  (isStreaming st = false ->
   truthy_string (trim (question st)) = true ->
   threw stream = false ->
   exists s, persisted out = [s]).
Proof.
  intros Hr. cbv zeta.
  destruct (isStreaming st) eqn:Hidle.
  { rewrite handleSubmit_rejected by auto. unfold persisted. simpl.
    split; [lia |]. split; [| done].
    intros s Hs. by apply not_elem_of_nil in Hs. }
  destruct (truthy_string (trim (question st))) eqn:Hq.
  2: { rewrite handleSubmit_rejected by auto. unfold persisted. simpl.
       split; [lia |]. split; [| done].
       intros s Hs. by apply not_elem_of_nil in Hs. }
  destruct (threw (streamOf gen allNotes h st)) eqn:Hthrew.
  - destruct (handleSubmit_rolls_back gen allNotes h st Hr Hidle Hq Hthrew)
      as (ext & r & m & -> & _).
    unfold persisted. cbn [effects]. rewrite persisted_effects. simpl.
    split; [lia |]. split; [| done].
    intros s Hs. by apply not_elem_of_nil in Hs.
  - destruct (handleSubmit_commits gen allNotes h st Hr Hidle Hq Hthrew)
      as (ext & r & -> & Hread).
    unfold persisted. cbn [effects out_store]. rewrite persisted_effects. simpl.
    split; [lia |]. split; [| eauto].
    intros s ->%list_elem_of_singleton. done.
Qed.

Lemma C1_persisted_once_after_stream_witness :
  messages (session exampleState) < length exampleStore /\
  exists s,
    persisted (handleSubmit (replying skyStream) exampleNotes exampleStore
                 exampleState) = [s] /\
    read (out_store (handleSubmit (replying skyStream) exampleNotes
                       exampleStore exampleState)) (messages s)
    = earlierMessages
      ++ [userMessage_of (js "And the sea?");
          {| role := model;
             content := CObject {| answer := skyAnswer; sources := skySources;
                                   webSources := Some [] |} |}].
Proof.
  split; [simpl; lia |].
  destruct (C1_persisted_once_after_stream (replying skyStream) exampleNotes
              exampleStore exampleState) as (_ & Hafter & Honce).
  { simpl. lia. }
  destruct Honce as [s Hs]; [reflexivity | reflexivity | reflexivity |].
  exists s. split; [exact Hs |].
  destruct (Hafter s) as (_ & _ & Hread).
  { rewrite Hs. by apply list_elem_of_singleton. }
  rewrite Hread. vm_compute. reflexivity.
Defined.

(** C7.  When the stream of an accepted exchange ends normally, the title
    of the session, on display and as handed over, is the first 50
    characters of the question if the session had no message before the
    exchange, and the former title otherwise. *)
Theorem C7_title_from_first_question gen allNotes h st :
  messages (session st) < length h ->
  isStreaming st = false ->
  truthy_string (trim (question st)) = true ->
  threw (streamOf gen allNotes h st) = false ->
  let out := handleSubmit gen allNotes h st in
  let title' :=
    match read h (messages (session st)) with
    | [] => take 50 (question st)
    | _ :: _ => session_title (session st)
    end in
  session_title (session (out_state out)) = title' /\
  forall s, s ∈ persisted out -> session_title s = title'.
Proof.
  intros Hr Hidle Hq Hok. cbv zeta.
  destruct (handleSubmit_commits gen allNotes h st Hr Hidle Hq Hok)
    as (ext & r & -> & _).
  unfold persisted. cbn [effects out_state session]. rewrite persisted_effects.
  simpl. split; [done |]. intros s ->%list_elem_of_singleton. done.
Qed.

Lemma C7_title_from_first_question_witness :
  session_title
    (session (out_state (handleSubmit (replying skyStream) exampleNotes
                           [[]] newState)))
  = js "Which of my notes mention the colour of the sky at" /\
  session_title
    (session (out_state (handleSubmit (replying skyStream) exampleNotes
                           exampleStore exampleState)))
  = js "What is the sky like?".
Proof.
  split.
  - destruct (C7_title_from_first_question (replying skyStream) exampleNotes
                [[]] newState) as [Htitle _];
      [simpl; lia | reflexivity | reflexivity | reflexivity |].
    exact Htitle.
  - destruct (C7_title_from_first_question (replying skyStream) exampleNotes
                exampleStore exampleState) as [Htitle _];
      [simpl; lia | reflexivity | reflexivity | reflexivity |].
    exact Htitle.
Defined.

(** C8.  When the stream of an accepted exchange throws, at whatever point,
    the list on display, which then holds the former messages, the user
    message and the message of the model being filled, loses exactly its
    last element: the former messages and the user message stay.  An error
    is shown, and the session is not handed to [onSessionUpdate]. *)
Theorem C8_failure_drops_placeholder gen allNotes h st :
  messages (session st) < length h ->
  isStreaming st = false ->
  truthy_string (trim (question st)) = true ->
  threw (streamOf gen allNotes h st) = true ->
  let out := handleSubmit gen allNotes h st in
  let working :=
    shownMessages (consume (yielded (streamOf gen allNotes h st))
                     (optimistic h (session st) (question st))) in
  let shown := read (out_store out) (messages (session (out_state out))) in
  (exists m, role m = model /\
             working = read h (messages (session st))
                       ++ [userMessage_of (question st); m]) /\
  shown = take (length working - 1) working /\
  shown = read h (messages (session st)) ++ [userMessage_of (question st)] /\
  error (out_state out) = Some errorMessage /\
  isStreaming (out_state out) = false /\
  persisted out = [].
Proof.
  intros Hr Hidle Hq Hthrew. cbv zeta.
  destruct (handleSubmit_rolls_back gen allNotes h st Hr Hidle Hq Hthrew)
    as (ext & r & m & -> & Hworking & Hrole & Hread).
  cbn [out_store out_state session error isStreaming messages with_messages].
  rewrite Hworking, Hread. split; [by exists m |].
  split; [symmetry; apply slice_last_of_three |].
  split; [done |]. split; [done |]. split; [done |].
  unfold persisted. cbn [effects]. by rewrite persisted_effects.
Qed.

Lemma C8_failure_drops_placeholder_witness :
  threw (streamOf (replying brokenStream) exampleNotes exampleStore
           searchingState) = true /\
  shownMessages (consume (yielded (streamOf (replying brokenStream)
                                     exampleNotes exampleStore searchingState))
                   (optimistic exampleStore exampleSession (js "And the sea?")))
  = earlierMessages
    ++ [userMessage_of (js "And the sea?");
        {| role := model;
           content := CObject {| answer := js "Blue"; sources := JArray [];
                                 webSources := None |} |}] /\
  read (out_store (handleSubmit (replying brokenStream) exampleNotes
                     exampleStore searchingState))
    (messages (session (out_state (handleSubmit (replying brokenStream)
                                     exampleNotes exampleStore searchingState))))
  = earlierMessages ++ [userMessage_of (js "And the sea?")] /\
  persisted (handleSubmit (replying brokenStream) exampleNotes exampleStore
               searchingState) = [].
Proof.
  split; [reflexivity |]. split; [vm_compute; reflexivity |].
  destruct (C8_failure_drops_placeholder (replying brokenStream) exampleNotes
              exampleStore searchingState)
    as (_ & _ & Hshown & _ & _ & Hnone);
    [simpl; lia | reflexivity | reflexivity | reflexivity |].
  split; [exact Hshown | exact Hnone].
Defined.

(** C9.  In an accepted exchange the generator is called with the notes of
    [allNotes] whose ids are among the [noteIds] of the session, and with
    the array of messages of the session, which holds the messages as they
    were before the exchange: the user message and the placeholder are
    appended to copies, the request sent to the backend is built from the
    former messages, and no array that existed before the exchange, the
    history among them, is changed by the exchange. *)
Theorem C9_stream_arguments gen allNotes h st :
  messages (session st) < length h ->
  isStreaming st = false ->
  truthy_string (trim (question st)) = true ->
  let out := handleSubmit gen allNotes h st in
  let stream := streamOf gen allNotes h st in
  let contextNotes := contextNotes_of allNotes (session st) in
  let history := read h (messages (session st)) in
  (exists rest,
     effects out =
     CallStream contextNotes (question st) (messages (session st))
                (useGoogleSearch st) :: rest) /\
  (forall note, note ∈ contextNotes <->
                note ∈ allNotes /\ note_id note ∈ noteIds (session st)) /\
  stream = continueChatStream gen contextNotes (question st) history
             (useGoogleSearch st) /\
  (exists req tail,
     steps stream = Request req :: tail /\
     prompt_history (contents req) = historyContext history /\
     prompt_notes (contents req) = notesContext contextNotes /\
     prompt_question (contents req) = question st) /\
  take (length h) (out_store out) = h /\
  read (out_store out) (messages (session st)) = history.
Proof.
  intros Hr Hidle Hq. cbv zeta.
  pose proof (streamOf_eq gen allNotes h st Hr) as Hstream.
  assert (exists ext rest,
            handleSubmit gen allNotes h st =
            {| out_store := h ++ ext;
               out_state := out_state (handleSubmit gen allNotes h st);
               effects := streamCall allNotes st :: rest |}) as (ext & rest & Hout).
  { destruct (threw (streamOf gen allNotes h st)) eqn:Hthrew.
    - destruct (handleSubmit_rolls_back gen allNotes h st Hr Hidle Hq Hthrew)
        as (ext & r & m & -> & _). by eexists _, _.
    - destruct (handleSubmit_commits gen allNotes h st Hr Hidle Hq Hthrew)
        as (ext & r & -> & _). by eexists _, _. }
  rewrite Hout. cbn [effects out_store].
  split; [by exists rest |]. split.
  { intros note. unfold contextNotes_of. rewrite list_elem_of_filter. tauto. }
  split; [exact Hstream |]. split.
  { rewrite Hstream.
    destruct (continueChatStream_request gen
                (contextNotes_of allNotes (session st)) (question st)
                (read h (messages (session st))) (useGoogleSearch st))
      as (req & tail & Hsteps & Hh & Hn & Hqn & _).
    by exists req, tail. }
  split; [apply take_app_length | by apply read_app_l].
Qed.

Lemma C9_stream_arguments_witness :
  (exists rest,
     effects (handleSubmit (replying skyStream) exampleNotes exampleStore
                exampleState)
     = CallStream [noteWithId "n1"; noteWithId "n3"] (js "And the sea?") 0 false
       :: rest) /\
  read (out_store (handleSubmit (replying skyStream) exampleNotes exampleStore
                     exampleState)) 0 = earlierMessages.
Proof.
  destruct (C9_stream_arguments (replying skyStream) exampleNotes exampleStore
              exampleState) as (Hcall & _ & _ & _ & _ & Hread);
    [simpl; lia | reflexivity | reflexivity |].
  split; [exact Hcall | exact Hread].
Defined.

(** * Properties of the further parts *)

(** ** The tasks of a selected date *)

Section SortExt.
Context {A : Type}.

(** Two comparators that agree on the elements at hand sort alike. *)
Lemma insert_ext (f g : A -> A -> Z) x (l : list A) :
  (forall y, y ∈ l -> f x y = g x y) -> insert f x l = insert g x l.
Proof.
  induction l as [|y l IH]; intros Hfg; [done |]. simpl.
  rewrite (Hfg y) by (apply elem_of_cons; by left).
  destruct (0 <? g x y)%Z; [| done].
  f_equal. apply IH. intros z Hz. apply Hfg, elem_of_cons. by right.
Qed.

Lemma sort_ext (f g : A -> A -> Z) (l : list A) :
  (forall x y, x ∈ l -> y ∈ l -> f x y = g x y) -> sort f l = sort g l.
Proof.
  induction l as [|x l IH]; intros Hfg; [done |]. simpl.
  rewrite IH by (intros y z Hy Hz; apply Hfg; apply elem_of_cons; by right).
  apply insert_ext. intros y Hy. rewrite sort_Permutation in Hy.
  apply Hfg; apply elem_of_cons; [by left | by right].
Qed.

End SortExt.

Section Popover.
Variable localeCompare : jsstring -> jsstring -> Z.
Implicit Types (e x y : TodaysActionItem) (l : list TodaysActionItem).

Local Abbreviation cmpT := (compareByTime localeCompare).
Local Abbreviation cmpP := (compareForPopover localeCompare).

Local Abbreviation isOpen := (fun e : TodaysActionItem => completed (item e) = false).
Local Abbreviation isDone := (fun e : TodaysActionItem => completed (item e) = true).

Lemma compareForPopover_same x y :
  completed (item x) = completed (item y) -> cmpP x y = cmpT x y.
Proof.
  intros Hc. unfold compareForPopover, compareByTime. rewrite Hc.
  by rewrite Bool.eqb_reflx.
Qed.

Lemma compareForPopover_open_done x y :
  isOpen x -> isDone y -> cmpP x y = (-1)%Z.
Proof. unfold compareForPopover. by intros -> ->. Qed.

Lemma compareForPopover_done_open x y :
  isDone x -> isOpen y -> cmpP x y = 1%Z.
Proof. unfold compareForPopover. by intros -> ->. Qed.

Lemma compareForPopover_asym :
  (forall s t, (0 < localeCompare s t)%Z -> (localeCompare t s <= 0)%Z) ->
  forall x y, (0 < cmpP x y)%Z -> (cmpP y x <= 0)%Z.
Proof.
  intros Hasym x y.
  destruct (completed (item x)) eqn:Hx, (completed (item y)) eqn:Hy.
  - rewrite !compareForPopover_same by congruence.
    by apply compareByTime_asym.
  - rewrite (compareForPopover_open_done y x) by done. lia.
  - rewrite (compareForPopover_open_done x y) by done. lia.
  - rewrite !compareForPopover_same by congruence.
    by apply compareByTime_asym.
Qed.

(** An open entry is inserted among the open ones. *)
Lemma insert_open x (os ds : list TodaysActionItem) :
  isOpen x -> Forall isOpen os -> Forall isDone ds ->
  insert cmpP x (os ++ ds) = insert cmpT x os ++ ds.
Proof.
  intros Hx Hos Hds. induction os as [|y os IH]; simpl.
  - destruct ds as [|d ds]; simpl; [done |].
    apply Forall_cons in Hds as [Hd _].
    by rewrite compareForPopover_open_done.
  - apply Forall_cons in Hos as [Hy Hos].
    rewrite compareForPopover_same by congruence.
    destruct (0 <? cmpT x y)%Z; [| done]. simpl. by rewrite IH.
Qed.

(** A completed entry goes behind the open ones, among the completed. *)
Lemma insert_done x (os ds : list TodaysActionItem) :
  isDone x -> Forall isOpen os -> Forall isDone ds ->
  insert cmpP x (os ++ ds) = os ++ insert cmpT x ds.
Proof.
  intros Hx Hos Hds. induction os as [|y os IH]; simpl.
  - apply insert_ext. intros y Hy.
    rewrite Forall_forall in Hds. apply compareForPopover_same.
    rewrite Hx. symmetry. by apply Hds.
  - apply Forall_cons in Hos as [Hy Hos].
    rewrite compareForPopover_done_open by done. simpl. by rewrite IH.
Qed.

Lemma Forall_sort_filter (P : TodaysActionItem -> Prop)
    `{forall e, Decision (P e)} (f : TodaysActionItem -> TodaysActionItem -> Z) l :
  Forall P (sort f (filter P l)).
Proof.
  apply Forall_forall. intros e He. rewrite sort_Permutation in He.
  by apply list_elem_of_filter in He as [? _].
Qed.

(** The popover order: the open entries in the order of the Today view,
    then the completed entries in that order. *)
Lemma sort_for_popover l :
  sort cmpP l = sort cmpT (filter isOpen l) ++ sort cmpT (filter isDone l).
Proof.
  induction l as [|x l IH]; [done |].
  change (sort cmpP (x :: l)) with (insert cmpP x (sort cmpP l)). rewrite IH.
  rewrite !filter_cons. destruct (completed (item x)) eqn:Hx.
  - rewrite decide_False, decide_True by done.
    apply insert_done; [done | apply Forall_sort_filter; apply _ ..].
  - rewrite decide_True, decide_False by done.
    apply insert_open; [done | apply Forall_sort_filter; apply _ ..].
Qed.

End Popover.


Section PopoverFacts.
Variable localeCompare : jsstring -> jsstring -> Z.
Implicit Types (e : TodaysActionItem) (note : ProcessedNoteWithId).

Lemma toYYYYMMDD_truthy d : truthy_string (toYYYYMMDD d) = true.
Proof. apply localTodayStr_truthy. Qed.

Lemma elem_of_tasks_of_note str note e :
  e ∈ tasks_of_note str note <->
  exists items,
    actionItems note = Some items /\
    items !! itemIndex e = Some (item e) /\
    dueDate (item e) = str /\
    noteId e = note_id note /\
    noteTitle e = noteTitle_of (refinedNote note).
Proof.
  unfold tasks_of_note. destruct (actionItems note) as [items|].
  - rewrite list_elem_of_omap. split.
    + intros (x & Hx & Hid). simpl in Hid. subst x.
      apply elem_of_lookup_imap in Hx as (i & it & Hf & Hit).
      case_bool_decide as Hdue; [| done].
      injection Hf as ->. simpl. by exists items.
    + intros (items' & [= <-] & Hit & Hdue & Hid & Htitle).
      exists (Some e). split; [| done].
      apply elem_of_lookup_imap. exists (itemIndex e), (item e).
      split; [| done]. rewrite bool_decide_eq_true_2 by done.
      f_equal. destruct e; simpl in *; by subst.
  - split.
    + intros Hin. by apply not_elem_of_nil in Hin.
    + by intros (items & ? & _).
Qed.

Lemma open_entries_aux (str : jsstring)
    (mk : nat -> ActionItem -> TodaysActionItem) (items : list ActionItem) :
  truthy_string str = true ->
  (forall i it, item (mk i it) = it) ->
  omap id (imap (fun index item =>
                   if (if negb (truthy_string (dueDate item)) then false
                       else bool_decide (dueDate item = str))
                      && negb (completed item)
                   then Some (mk index item) else None) items)
  = filter (fun e => completed (item e) = false)
      (omap id (imap (fun index item =>
                        if bool_decide (dueDate item = str)
                        then Some (mk index item) else None) items)).
Proof.
  intros Hstr. revert mk.
  induction items as [|it items IH]; intros mk Hmk; [done |].
  cbn [imap]. rewrite !omap_cons.
  specialize (IH (fun i => mk (S i)) (fun i it' => Hmk (S i) it')).
  unfold compose. rewrite IH. clear IH.
  destruct (bool_decide (dueDate it = str)) eqn:Hdue.
  - apply bool_decide_eq_true in Hdue. rewrite Hdue, Hstr.
    cbn [negb andb id]. rewrite filter_cons, Hmk.
    destruct (completed it); cbn [negb].
    + by rewrite decide_False by discriminate.
    + by rewrite decide_True by reflexivity.
  - cbn [id]. by destruct (negb (truthy_string (dueDate it))).
Qed.

(** The entries of the Today view are the open entries of the popover of
    the same day, note by note. *)
Lemma todaysItems_open_tasks today note :
  todaysItems_of_note today note =
  filter (fun e => completed (item e) = false)
         (tasks_of_note (toYYYYMMDD today) note).
Proof.
  unfold todaysItems_of_note, tasks_of_note, isActionItemForToday.
  change (localTodayStr today) with (toYYYYMMDD today).
  pose proof (toYYYYMMDD_truthy today) as Hstr.
  generalize dependent (toYYYYMMDD today). intros str Hstr.
  destruct (actionItems note) as [items|]; [| done].
  by apply (open_entries_aux str
              (fun index item =>
                 {| noteId := note_id note; itemIndex := index; item := item;
                    noteTitle := noteTitle_of (refinedNote note) |})).
Qed.

Lemma filter_flat_map {A B} (P : B -> Prop) `{forall x, Decision (P x)}
    (f : A -> list B) (l : list A) :
  filter P (flat_map f l) = flat_map (fun x => filter P (f x)) l.
Proof.
  induction l as [|x l IH]; [done |]. simpl. by rewrite filter_app, IH.
Qed.

Lemma filter_all {A} (P : A -> Prop) `{forall x, Decision (P x)} (l : list A) :
  Forall P l -> filter P l = l.
Proof.
  induction 1 as [|x l Hx _ IH]; [done |].
  by rewrite filter_cons_True, IH.
Qed.

Lemma filter_none {A} (P : A -> Prop) `{forall x, Decision (P x)} (l : list A) :
  Forall (fun x => ~ P x) l -> filter P l = [].
Proof.
  induction 1 as [|x l Hx _ IH]; [done |].
  by rewrite filter_cons_False, IH.
Qed.

End PopoverFacts.

(** The entries of the popover. *)
Lemma elem_of_popoverTasks
    (localeCompare : jsstring -> jsstring -> Z) datePopover notes e :
  e ∈ popoverTasks localeCompare datePopover notes <->
  exists date note items,
    datePopover = Some date /\
    note ∈ notes /\
    actionItems note = Some items /\
    items !! itemIndex e = Some (item e) /\
    dueDate (item e) = toYYYYMMDD date /\
    noteId e = note_id note /\
    noteTitle e = noteTitle_of (refinedNote note).
Proof.
  destruct datePopover as [date|]; simpl.
  - rewrite sort_Permutation, list_elem_of_In, in_flat_map. split.
    + intros (note & Hnote & Hin). apply list_elem_of_In in Hnote, Hin.
      apply elem_of_tasks_of_note in Hin as (items & H).
      by exists date, note, items.
    + intros (date' & note & items & [= <-] & Hnote & H). exists note.
      rewrite <- !list_elem_of_In. split; [done |].
      apply elem_of_tasks_of_note. by exists items.
  - split.
    + intros Hin. by apply not_elem_of_nil in Hin.
    + by intros (date & note & items & ? & _).
Qed.

(** X1.  The popover lists an action item exactly when its due date is
    string-equal to the selected date written YYYY-MM-DD, completed or not,
    with its position in its note, the id of the note and the title of the
    note; without a selected date nothing is listed. *)
Theorem popoverTasks_members
    (localeCompare : jsstring -> jsstring -> Z) datePopover notes e :
  e ∈ popoverTasks localeCompare datePopover notes <->
  exists date note items,
    datePopover = Some date /\
    note ∈ notes /\
    actionItems note = Some items /\
    items !! itemIndex e = Some (item e) /\
    dueDate (item e) = toYYYYMMDD date /\
    noteId e = note_id note /\
    noteTitle e = noteTitle_of (refinedNote note).
Proof.
  destruct datePopover as [date|].
  - unfold popoverTasks. cbv zeta.
    rewrite sort_Permutation, list_elem_of_In, in_flat_map. split.
    + intros (note & Hnote & Hin). apply list_elem_of_In in Hnote, Hin.
      apply elem_of_tasks_of_note in Hin as (items & Hitems & Hrest).
      exists date, note, items. split; [done |]. split; [done |].
      split; [exact Hitems | exact Hrest].
    + intros (date' & note & items & Hdate & Hnote & Hrest).
      injection Hdate as <-. exists note.
      rewrite <- !list_elem_of_In. split; [done |].
      apply elem_of_tasks_of_note. by exists items.
  - split.
    + intros Hin. by apply not_elem_of_nil in Hin.
    + intros (date & note & items & Hdate & _). discriminate Hdate.
Qed.

(** X2.  The popover puts the open items before the completed ones, and
    inside each of the two groups the items with a time first, in ascending
    order of time, and then the items without a time.  The comparison of
    times is the runtime's, assumed consistent. *)
Theorem popoverTasks_order
    (localeCompare : jsstring -> jsstring -> Z) datePopover notes :
  (forall s t, (0 < localeCompare s t)%Z -> (localeCompare t s <= 0)%Z) ->
  exists openTimed openUntimed doneTimed doneUntimed,
    popoverTasks localeCompare datePopover notes
    = openTimed ++ openUntimed ++ doneTimed ++ doneUntimed /\
    Forall (fun e => completed (item e) = false /\ hasTime e = true) openTimed /\
    Forall (fun e => completed (item e) = false /\ hasTime e = false) openUntimed /\
    Forall (fun e => completed (item e) = true /\ hasTime e = true) doneTimed /\
    Forall (fun e => completed (item e) = true /\ hasTime e = false) doneUntimed /\
    Sorted (fun a b => (localeCompare (timeOf a) (timeOf b) <= 0)%Z) openTimed /\
    Sorted (fun a b => (localeCompare (timeOf a) (timeOf b) <= 0)%Z) doneTimed.
Proof.
  intros Hasym. destruct datePopover as [date|].
  2: { exists [], [], [], []. repeat split; constructor. }
  unfold popoverTasks. cbv zeta.
  set (tasks := flat_map _ notes).
  set (cmpT := compareByTime localeCompare).
  rewrite sort_for_popover.
  set (os := filter (fun e => completed (item e) = false) tasks).
  set (ds := filter (fun e => completed (item e) = true) tasks).
  rewrite (sort_by_time localeCompare os), (sort_by_time localeCompare ds).
  fold cmpT.
  exists (sort cmpT (filter (fun e => hasTime e = true) os)),
         (filter (fun e => hasTime e = false) os),
         (sort cmpT (filter (fun e => hasTime e = true) ds)),
         (filter (fun e => hasTime e = false) ds).
  assert (forall b l,
            Forall (fun e => completed (item e) = b) l ->
            Forall (fun e => completed (item e) = b /\ hasTime e = true)
                   (sort cmpT (filter (fun e => hasTime e = true) l)) /\
            Forall (fun e => completed (item e) = b /\ hasTime e = false)
                   (filter (fun e => hasTime e = false) l)) as Hblocks.
  { intros b l Hl. rewrite !Forall_forall in *. split; intros e He.
    - rewrite sort_Permutation in He. apply list_elem_of_filter in He as [? ?].
      auto.
    - apply list_elem_of_filter in He as [? ?]. auto. }
  assert (Forall (fun e => completed (item e) = false) os) as Hos.
  { apply Forall_forall. intros e He. by apply list_elem_of_filter in He as [? _]. }
  assert (Forall (fun e => completed (item e) = true) ds) as Hds.
  { apply Forall_forall. intros e He. by apply list_elem_of_filter in He as [? _]. }
  destruct (Hblocks false os Hos) as [Hot Hou].
  destruct (Hblocks true ds Hds) as [Hdt Hdu].
  split; [by rewrite <- !app_assoc |].
  split; [done |]. split; [done |]. split; [done |]. split; [done |].
  split.
  - apply Sorted_timed.
    + eapply Forall_impl; [exact Hot |]. by intros e [_ ?].
    + apply sort_Sorted, compareByTime_asym, Hasym.
  - apply Sorted_timed.
    + eapply Forall_impl; [exact Hdt |]. by intros e [_ ?].
    + apply sort_Sorted, compareByTime_asym, Hasym.
Qed.

(** X3.  The Today list is the popover list of today's date with the
    completed items left out, in the same order. *)
Theorem today_is_open_popover
    (localeCompare : jsstring -> jsstring -> Z) today notes :
  getTodaysActionItemsFromNotes localeCompare today notes
  = filter (fun e => completed (item e) = false)
           (popoverTasks localeCompare (Some today) notes).
Proof.
  unfold getTodaysActionItemsFromNotes, popoverTasks. cbv zeta.
  rewrite sort_for_popover, filter_app.
  rewrite filter_all by (apply Forall_sort_filter; apply _).
  rewrite (filter_none _ (sort _ _)), app_nil_r.
  - f_equal. rewrite filter_flat_map.
    induction notes as [|note notes IH]; [done |]. simpl.
    by rewrite IH, todaysItems_open_tasks.
  - eapply Forall_impl;
      [apply (Forall_sort_filter (fun e => completed (item e) = true));
       apply _ |].
    intros e He. simpl in He. congruence.
Qed.


Lemma popoverTasks_order_witness :
  (forall s t, (0 < codeUnitCompare s t)%Z -> (codeUnitCompare t s <= 0)%Z) /\
  map (fun e => (itemIndex e, completed (item e), time (item e)))
      (popoverTasks codeUnitCompare (Some exampleDay) [popoverNote])
  = [(2, false, Some (js "08:00")); (1, false, None);
     (0, true, Some (js "09:00")); (3, true, None)] /\
  exists openTimed openUntimed doneTimed doneUntimed,
    popoverTasks codeUnitCompare (Some exampleDay) [popoverNote]
    = openTimed ++ openUntimed ++ doneTimed ++ doneUntimed /\
    Forall (fun e => completed (item e) = false /\ hasTime e = true) openTimed /\
    Forall (fun e => completed (item e) = false /\ hasTime e = false) openUntimed /\
    Forall (fun e => completed (item e) = true /\ hasTime e = true) doneTimed /\
    Forall (fun e => completed (item e) = true /\ hasTime e = false) doneUntimed /\
    Sorted (fun a b => (codeUnitCompare (timeOf a) (timeOf b) <= 0)%Z) openTimed /\
    Sorted (fun a b => (codeUnitCompare (timeOf a) (timeOf b) <= 0)%Z) doneTimed.
Proof.
  split; [exact codeUnitCompare_asym |]. split; [vm_compute; reflexivity |].
  apply (popoverTasks_order codeUnitCompare (Some exampleDay) [popoverNote]).
  exact codeUnitCompare_asym.
Defined.

(** ** The calendar *)

Lemma elem_of_Set_add (x y : jsstring) (s : list jsstring) :
  x ∈ Set_add y s <-> x = y \/ x ∈ s.
Proof.
  unfold Set_add. case_bool_decide as Hin.
  - split; [auto |]. by intros [-> | ?].
  - rewrite elem_of_app, list_elem_of_singleton. tauto.
Qed.

Lemma elem_of_addDueDates (x : jsstring) (items : list ActionItem)
    (dates : list jsstring) :
  x ∈ fold_left (fun dates item =>
                   if truthy_string (dueDate item)
                   then Set_add (dueDate item) dates else dates) items dates
  <-> x ∈ dates \/
      exists it, it ∈ items /\ dueDate it = x /\ truthy_string x = true.
Proof.
  revert dates. induction items as [|it items IH]; intros dates; simpl.
  - split; [auto |]. intros [? | (it & Hin & _)]; [done |].
    by apply not_elem_of_nil in Hin.
  - rewrite IH. destruct (truthy_string (dueDate it)) eqn:Ht.
    + rewrite elem_of_Set_add. split.
      * intros [[-> | ?] | (it' & Hin & Hd & Hx)]; [| by left |].
        -- right. exists it. split; [by left | done].
        -- right. exists it'. split; [by right | done].
      * intros [? | (it' & Hin & Hd & Hx)]; [by left; right |].
        apply elem_of_cons in Hin as [-> | Hin]; [by left; left |].
        right. by exists it'.
    + split.
      * intros [? | (it' & Hin & Hd & Hx)]; [by left |].
        right. exists it'. split; [by right | done].
      * intros [? | (it' & Hin & Hd & Hx)]; [by left |].
        apply elem_of_cons in Hin as [-> | Hin]; [congruence |].
        right. by exists it'.
Qed.

(** The dates held by [taskDates]: the non-empty due dates of the notes. *)
Lemma elem_of_taskDates (x : jsstring) (notes : list ProcessedNoteWithId) :
  x ∈ taskDates notes <->
  truthy_string x = true /\
  exists note items it,
    note ∈ notes /\ actionItems note = Some items /\ it ∈ items /\
    dueDate it = x.
Proof.
  unfold taskDates.
  assert (forall dates,
            x ∈ fold_left
                  (fun dates note =>
                     match actionItems note with
                     | Some items =>
                         fold_left (fun dates item =>
                                      if truthy_string (dueDate item)
                                      then Set_add (dueDate item) dates
                                      else dates) items dates
                     | None => dates
                     end) notes dates
            <-> x ∈ dates \/
                (truthy_string x = true /\
                 exists note items it,
                   note ∈ notes /\ actionItems note = Some items /\
                   it ∈ items /\ dueDate it = x)) as Hgen.
  { induction notes as [|note notes IH]; intros dates; simpl.
    - split; [auto |]. intros [? | (_ & note & items & it & Hin & _)]; [done |].
      by apply not_elem_of_nil in Hin.
    - rewrite IH. destruct (actionItems note) as [items|] eqn:Hitems.
      + rewrite elem_of_addDueDates. split.
        * intros [[? | (it & Hin & Hd & Hx)] | (Hx & n & its & it & Hn & H)].
          -- by left.
          -- right. split; [done |]. exists note, items, it.
             split; [by left | done].
          -- right. split; [done |]. exists n, its, it.
             split; [by right | done].
        * intros [? | (Hx & n & its & it & Hn & Hits & Hit & Hd)];
            [by left; left |].
          apply elem_of_cons in Hn as [-> | Hn].
          -- left. right. exists it. rewrite Hitems in Hits.
             by injection Hits as <-.
          -- right. split; [done |]. by exists n, its, it.
      + split.
        * intros [? | (Hx & n & its & it & Hn & H)]; [by left |].
          right. split; [done |]. exists n, its, it. split; [by right | done].
        * intros [? | (Hx & n & its & it & Hn & Hits & H)]; [by left |].
          apply elem_of_cons in Hn as [-> | Hn]; [congruence |].
          right. split; [done |]. by exists n, its, it. }
  rewrite Hgen. split; [| auto]. intros [Hin | ?]; [| done].
  by apply not_elem_of_nil in Hin.
Qed.

(** X4.  A day of the calendar carries the task dot exactly when the
    popover opened on that day lists at least one task, completed or not.
    The year on display is taken outside 0..99, where the date of the cell
    has the year of the calendar. *)
Theorem calendar_dot_iff_popover
    (localeCompare : jsstring -> jsstring -> Z) notes (year month day : Z) :
  (year < 0 \/ 99 < year)%Z ->
  hasTasks notes year month day = true <->
  popoverTasks localeCompare (Some (fullDate year month day)) notes <> [].
Proof.
  intros Hyear.
  unfold hasTasks, Set_has. rewrite bool_decide_eq_true, elem_of_taskDates.
  assert (dateStr year month day = toYYYYMMDD (fullDate year month day)) as ->.
  { unfold dateStr, toYYYYMMDD, fullDate. cbn [getFullYear getMonth getDate].
    destruct (Z.leb_spec 0 year), (Z.leb_spec year 99); simpl; (done || lia). }
  split.
  - intros (_ & note & items & it & Hnote & Hitems & Hit & Hdue) Hnil.
    apply list_elem_of_lookup in Hit as [i Hi].
    assert ({| noteId := note_id note; itemIndex := i; item := it;
               noteTitle := noteTitle_of (refinedNote note) |}
            ∈ popoverTasks localeCompare (Some (fullDate year month day)) notes)
      as Hin.
    { apply elem_of_popoverTasks. by exists (fullDate year month day), note, items. }
    rewrite Hnil in Hin. by apply not_elem_of_nil in Hin.
  - intros Hne.
    destruct (popoverTasks localeCompare _ notes) as [|e l] eqn:Hp; [done |].
    assert (e ∈ popoverTasks localeCompare (Some (fullDate year month day)) notes)
      as Hin by (rewrite Hp; by left).
    apply elem_of_popoverTasks
      in Hin as (date & note & items & [= <-] & Hnote & Hitems & Hi & Hdue & _).
    split; [apply toYYYYMMDD_truthy |].
    exists note, items, (item e). split; [done |]. split; [done |].
    split; [| done]. apply list_elem_of_lookup. by exists (itemIndex e).
Qed.

Lemma calendar_dot_iff_popover_witness :
  hasTasks [popoverNote] 2025 0 5 = true /\
  popoverTasks codeUnitCompare (Some (fullDate 2025 0 5)) [popoverNote] <> [].
Proof.
  split; [reflexivity |].
  apply (calendar_dot_iff_popover codeUnitCompare [popoverNote] 2025 0 5);
    [lia | reflexivity].
Defined.

(** X5.  Moving the calendar by a number of months and back by the same
    number returns to the month and year it showed; the month on display
    always lies in 0..11, a move past December or before January being
    carried into the year, and the day is the first of the month. *)
Theorem changeMonth_round_trip (offset : Z) (d : LocalDate) :
  (0 <= getMonth d < 12)%Z ->
  let moved := changeMonth offset d in
  let back := changeMonth (- offset) moved in
  (0 <= getMonth moved < 12)%Z /\
  (getFullYear moved * 12 + getMonth moved
   = getFullYear d * 12 + getMonth d + offset)%Z /\
  getDate moved = 1%Z /\
  getFullYear back = getFullYear d /\
  getMonth back = getMonth d.
Proof.
  intros Hm. cbv zeta. unfold changeMonth. cbn [getFullYear getMonth getDate].
  pose proof (Z.div_mod (getMonth d + offset) 12 ltac:(lia)) as H1.
  pose proof (Z.mod_pos_bound (getMonth d + offset) 12 ltac:(lia)) as H2.
  set (q := ((getMonth d + offset) / 12)%Z) in *.
  set (r := ((getMonth d + offset) mod 12)%Z) in *.
  assert ((r + - offset) = getMonth d + (- q) * 12)%Z as Hr by lia.
  rewrite Hr, Z.div_add, Z.mod_add by lia.
  rewrite Z.div_small, Z.mod_small by lia.
  repeat split; lia.
Qed.

Lemma changeMonth_round_trip_witness :
  changeMonth 1 {| getFullYear := 2025; getMonth := 11; getDate := 31 |}
  = {| getFullYear := 2026; getMonth := 0; getDate := 1 |} /\
  getFullYear (changeMonth (-1)
                 (changeMonth 1 {| getFullYear := 2025; getMonth := 11;
                                   getDate := 31 |})) = 2025%Z.
Proof.
  split; [reflexivity |].
  destruct (changeMonth_round_trip 1
              {| getFullYear := 2025; getMonth := 11; getDate := 31 |})
    as (_ & _ & _ & Hy & _); [simpl; lia |].
  exact Hy.
Defined.


(** ** Pieces of a string *)

Section Pieces.
Implicit Types s t sep : jsstring.

Lemma piece_of_refl s : piece_of s s.
Proof. exists [], []. by rewrite app_nil_r. Qed.

Lemma piece_of_trans t s u : piece_of t s -> piece_of s u -> piece_of t u.
Proof.
  intros (b1 & a1 & ->) (b2 & a2 & ->).
  exists (b2 ++ b1), (a1 ++ a2). by rewrite <- !app_assoc.
Qed.

Lemma piece_of_take n s : piece_of (take n s) s.
Proof. exists [], (drop n s). simpl. by rewrite take_drop. Qed.

Lemma piece_of_drop n s : piece_of (drop n s) s.
Proof. exists (take n s), []. by rewrite app_nil_r, take_drop. Qed.

Lemma piece_of_trimStart s : piece_of (trimStart s) s.
Proof.
  induction s as [|c s IH]; simpl; [apply piece_of_refl |].
  destruct (is_space c); [| apply piece_of_refl].
  eapply piece_of_trans; [exact IH |]. apply (piece_of_drop 1 (c :: s)).
Qed.

Lemma piece_of_rev t s : piece_of t s -> piece_of (rev t) (rev s).
Proof.
  intros (b & a & ->). exists (rev a), (rev b).
  by rewrite !rev_app_distr, <- app_assoc.
Qed.

Lemma piece_of_trim s : piece_of (trim s) s.
Proof.
  unfold trim. eapply piece_of_trans; [| apply piece_of_trimStart].
  rewrite <- (rev_involutive (trimStart s)) at 2.
  apply piece_of_rev, piece_of_trimStart.
Qed.

(** A separator that occurs in a piece occurs in the whole. *)
Lemma includes_piece t s sep :
  piece_of t s -> includes s sep = false -> includes t sep = false.
Proof.
  intros (b & a & ->) Hs. apply includes_false. intros i [k Hi].
  apply includes_false with (i := length b + i) in Hs. apply Hs.
  unfold occurs_at. rewrite drop_app_add, drop_app, Hi, <- app_assoc.
  by eexists.
Qed.

Lemma indexOf_Some_length s sep i :
  sep <> [] -> indexOf s sep = Some i -> i + length sep <= length s.
Proof.
  intros Hne [[k Hk] _]%indexOf_Some. apply (f_equal length) in Hk.
  rewrite length_drop, length_app in Hk.
  destruct sep; [done |]. simpl in *. lia.
Qed.

(** The pieces of [split] are pieces of the string. *)
Lemma split_pieces s sep :
  sep <> [] -> Forall (fun t => piece_of t s) (split s sep).
Proof.
  intros Hne. remember (length s) as n eqn:Hn. revert s Hn.
  induction n as [n IH] using lt_wf_ind. intros s ->.
  rewrite split_indexOf by done.
  destruct (indexOf s sep) as [i|] eqn:Hi.
  - constructor; [apply piece_of_take |].
    pose proof (indexOf_Some_length _ _ _ Hne Hi) as Hlen.
    assert (0 < length sep) by (destruct sep; [done | simpl; lia]).
    eapply Forall_impl.
    + apply (IH (length (drop (i + length sep) s))); [| done].
      rewrite length_drop. lia.
    + intros t Ht. eapply piece_of_trans; [exact Ht | apply piece_of_drop].
  - constructor; [apply piece_of_refl | constructor].
Qed.

(** The answer segment holds no separator. *)
Lemma answerSegment_clean s : includes (answerSegment s) separator = false.
Proof.
  unfold answerSegment. destruct (indexOf s separator) as [i|] eqn:Hi.
  - apply includes_false. intros j [k Hj].
    pose proof Hi as [_ Hmin]%indexOf_Some.
    assert (0 < length separator) as Hsep by (vm_compute; lia).
    assert (j < length (take i s)) as Hjlen.
    { apply (f_equal length) in Hj. rewrite length_drop, length_app in Hj. lia. }
    apply (Hmin j); [rewrite length_take in Hjlen; lia |].
    unfold occurs_at.
    rewrite <- (take_drop i s) at 1. rewrite drop_app_le by lia.
    rewrite Hj, <- app_assoc. by eexists.
  - apply includes_false. by apply indexOf_None.
Qed.

Lemma answerSegment_idemp s : answerSegment (answerSegment s) = answerSegment s.
Proof.
  pose proof (answerSegment_clean s) as Hc.
  unfold answerSegment at 1.
  destruct (indexOf (answerSegment s) separator) as [i|] eqn:Hi; [| done].
  assert (includes (answerSegment s) separator = true) as Ht
    by (apply includes_indexOf; by eexists).
  congruence.
Qed.

End Pieces.

Lemma elem_of_imap_inv {A B} (f : nat -> A -> B) (l : list A) (y : B) :
  y ∈ imap f l -> exists i x, l !! i = Some x /\ y = f i x.
Proof.
  intros Hin. apply list_elem_of_lookup in Hin as [i Hi].
  rewrite list_lookup_imap in Hi.
  destruct (l !! i) as [x|] eqn:Hx; [| done]. injection Hi as <-.
  by exists i, x.
Qed.

Lemma piece_of_renderLine index line :
  piece_of (children_of (renderLine index line)) line.
Proof.
  unfold renderLine. cbv zeta.
  destruct (startsWith (trim line) (js "* ")); simpl.
  { eapply piece_of_trans; [apply piece_of_drop | apply piece_of_trim]. }
  destruct (startsWith (trim line) (js "#")); simpl.
  { eapply piece_of_trans; [apply piece_of_trimStart |].
    eapply piece_of_trans; [apply piece_of_drop | apply piece_of_trim]. }
  apply piece_of_trim.
Qed.

(** X6.  What is rendered of an answer depends only on the text before the
    first separator, and no element shows the separator: the raw citation
    payload behind it never reaches the display.  There is one element for
    each line of that text, keyed by the index of the line, and a heading
    has a level from 2 to 6. *)
Theorem renderAnswerText_hides_citations (text : jsstring) :
  renderAnswerText text = renderAnswerText (answerSegment text) /\
  Forall (fun e => includes (children_of e) separator = false)
         (renderAnswerText text) /\
  map key_of (renderAnswerText text)
  = seq 0 (length (split (answerSegment text) [LF])) /\
  (forall level key c,
     Heading level key c ∈ renderAnswerText text -> 2 <= level <= 6).
Proof.
  unfold renderAnswerText. cbv zeta. rewrite !split_0, answerSegment_idemp.
  simpl default. split; [done |]. split; [| split].
  - apply Forall_forall. intros e (i & line & Hline & ->)%elem_of_imap_inv.
    eapply includes_piece; [| apply (answerSegment_clean text)].
    eapply piece_of_trans; [apply piece_of_renderLine |].
    pose proof (split_pieces (answerSegment text) [LF] ltac:(done)) as Hp.
    rewrite Forall_forall in Hp. apply Hp.
    apply list_elem_of_lookup. by exists i.
  - generalize (split (answerSegment text) [LF]) as lines. intros lines.
    change (map key_of (imap renderLine lines))
      with (key_of <$> imap renderLine lines).
    rewrite fmap_imap.
    assert (forall k, imap (fun n => key_of ∘ renderLine (k + n)) lines
                      = seq k (length lines)) as Hgen.
    { induction lines as [|l lines IH]; intros k; [done |]. simpl.
      f_equal.
      - unfold renderLine. cbv zeta. rewrite Nat.add_0_r.
        by repeat case_match.
      - rewrite <- IH. apply imap_ext. intros i x _. simpl.
        by rewrite Nat.add_succ_r. }
    apply (Hgen 0).
  - intros level key c (i & line & _ & Heq)%elem_of_imap_inv.
    unfold renderLine in Heq. cbv zeta in Heq.
    destruct (startsWith (trim line) (js "* ")); [done |].
    destruct (startsWith (trim line) (js "#")); [| done].
    injection Heq as -> _ _.
    destruct (0 <? leadingHashes (trim line)) eqn:Hh;
      [apply Nat.ltb_lt in Hh |]; lia.
Qed.


(** ** More on the generator *)

Section Generator.
Implicit Types (resp : ResponseStream) (ws : list WebSource).

Lemma forwardedTexts_texts cs e :
  e ∈ forwardedTexts cs ->
  exists t, e = text_event (Some t) /\ t <> [].
Proof.
  unfold forwardedTexts. intros (c & _ & Hc)%list_elem_of_omap.
  destruct (chunk_text c) as [t|]; [| done].
  destruct t as [|u t]; [done |]. injection Hc as <-. by eexists.
Qed.

Lemma search_failed resp notes question history :
  fails resp = true ->
  let run := continueChatStream (replying resp) notes question history true in
  threw run = true /\ yielded run = forwardedTexts (chunks resp).
Proof.
  intros Hf. cbv zeta.
  unfold continueChatStream, searchRun, replying. rewrite Hf.
  split; [done |]. unfold yielded. cbn [steps].
  rewrite <- (app_nil_r (flat_map _ _)), yielded_search. simpl.
  by rewrite app_nil_r.
Qed.

Lemma Map_set_fresh {K V} `{EqDecision K} (k : K) (v : V) (m : list (K * V)) :
  k ∉ m.*1 -> Map_set k v m = m ++ [(k, v)].
Proof.
  induction m as [|[k' v'] m IH]; [done |]. simpl. intros Hnin.
  apply not_elem_of_cons in Hnin as [Hne Hnin].
  destruct (decide (k = k')); [done |]. by rewrite IH.
Qed.

(** Entries with distinct keys are the entries of their map. *)
Lemma Map_of_distinct {K V} `{EqDecision K} (l : list (K * V)) :
  NoDup l.*1 -> Map_of l = l.
Proof.
  induction l as [|[k v] l IH] using rev_ind; [done |].
  rewrite fmap_app. intros Hnd. apply NoDup_app in Hnd as (Hl & Hk & _).
  rewrite Map_of_snoc, IH by done. apply Map_set_fresh.
  intros Hin. apply (Hk k Hin). simpl. by left.
Qed.

Lemma uniqueWebSources_NoDup ws : NoDup (map uri (uniqueWebSources ws)).
Proof. rewrite uniqueWebSources_uris. apply NoDup_first_occurrences. Qed.

Lemma uniqueWebSources_idemp ws :
  uniqueWebSources (uniqueWebSources ws) = uniqueWebSources ws.
Proof.
  pose proof (uniqueWebSources_NoDup ws) as Hnd.
  unfold uniqueWebSources, Map_values in *.
  pose proof (Map_of_entries_key ws) as Hkey.
  set (m := Map_of _) in *.
  assert (map (fun item => (uri item, item)) m.*2 = m) as Hm.
  { clearbody m. induction m as [|[k w] m IH]; [done |]. simpl. f_equal.
    - f_equal. symmetry. apply Hkey. by left.
    - apply IH.
      + by apply NoDup_cons in Hnd as [_ ?].
      + intros k' w' Hin. apply Hkey. by right. }
  rewrite Hm, Map_of_distinct; [done |]. subst m. apply Map_of_NoDup.
Qed.

End Generator.

(** X7.  The generator throws exactly when the backend stream fails.  In
    the notes-only mode nothing has been yielded by then; in the search mode
    the texts of the chunks received before the failure have been yielded,
    each as it came.  In neither mode is an event with citations or web
    sources yielded by a run that throws. *)
Theorem continueChatStream_failure resp notes question history
    (useGoogleSearch : bool) :
  let run :=
    continueChatStream (replying resp) notes question history useGoogleSearch in
  threw run = fails resp /\
  (fails resp = true ->
   yielded run = (if useGoogleSearch then forwardedTexts (chunks resp) else []) /\
   Forall (fun e => ev_sources e = None /\ ev_webSources e = None)
          (yielded run)).
Proof.
  cbv zeta. destruct (fails resp) eqn:Hf.
  - destruct useGoogleSearch.
    + destruct (search_failed resp notes question history Hf) as [Ht Hy].
      cbv zeta in *. rewrite Ht, Hy. split; [done |]. intros _.
      split; [done |]. apply Forall_forall.
      intros e (t & -> & _)%forwardedTexts_texts. done.
    + destruct (notesOnly_failed resp notes question history Hf) as [Ht Hy].
      cbv zeta in *. rewrite Ht, Hy. split; [done |]. intros _.
      split; [done | constructor].
  - split; [| done]. destruct useGoogleSearch.
    + by destruct (search_completed resp notes question history Hf) as [_ ?].
    + by destruct (notesOnly_completed resp notes question history Hf) as [? _].
Qed.

(** X8.  In the notes-only mode a stream that ends normally gives one text
    event, first, whose text is a prefix of the streamed text and holds no
    separator; it is followed by at most one event, which carries
    citations.  Without a separator in the streamed text the text event
    carries the whole of it and is alone. *)
Theorem notesOnly_events resp notes question history :
  fails resp = false ->
  let run := continueChatStream (replying resp) notes question history false in
  let fullText := streamedText (chunks resp) in
  exists answer rest,
    yielded run = text_event (Some answer) :: rest /\
    answer `prefix_of` fullText /\
    includes answer separator = false /\
    (rest = [] \/ exists sources, rest = [sources_event sources]) /\
    (includes fullText separator = false -> answer = fullText /\ rest = []).
Proof.
  intros Hok. cbv zeta.
  destruct (notesOnly_completed resp notes question history Hok)
    as (_ & _ & Hy).
  cbv zeta in Hy. rewrite Hy. clear Hy.
  set (fullText := streamedText (chunks resp)).
  destruct (includes fullText separator) eqn:Hinc.
  - exists (answerSegment fullText). eexists. split; [reflexivity |].
    split.
    { unfold answerSegment. destruct (indexOf fullText separator).
      - apply prefix_take.
      - done. }
    split; [apply answerSegment_clean |]. split; [| done].
    destruct (JSON.parse _); eauto.
  - exists fullText, []. split; [done |]. split; [done |].
    split; [done |]. split; [by left | done].
Qed.

(** X9.  A web sources event is only yielded in the search mode by a run
    that does not throw, and the list it carries is not empty, names no uri
    twice and is left as it is by a second deduplication. *)
Theorem webSources_event_distinct resp notes question history
    (useGoogleSearch : bool) e ws :
  e ∈ yielded (continueChatStream (replying resp) notes question history
                 useGoogleSearch) ->
  ev_webSources e = Some ws ->
  useGoogleSearch = true /\ fails resp = false /\
  ws <> [] /\ NoDup (map uri ws) /\ uniqueWebSources ws = ws.
Proof.
  intros Hin Hws.
  destruct (fails resp) eqn:Hf.
  - exfalso. destruct useGoogleSearch.
    + destruct (search_failed resp notes question history Hf) as [_ Hy].
      cbv zeta in Hy. rewrite Hy in Hin.
      apply forwardedTexts_texts in Hin as (t & -> & _). done.
    + destruct (notesOnly_failed resp notes question history Hf) as [_ Hy].
      cbv zeta in Hy. rewrite Hy in Hin. by apply not_elem_of_nil in Hin.
  - destruct useGoogleSearch.
    + destruct (search_completed resp notes question history Hf) as [Hy _].
      cbv zeta in Hy. rewrite Hy in Hin. clear Hy.
      apply elem_of_app in Hin as [Hin | Hin].
      { apply forwardedTexts_texts in Hin as (t & -> & _). done. }
      set (collected := flat_map webSources_of_chunk (chunks resp)) in *.
      destruct (uniqueWebSources collected) as [|w l] eqn:Hu.
      { by apply not_elem_of_nil in Hin. }
      apply list_elem_of_singleton in Hin as ->. simpl in Hws.
      injection Hws as <-. split; [done |]. split; [done |].
      split; [done |]. rewrite <- Hu. split.
      * apply uniqueWebSources_NoDup.
      * apply uniqueWebSources_idemp.
    + exfalso.
      destruct (notesOnly_completed resp notes question history Hf)
        as (_ & _ & Hy).
      cbv zeta in Hy. rewrite Hy in Hin. clear Hy.
      destruct (includes _ _).
      * apply elem_of_cons in Hin as [-> | Hin]; [done |].
        destruct (JSON.parse _).
        -- apply list_elem_of_singleton in Hin as ->. done.
        -- by apply not_elem_of_nil in Hin.
      * apply list_elem_of_singleton in Hin as ->. done.
Qed.


(** ** Ticking and re-dating an action item *)

Section NoteUpdates.
Variable notes_update : jsstring -> list ActionItem -> Response.
Implicit Types (notes : list ProcessedNoteWithId) (note : ProcessedNoteWithId)
  (items : list ActionItem) (f : ActionItem -> ActionItem).

Lemma with_actionItems_same note (o : option (list ActionItem)) :
  actionItems note = o -> with_actionItems note o = note.
Proof. intros <-. by destruct note. Qed.

Lemma with_actionItems_twice note a b :
  with_actionItems (with_actionItems note a) b = with_actionItems note b.
Proof. done. Qed.

(** With distinct ids, replacing the notes of an id replaces one note. *)
Lemma replace_by_id notes i note updatedNote :
  NoDup (map note_id notes) ->
  notes !! i = Some note ->
  map (fun n => if bool_decide (note_id n = note_id note)
                then updatedNote else n) notes
  = <[i := updatedNote]> notes.
Proof.
  revert i. induction notes as [|n notes IH]; intros i Hnd Hi; [done |].
  simpl in Hnd. apply NoDup_cons in Hnd as [Hn Hnd].
  destruct i as [|i]; simpl in *.
  - injection Hi as ->. rewrite bool_decide_eq_true_2 by done. f_equal.
    clear IH. induction notes as [|m notes IH]; [done |]. simpl in *.
    apply not_elem_of_cons in Hn as [Hne Hn].
    apply NoDup_cons in Hnd as [_ Hnd].
    rewrite bool_decide_eq_false_2 by done. f_equal. by apply IH.
  - rewrite bool_decide_eq_false_2.
    + f_equal. by apply IH.
    + intros Heq. apply Hn. rewrite Heq.
      apply list_elem_of_fmap. exists note. split; [done |].
      by eapply list_elem_of_lookup_2.
Qed.

(** With distinct ids, [find] stops at the one note of the id. *)
Lemma find_by_id notes i note :
  NoDup (map note_id notes) ->
  notes !! i = Some note ->
  list_find (fun n => note_id n = note_id note) notes = Some (i, note).
Proof.
  intros Hnd Hi. apply list_find_Some. split; [done |]. split; [done |].
  intros j m Hj Hlt Heq.
  assert (j = i); [| lia].
  eapply NoDup_lookup; [exact Hnd | |].
  - rewrite list_lookup_fmap, Hj. simpl. by rewrite Heq.
  - by rewrite list_lookup_fmap, Hi.
Qed.

Lemma map_note_id_insert notes i note note' :
  notes !! i = Some note -> note_id note' = note_id note ->
  map note_id (<[i := note']> notes) = map note_id notes.
Proof.
  intros Hi Hid. change (map note_id ?l) with (note_id <$> l).
  rewrite list_fmap_insert, Hid. apply list_insert_id.
  by rewrite list_lookup_fmap, Hi.
Qed.

(** What a handler does to the notes when the table stores the items. *)
Lemma afterService_stored notes i note items' (run : ServiceRun) :
  NoDup (map note_id notes) ->
  notes !! i = Some note ->
  note_after run = with_actionItems note (Some items') ->
  returned run = Resolved (Some (with_actionItems note (Some items'))) ->
  notes_after (afterService notes (note_id note) i run)
  = <[i := with_actionItems note (Some items')]> notes.
Proof.
  intros Hnd Hi Hafter Hret. unfold afterService. cbn [notes_after].
  rewrite Hret, Hafter.
  set (note' := with_actionItems note (Some items')).
  change (note_id note) with (note_id note').
  rewrite (replace_by_id _ i note' note').
  - by rewrite list_insert_insert_eq.
  - by rewrite (map_note_id_insert _ _ note).
  - apply list_lookup_insert_eq. by eapply lookup_lt_Some.
Qed.

Lemma toggle_stored note items k :
  stores_items notes_update ->
  actionItems note = Some items ->
  let items' :=
    alter (fun item => with_completed item (negb (completed item))) k items in
  note_after (toggleActionItemCompletion notes_update note k)
  = with_actionItems note (Some items') /\
  returned (toggleActionItemCompletion notes_update note k)
  = Resolved (Some (with_actionItems note (Some items'))).
Proof.
  intros Hst Hitems. cbv zeta. unfold toggleActionItemCompletion.
  rewrite Hitems. cbv zeta. cbn [note_after returned]. split; [done |].
  destruct (Hst (note_id note)
              (alter (fun item => with_completed item (negb (completed item)))
                     k items)) as (-> & data & -> & ->).
  done.
Qed.

Lemma redate_stored note items k d :
  stores_items notes_update ->
  actionItems note = Some items ->
  let items' := alter (fun item => with_dueDate item d) k items in
  note_after (updateActionItemDate notes_update note k d)
  = with_actionItems note (Some items') /\
  returned (updateActionItemDate notes_update note k d)
  = Resolved (Some (with_actionItems note (Some items'))).
Proof.
  intros Hst Hitems. cbv zeta. unfold updateActionItemDate.
  rewrite Hitems. cbv zeta. cbn [note_after returned]. split; [done |].
  destruct (Hst (note_id note) (alter (fun item => with_dueDate item d) k items))
    as (-> & data & -> & ->).
  done.
Qed.

(** The handler of the checkbox, when the table stores the items. *)
Lemma handleToggle_stored notes i note items k :
  stores_items notes_update ->
  NoDup (map note_id notes) ->
  notes !! i = Some note ->
  actionItems note = Some items ->
  notes_after (handleToggleActionItem notes_update notes (note_id note) k)
  = <[i := with_actionItems note
             (Some (alter (fun item =>
                             with_completed item (negb (completed item)))
                          k items))]> notes.
Proof.
  intros Hst Hnd Hi Hitems. unfold handleToggleActionItem.
  rewrite (find_by_id notes i note Hnd Hi).
  destruct (toggle_stored note items k Hst Hitems) as [Hafter Hret].
  by apply afterService_stored.
Qed.

Lemma handleUpdateDate_stored notes i note items k d :
  stores_items notes_update ->
  NoDup (map note_id notes) ->
  notes !! i = Some note ->
  actionItems note = Some items ->
  notes_after (handleUpdateActionItemDate notes_update notes (note_id note) k d)
  = <[i := with_actionItems note
             (Some (alter (fun item => with_dueDate item d) k items))]> notes.
Proof.
  intros Hst Hnd Hi Hitems. unfold handleUpdateActionItemDate.
  rewrite (find_by_id notes i note Hnd Hi).
  destruct (redate_stored note items k d Hst Hitems) as [Hafter Hret].
  by apply afterService_stored.
Qed.

Lemma toggle_toggle items k :
  alter (fun item => with_completed item (negb (completed item))) k
    (alter (fun item => with_completed item (negb (completed item))) k items)
  = items.
Proof.
  revert k. induction items as [|it items IH]; intros k; [done |].
  destruct k as [|k]; simpl.
  - f_equal. destruct it as [t c d tm]. unfold with_completed. simpl.
    by rewrite negb_involutive.
  - f_equal. apply IH.
Qed.

End NoteUpdates.

(** X10.  With the ids of the notes distinct and a table that stores what
    it is sent, ticking the same checkbox twice leaves the notes as they
    were, whatever the note id and the index are: known or unknown, in
    range or out of range. *)
Theorem toggle_twice_restores notes_update notes noteId itemIndex :
  stores_items notes_update ->
  NoDup (map note_id notes) ->
  notes_after
    (handleToggleActionItem notes_update
       (notes_after (handleToggleActionItem notes_update notes noteId itemIndex))
       noteId itemIndex)
  = notes.
Proof.
  intros Hst Hnd.
  destruct (list_find (fun n => note_id n = noteId) notes) as [[i note]|] eqn:Hf.
  2: { unfold handleToggleActionItem at 2. rewrite Hf. cbn [notes_after].
       unfold handleToggleActionItem. by rewrite Hf. }
  pose proof Hf as (Hi & <- & _)%list_find_Some.
  destruct (actionItems note) as [items|] eqn:Hitems.
  - rewrite (handleToggle_stored notes_update notes i note items itemIndex)
      by done.
    set (note' := with_actionItems note _).
    change (note_id note) with (note_id note').
    rewrite (handleToggle_stored notes_update _ i note'
               (alter (fun item => with_completed item (negb (completed item)))
                      itemIndex items) itemIndex Hst);
      [| by rewrite (map_note_id_insert _ _ note)
       | apply list_lookup_insert_eq; by eapply lookup_lt_Some
       | reflexivity].
    rewrite list_insert_insert_eq, toggle_toggle. subst note'.
    rewrite with_actionItems_twice, with_actionItems_same by done.
    by apply list_insert_id.
  - assert (notes_after (handleToggleActionItem notes_update notes
                           (note_id note) itemIndex) = notes) as Hsame.
    { unfold handleToggleActionItem. rewrite Hf.
      unfold afterService, toggleActionItemCompletion. rewrite Hitems.
      cbn [notes_after returned note_after]. by apply list_insert_id. }
    by rewrite !Hsame.
Qed.


Lemma same_id_same_note (notes : list ProcessedNoteWithId) a b :
  NoDup (map note_id notes) ->
  a ∈ notes -> b ∈ notes -> note_id a = note_id b -> a = b.
Proof.
  intros Hnd [i Hi]%list_elem_of_lookup [j Hj]%list_elem_of_lookup Hid.
  assert (i = j) as ->.
  { eapply NoDup_lookup; [exact Hnd | |].
    - by rewrite list_lookup_fmap, Hi.
    - rewrite list_lookup_fmap, Hj. simpl. by rewrite Hid. }
  congruence.
Qed.

Lemma elem_of_insert_note (notes : list ProcessedNoteWithId) i note note' n :
  notes !! i = Some note ->
  n ∈ <[i := note']> notes <->
  n = note' \/ exists j, j <> i /\ notes !! j = Some n.
Proof.
  intros Hi. rewrite list_elem_of_lookup. split.
  - intros [j Hj]. destruct (decide (j = i)) as [->|Hne].
    + rewrite list_lookup_insert_eq in Hj by (by eapply lookup_lt_Some).
      left. congruence.
    + rewrite list_lookup_insert_ne in Hj by done. right. by exists j.
  - intros [-> | (j & Hne & Hj)].
    + exists i. apply list_lookup_insert_eq. by eapply lookup_lt_Some.
    + exists j. by rewrite list_lookup_insert_ne.
Qed.

(** X11.  With the ids of the notes distinct and a table that stores what
    it is sent, ticking the checkbox of a task of the Today list takes that
    task, and no other, off the list. *)
Theorem toggle_takes_off_today
    (localeCompare : jsstring -> jsstring -> Z) today notes_update notes e :
  stores_items notes_update ->
  NoDup (map note_id notes) ->
  e ∈ getTodaysActionItemsFromNotes localeCompare today notes ->
  let notes' :=
    notes_after
      (handleToggleActionItem notes_update notes (noteId e) (itemIndex e)) in
  forall e',
    e' ∈ getTodaysActionItemsFromNotes localeCompare today notes' <->
    e' ∈ getTodaysActionItemsFromNotes localeCompare today notes /\
    ~ (noteId e' = noteId e /\ itemIndex e' = itemIndex e).
Proof.
  intros Hst Hnd He. cbv zeta.
  apply elem_of_getTodaysActionItemsFromNotes
    in He as (note & items & Hnote & Hitems & Hk & Hdue & Hopen & Hid & Htitle).
  pose proof Hnote as [i Hi]%list_elem_of_lookup.
  rewrite Hid.
  rewrite (handleToggle_stored notes_update notes i note items (itemIndex e))
    by done.
  set (items' := alter _ (itemIndex e) items).
  set (note' := with_actionItems note (Some items')).
  assert (NoDup (map note_id (<[i := note']> notes))) as Hnd'
    by (by rewrite (map_note_id_insert _ _ note)).
  assert (note' ∈ <[i := note']> notes) as Hnote'.
  { apply (elem_of_insert_note _ _ note); [done | by left]. }
  intros e'. rewrite !elem_of_getTodaysActionItemsFromNotes. split.
  - intros (n & its & Hn & Hits & Hk' & Hdue' & Hopen' & Hid' & Htitle').
    apply (elem_of_insert_note _ _ note) in Hn as [-> | (j & Hne & Hj)];
      [| | done].
    + injection Hits as <-.
      destruct (decide (itemIndex e' = itemIndex e)) as [Heq | Hneq].
      * exfalso. rewrite Heq in Hk'. subst items'.
        rewrite list_lookup_alter_eq, Hk in Hk'. simpl in Hk'.
        injection Hk' as Hk'. rewrite <- Hk' in Hopen'. simpl in Hopen'.
        rewrite Hopen in Hopen'. done.
      * split; [| tauto]. exists note, items. split; [done |].
        split; [done |]. split; [| done].
        subst items'. by rewrite list_lookup_alter_ne in Hk'.
    + assert (n ∈ notes) as Hn by (by eapply list_elem_of_lookup_2).
      split; [by exists n, its |].
      intros [Heq _]. apply Hne.
      eapply NoDup_lookup; [exact Hnd | |].
      * by rewrite list_lookup_fmap, Hj.
      * rewrite list_lookup_fmap, Hi. simpl. congruence.
  - intros [(n & its & Hn & Hits & Hk' & Hdue' & Hopen' & Hid' & Htitle') Hother].
    destruct (decide (note_id n = note_id note)) as [Heq | Hneq].
    + assert (n = note) as ->
        by exact (same_id_same_note notes n note Hnd Hn Hnote Heq).
      rewrite Hitems in Hits. injection Hits as <-.
      exists note', items'. split; [done |]. split; [done |].
      split; [| done]. subst items'. rewrite list_lookup_alter_ne; [done |].
      intros Hidx. apply Hother. split; [congruence | done].
    + exists n, its. split; [| done].
      apply list_elem_of_lookup in Hn as [j Hj].
      apply (elem_of_insert_note _ _ note); [done |]. right. exists j.
      split; [| done]. intros ->. congruence.
Qed.

(** X12.  When the table refuses the request, the handler of the checkbox
    sets no new state; the item was nevertheless ticked in place, in the
    note object held in the state, and stays so: nothing undoes it.  The
    request had been sent with the ticked items. *)
Theorem toggle_refused_stays_ticked notes_update notes noteId i note items k it :
  refuses notes_update ->
  list_find (fun n => note_id n = noteId) notes = Some (i, note) ->
  actionItems note = Some items ->
  items !! k = Some it ->
  let run := handleToggleActionItem notes_update notes noteId k in
  let ticked := <[k := with_completed it (negb (completed it))]> items in
  returned (toggleActionItemCompletion notes_update note k) = Resolved None /\
  notes_after run = <[i := with_actionItems note (Some ticked)]> notes /\
  notes_requests run = [(noteId, ticked)].
Proof.
  intros Href Hf Hitems Hk. cbv zeta.
  pose proof Hf as (Hi & <- & _)%list_find_Some.
  unfold handleToggleActionItem. rewrite Hf.
  unfold afterService, toggleActionItemCompletion. rewrite Hitems. cbv zeta.
  cbn [notes_after notes_requests returned note_after requests].
  assert (alter (fun item => with_completed item (negb (completed item))) k items
          = <[k := with_completed it (negb (completed it))]> items) as ->.
  { apply list_eq. intros j. destruct (decide (j = k)) as [->|Hne].
    - rewrite list_lookup_alter_eq, Hk. simpl.
      by rewrite list_lookup_insert_eq by (by eapply lookup_lt_Some).
    - by rewrite list_lookup_alter_ne, list_lookup_insert_ne. }
  destruct (Href (note_id note)
              (<[k := with_completed it (negb (completed it))]> items))
    as [-> | ->].
  - by destruct (resp_data _).
  - done.
Qed.

(** X13.  With the ids of the notes distinct and a table that stores what
    it is sent, an item given the date of a day is listed in the popover of
    that day, at its place in its note, and in the popover of no day with
    another date string. *)
Theorem redate_moves_task
    (localeCompare : jsstring -> jsstring -> Z) notes_update notes i note
    items k it (date : LocalDate) :
  stores_items notes_update ->
  NoDup (map note_id notes) ->
  notes !! i = Some note ->
  actionItems note = Some items ->
  items !! k = Some it ->
  let notes' :=
    notes_after (handleUpdateActionItemDate notes_update notes (note_id note) k
                   (toYYYYMMDD date)) in
  {| noteId := note_id note; itemIndex := k;
     item := with_dueDate it (toYYYYMMDD date);
     noteTitle := noteTitle_of (refinedNote note) |}
    ∈ popoverTasks localeCompare (Some date) notes' /\
  forall other e',
    toYYYYMMDD other <> toYYYYMMDD date ->
    e' ∈ popoverTasks localeCompare (Some other) notes' ->
    ~ (noteId e' = note_id note /\ itemIndex e' = k).
Proof.
  intros Hst Hnd Hi Hitems Hk. cbv zeta.
  rewrite (handleUpdateDate_stored notes_update notes i note items k) by done.
  set (items' := alter _ k items).
  set (note' := with_actionItems note (Some items')).
  assert (NoDup (map note_id (<[i := note']> notes))) as Hnd'
    by (by rewrite (map_note_id_insert _ _ note)).
  assert (note' ∈ <[i := note']> notes) as Hnote'.
  { apply (elem_of_insert_note _ _ note); [done | by left]. }
  assert (items' !! k = Some (with_dueDate it (toYYYYMMDD date))) as Hk'.
  { subst items'. by rewrite list_lookup_alter_eq, Hk. }
  split.
  - apply elem_of_popoverTasks. by exists date, note', items'.
  - intros other e' Hother
      (d & n & its & [= <-] & Hn & Hits & Hidx & Hdue & Hid & _)%elem_of_popoverTasks
      [Hsame Hat].
    assert (n = note') as ->.
    { eapply same_id_same_note; [exact Hnd' | done | done |]. simpl. congruence. }
    injection Hits as <-. rewrite Hat, Hk' in Hidx. injection Hidx as Hitem.
    rewrite <- Hitem in Hdue. simpl in Hdue. congruence.
Qed.


(** ** A task added from the calendar *)

Lemma head_split_from sep cur s :
  sep <> [] ->
  split_from sep 0 cur s !! 0
  = Some (rev cur ++ default [] (split_from sep 0 [] s !! 0)).
Proof.
  intros Hne. rewrite (split_from_indexOf sep cur s Hne).
  rewrite (split_from_indexOf sep [] s Hne).
  by destruct (indexOf s sep).
Qed.

Lemma firstLine_cons c s : c <> LF -> firstLine (c :: s) = c :: firstLine s.
Proof.
  intros Hc. unfold firstLine, split. cbn [split_from].
  assert (startsWith (c :: s) [LF] = false) as ->.
  { apply bool_decide_eq_false. intros [k Hk]. simpl in Hk. congruence. }
  by rewrite head_split_from.
Qed.

Lemma firstLine_app a s :
  Forall (fun c => c <> LF) a -> firstLine (a ++ s) = a ++ firstLine s.
Proof.
  induction 1 as [|c a Hc _ IH]; [done |]. simpl.
  by rewrite firstLine_cons, IH.
Qed.

(** The title of the note made for a task. *)
Lemma manualTask_title (t : jsstring) :
  noteTitle_of (js "# To-Do: " ++ t) = js "To-Do: " ++ firstLine t.
Proof.
  assert (firstLine (js "# To-Do: " ++ t) = js "# To-Do: " ++ firstLine t)
    as Hfirst by (apply firstLine_app; repeat constructor; discriminate).
  unfold noteTitle_of. cbv zeta.
  change (default [] (split (js "# To-Do: " ++ t) [LF] !! 0))
    with (firstLine (js "# To-Do: " ++ t)).
  rewrite Hfirst. reflexivity.
Qed.

(** X14.  A task saved from the dialog of a selected day, by a signed-in
    user and with a table that stores the row it is sent, becomes a note of
    its own among the others; the dialog closes; and the popover of that day
    lists the task, open, under the title made of the words "To-Do: " and
    the first line of the text. *)
Theorem manual_task_in_popover
    (localeCompare : jsstring -> jsstring -> Z) getUser notes_insert getTime
    (st : TaskState) (task : ManualTaskPayload) user_id selected :
  getUser = Some user_id ->
  stores_note notes_insert ->
  selectedDateForTask st = Some selected ->
  let st' := handleSaveManualTask getUser notes_insert getTime st task in
  exists newNote,
    st_notes st' ≡ₚ newNote :: st_notes st /\
    selectedDateForTask st' = None /\
    isAddTaskModalOpen st' = false /\
    st_error st' = st_error st /\
    {| noteId := note_id newNote; itemIndex := 0;
       item := {| text := payload_text task; completed := false;
                  dueDate := toYYYYMMDD selected;
                  time := payload_time task |};
       noteTitle := js "To-Do: " ++ firstLine (payload_text task) |}
      ∈ popoverTasks localeCompare (Some selected) (st_notes st').
Proof.
  intros Huser Hst Hsel. cbv zeta.
  unfold handleSaveManualTask. rewrite Hsel. cbv zeta.
  fold (toYYYYMMDD selected).
  unfold saveManualTaskAsNote. rewrite Huser. cbv zeta.
  set (row := {| ins_user_id := user_id; ins_refined_note := _;
                 ins_emotion_analysis := _; ins_action_items := _ |}).
  destruct (Hst row) as (-> & data & -> & Hnote & Hitems).
  set (newNote := {| note_id := row_id data; note_createdAt := _;
                     refinedNote := _; emotionAnalysis := _;
                     actionItems := _ |}).
  exists newNote. cbn [st_notes selectedDateForTask isAddTaskModalOpen st_error].
  split; [apply sort_Permutation |]. split; [done |]. split; [done |].
  split; [done |].
  apply elem_of_popoverTasks.
  exists selected, newNote, (ins_action_items row).
  split; [done |]. split.
  { rewrite sort_Permutation. by left. }
  split; [exact Hitems |]. split; [done |]. split; [done |]. split; [done |].
  simpl. rewrite Hnote. simpl. symmetry. apply manualTask_title.
Qed.


(** ** The list of chat sessions *)

Section ChatList.
Variable getTime : jsstring -> option Z.
Implicit Types (st : ChatListState) (s u : ChatSession)
  (l : list ChatSession).

Lemma find_replaced l u i s0 :
  list_find (fun s => session_id s = session_id u) l = Some (i, s0) ->
  list_find (fun s => Some (session_id s) = Some (session_id u))
            (<[i := u]> l) = Some (i, u).
Proof.
  intros (Hi & _ & Hmin)%list_find_Some. apply list_find_Some.
  split; [apply list_lookup_insert_eq; by eapply lookup_lt_Some |].
  split; [done |].
  intros j y Hj Hlt [= Hy]. rewrite list_lookup_insert_ne in Hj by lia.
  by apply (Hmin j y).
Qed.

Lemma find_added l u :
  list_find (fun s => session_id s = session_id u) l = None ->
  snd <$> list_find (fun s => Some (session_id s) = Some (session_id u))
            (sort (bySessionCreatedAtDesc getTime) (u :: l)) = Some u.
Proof.
  intros Hnone%list_find_None.
  destruct (list_find _ (sort _ (u :: l))) as [[i x]|] eqn:Hf.
  - apply list_find_Some in Hf as (Hi & [= Hx] & _). simpl. f_equal.
    apply list_elem_of_lookup_2 in Hi. rewrite sort_Permutation in Hi.
    apply elem_of_cons in Hi as [-> | Hin]; [done |].
    rewrite Forall_forall in Hnone. by destruct (Hnone x Hin).
  - apply list_find_None in Hf. rewrite Forall_forall in Hf.
    destruct (Hf u); [| done]. rewrite sort_Permutation. by left.
Qed.

End ChatList.



(** ** More on [handleSubmit] *)

Section Blank.

Lemma trimStart_nil (s : jsstring) :
  trimStart s = [] <-> forallb is_space s = true.
Proof.
  induction s as [|c s IH]; simpl; [done |].
  destruct (is_space c); simpl; [exact IH | done].
Qed.

Lemma trimStart_head (s : jsstring) c s' :
  trimStart s = c :: s' -> is_space c = false.
Proof.
  induction s as [|d s IH]; simpl; [done |].
  destruct (is_space d) eqn:Hd; [exact IH |]. by intros [= <- _].
Qed.

Lemma forallb_rev {A} (f : A -> bool) (l : list A) :
  forallb f (rev l) = forallb f l.
Proof.
  induction l as [|x l IH]; [done |]. simpl.
  rewrite forallb_app, IH. simpl. by rewrite andb_true_r, andb_comm.
Qed.

(** A question is blank when each of its code units is white space. *)
Lemma trim_blank (s : jsstring) :
  truthy_string (trim s) = false <-> forallb is_space s = true.
Proof.
  unfold trim. split.
  - intros Ht.
    destruct (trimStart (rev (trimStart s))) as [|c r] eqn:Hr.
    + apply trimStart_nil in Hr. rewrite forallb_rev in Hr.
      destruct (trimStart s) as [|d s'] eqn:Hs.
      * by apply trimStart_nil.
      * apply trimStart_head in Hs. simpl in Hr. by rewrite Hs in Hr.
    + simpl in Ht. by destruct (rev r ++ [c]) eqn:E; [destruct (rev r) |].
  - intros Hall. apply trimStart_nil in Hall. by rewrite Hall.
Qed.

End Blank.

Lemma read_lt (h : store) (r : loc) : read h r <> [] -> r < length h.
Proof.
  unfold read. destruct (h !! r) as [a|] eqn:Hr; [| done].
  intros _. by eapply lookup_lt_Some.
Qed.

(** X16.  A question made of white space only, or asked while an answer is
    streaming, is dropped: nothing is sent, shown, stored or handed over.
    Any other question starts the generator. *)
Theorem handleSubmit_blank_question gen allNotes (h : store) (st : ViewState) :
  (isStreaming st = true \/ forallb is_space (question st) = true ->
   handleSubmit gen allNotes h st
   = {| out_store := h; out_state := st; effects := [] |}) /\
  (isStreaming st = false -> forallb is_space (question st) = false ->
   exists rest,
     effects (handleSubmit gen allNotes h st) = streamCall allNotes st :: rest).
Proof.
  split.
  - intros Hrej. apply handleSubmit_rejected.
    destruct Hrej as [? | Hb]; [by left | right]. by apply trim_blank.
  - intros Hidle Hq.
    assert (truthy_string (trim (question st)) = true) as Ht.
    { destruct (truthy_string (trim (question st))) eqn:E; [done |].
      apply trim_blank in E. congruence. }
    unfold handleSubmit. rewrite Hidle, Ht. cbn [negb orb]. cbv zeta.
    destruct (threw _).
    + destruct (rollback _). by eexists.
    + destruct (commit _ _ _). by eexists.
Qed.

(** X17.  Two exchanges in a row, both streams ending normally: the
    second generator is given the messages left by the first exchange as
    its history; the list on display ends with the two questions, each
    followed by its answer; the title set by the first exchange is kept;
    and the second exchange hands over the session on display, once. *)
Theorem two_exchanges gen allNotes (h : store) (st : ViewState) (q2 : jsstring) :
  messages (session st) < length h ->
  isStreaming st = false ->
  truthy_string (trim (question st)) = true ->
  truthy_string (trim q2) = true ->
  let stream1 := streamOf gen allNotes h st in
  let out1 := handleSubmit gen allNotes h st in
  let st2 := withQuestion (out_state out1) q2 in
  let stream2 := streamOf gen allNotes (out_store out1) st2 in
  let out2 := handleSubmit gen allNotes (out_store out1) st2 in
  let afterFirst :=
    read h (messages (session st))
    ++ [userMessage_of (question st); assembledMessage (yielded stream1)] in
  threw stream1 = false ->
  threw stream2 = false ->
  onDisplay out1 = afterFirst /\
  stream2 = continueChatStream gen (contextNotes_of allNotes (session st)) q2
              afterFirst (useGoogleSearch st) /\
  onDisplay out2
  = afterFirst ++ [userMessage_of q2; assembledMessage (yielded stream2)] /\
  session_title (session (out_state out2))
  = session_title (session (out_state out1)) /\
  persisted out2 = [session (out_state out2)].
Proof.
  intros Hr Hidle Hq Hq2. cbv zeta. intros Hok1.
  destruct (handleSubmit_commits gen allNotes h st Hr Hidle Hq Hok1)
    as (ext & r & Hout1 & Hread1).
  rewrite Hout1. cbn [out_state out_store]. unfold onDisplay at 1.
  cbn [out_state out_store session messages finalSession_at].
  set (st2 := withQuestion _ q2).
  set (afterFirst := read h (messages (session st)) ++ _) in *.
  assert (messages (session st2) < length (h ++ ext)) as Hr2.
  { apply read_lt. cbn. rewrite Hread1. subst afterFirst.
    by destruct (read h (messages (session st))). }
  assert (read (h ++ ext) (messages (session st2)) = afterFirst) as Hread2
    by exact Hread1.
  rewrite (streamOf_eq gen allNotes (h ++ ext) st2 Hr2), Hread2.
  change (contextNotes_of allNotes (session st2))
    with (contextNotes_of allNotes (session st)).
  change (question st2) with q2.
  change (useGoogleSearch st2) with (useGoogleSearch st).
  intros Hok2.
  assert (threw (streamOf gen allNotes (h ++ ext) st2) = false) as Hok2'.
  { rewrite (streamOf_eq gen allNotes (h ++ ext) st2 Hr2), Hread2. exact Hok2. }
  destruct (handleSubmit_commits gen allNotes (h ++ ext) st2 Hr2
              eq_refl Hq2 Hok2') as (ext2 & r2 & Hout2 & Hshown2).
  rewrite Hout2. unfold onDisplay, persisted.
  cbn [out_state out_store session messages finalSession_at effects
       session_title].
  rewrite persisted_effects, Hshown2, Hread2.
  rewrite (streamOf_eq gen allNotes (h ++ ext) st2 Hr2), Hread2.
  split; [done |]. split; [done |]. split; [done |].
  split; [| done].
  subst afterFirst st2. cbn [withQuestion session session_title finalSession_at].
  by destruct (read h (messages (session st))).
Qed.

(** X18.  A failed exchange followed by a new question whose stream ends
    normally: the question of the failed exchange stays in the list, without
    an answer, and is part of the history given to the second generator;
    the error is cleared; and the title is the one the session had before
    the failed exchange, also when the session had no message then, so that
    the title of such a session is not taken from either question. *)
Theorem retry_after_failure gen allNotes (h : store) (st : ViewState)
    (q2 : jsstring) :
  messages (session st) < length h ->
  isStreaming st = false ->
  truthy_string (trim (question st)) = true ->
  truthy_string (trim q2) = true ->
  let stream1 := streamOf gen allNotes h st in
  let out1 := handleSubmit gen allNotes h st in
  let st2 := withQuestion (out_state out1) q2 in
  let stream2 := streamOf gen allNotes (out_store out1) st2 in
  let out2 := handleSubmit gen allNotes (out_store out1) st2 in
  let afterFirst := read h (messages (session st)) ++ [userMessage_of (question st)] in
  threw stream1 = true ->
  threw stream2 = false ->
  onDisplay out1 = afterFirst /\
  stream2 = continueChatStream gen (contextNotes_of allNotes (session st)) q2
              afterFirst (useGoogleSearch st) /\
  onDisplay out2
  = afterFirst ++ [userMessage_of q2; assembledMessage (yielded stream2)] /\
  error (out_state out2) = None /\
  session_title (session (out_state out2)) = session_title (session st) /\
  persisted out2 = [session (out_state out2)].
Proof.
  intros Hr Hidle Hq Hq2. cbv zeta. intros Hthrew1.
  destruct (handleSubmit_rolls_back gen allNotes h st Hr Hidle Hq Hthrew1)
    as (ext & r & m & Hout1 & _ & _ & Hread1).
  rewrite Hout1. cbn [out_state out_store]. unfold onDisplay at 1.
  cbn [out_state out_store session messages with_messages].
  set (st2 := withQuestion _ q2).
  set (afterFirst := read h (messages (session st)) ++ _) in *.
  assert (messages (session st2) < length (h ++ ext)) as Hr2.
  { apply read_lt. cbn. rewrite Hread1. subst afterFirst.
    by destruct (read h (messages (session st))). }
  assert (read (h ++ ext) (messages (session st2)) = afterFirst) as Hread2
    by exact Hread1.
  rewrite (streamOf_eq gen allNotes (h ++ ext) st2 Hr2), Hread2.
  change (contextNotes_of allNotes (session st2))
    with (contextNotes_of allNotes (session st)).
  change (question st2) with q2.
  change (useGoogleSearch st2) with (useGoogleSearch st).
  intros Hok2.
  assert (threw (streamOf gen allNotes (h ++ ext) st2) = false) as Hok2'.
  { rewrite (streamOf_eq gen allNotes (h ++ ext) st2 Hr2), Hread2. exact Hok2. }
  destruct (handleSubmit_commits gen allNotes (h ++ ext) st2 Hr2
              eq_refl Hq2 Hok2') as (ext2 & r2 & Hout2 & Hshown2).
  rewrite Hout2. unfold onDisplay, persisted.
  cbn [out_state out_store session messages finalSession_at effects
       session_title error].
  rewrite persisted_effects, Hshown2, Hread2.
  rewrite (streamOf_eq gen allNotes (h ++ ext) st2 Hr2), Hread2.
  split; [done |]. split; [done |]. split; [done |]. split; [done |].
  split; [| done].
  subst afterFirst st2. cbn [withQuestion session session_title with_messages].
  by destruct (read h (messages (session st))).
Qed.


(** ** Instances *)

Lemma storingTable_stores : stores_items storingTable.
Proof. intros id items. split; [done |]. by eexists. Qed.

Lemma failingTable_refuses : refuses failingTable.
Proof. intros id items. by left. Qed.

Lemma storingInsert_stores : stores_note storingInsert.
Proof. intros row. split; [done |]. by eexists. Qed.

Lemma taskNotes_NoDup : NoDup (map note_id taskNotes).
Proof.
  apply NoDup_cons. split; [| apply NoDup_singleton].
  intros Hin%list_elem_of_singleton. discriminate.
Qed.

Lemma renderAnswerText_hides_citations_witness :
  renderAnswerText skyResponse = [Paragraph 0 (js "The sky is blue."); Paragraph 1 []].
Proof.
  destruct (renderAnswerText_hides_citations skyResponse) as [Hcut _].
  rewrite Hcut. vm_compute. reflexivity.
Defined.

Lemma continueChatStream_failure_witness :
  fails brokenStream = true /\
  yielded (continueChatStream (replying brokenStream) [] (js "Why?") [] true)
  = [text_event (Some (js "Blue"))] /\
  yielded (continueChatStream (replying brokenStream) [] (js "Why?") [] false)
  = [].
Proof.
  split; [reflexivity |]. split.
  - destruct (continueChatStream_failure brokenStream [] (js "Why?") [] true)
      as [_ Hfail].
    destruct Hfail as [Hy _]; [reflexivity |]. rewrite Hy. reflexivity.
  - destruct (continueChatStream_failure brokenStream [] (js "Why?") [] false)
      as [_ Hfail].
    destruct Hfail as [Hy _]; [reflexivity |]. exact Hy.
Defined.

Lemma notesOnly_events_witness :
  fails skyStream = false /\
  exists answer rest,
    yielded (continueChatStream (replying skyStream) [] (js "Why?") [] false)
    = text_event (Some answer) :: rest /\
    includes answer separator = false.
Proof.
  split; [reflexivity |].
  destruct (notesOnly_events skyStream [] (js "Why?") [])
    as (answer & rest & Hy & _ & Hclean & _); [reflexivity |].
  by exists answer, rest.
Defined.

Lemma webSources_event_distinct_witness :
  webSources_event
    [{| uri := Some (js "https://a.com"); title := Some (js "https://a.com") |}]
  ∈ yielded (continueChatStream (replying twiceGrounded) [] (js "news?") [] true)
  /\
  NoDup (map uri [{| uri := Some (js "https://a.com");
                     title := Some (js "https://a.com") |}]).
Proof.
  assert (webSources_event
            [{| uri := Some (js "https://a.com");
                title := Some (js "https://a.com") |}]
          ∈ yielded (continueChatStream (replying twiceGrounded) []
                       (js "news?") [] true)) as Hin.
  { vm_compute. apply list_elem_of_here. }
  split; [exact Hin |].
  destruct (webSources_event_distinct twiceGrounded [] (js "news?") [] true
              _ _ Hin eq_refl) as (_ & _ & _ & Hnd & _).
  exact Hnd.
Defined.

Lemma toggle_twice_restores_witness :
  stores_items storingTable /\
  NoDup (map note_id taskNotes) /\
  notes_after
    (handleToggleActionItem storingTable
       (notes_after (handleToggleActionItem storingTable taskNotes (js "n1") 1))
       (js "n1") 1)
  = taskNotes.
Proof.
  split; [exact storingTable_stores |]. split; [exact taskNotes_NoDup |].
  apply (toggle_twice_restores storingTable taskNotes (js "n1") 1).
  - exact storingTable_stores.
  - exact taskNotes_NoDup.
Defined.

Lemma toggle_takes_off_today_witness :
  exampleEntry 1 None
    ∈ getTodaysActionItemsFromNotes codeUnitCompare exampleDay taskNotes /\
  exampleEntry 0 (Some (js "09:00"))
    ∈ getTodaysActionItemsFromNotes codeUnitCompare exampleDay
        (notes_after (handleToggleActionItem storingTable taskNotes (js "n1") 1)).
Proof.
  assert (exampleEntry 1 None
            ∈ getTodaysActionItemsFromNotes codeUnitCompare exampleDay taskNotes)
    as Hin.
  { vm_compute.
    repeat first [apply list_elem_of_here | apply list_elem_of_further]. }
  split; [exact Hin |].
  apply (toggle_takes_off_today codeUnitCompare exampleDay storingTable
           taskNotes (exampleEntry 1 None)
           storingTable_stores taskNotes_NoDup Hin).
  split.
  - vm_compute.
    repeat first [apply list_elem_of_here | apply list_elem_of_further].
  - intros [_ Hidx]. discriminate Hidx.
Defined.

Lemma toggle_refused_stays_ticked_witness :
  refuses failingTable /\
  notes_after (handleToggleActionItem failingTable taskNotes (js "n1") 1)
  = [with_actionItems exampleNote
       (Some [dueItem (Some (js "09:00")); doneItem None;
              dueItem (Some (js "08:00"))]);
     popoverNote].
Proof.
  split; [exact failingTable_refuses |].
  destruct (toggle_refused_stays_ticked failingTable taskNotes (js "n1") 0
              exampleNote
              [dueItem (Some (js "09:00")); dueItem None;
               dueItem (Some (js "08:00"))]
              1 (dueItem None))
    as (_ & Hafter & _);
    [exact failingTable_refuses | reflexivity | reflexivity | reflexivity |].
  rewrite Hafter. reflexivity.
Defined.

Lemma redate_moves_task_witness :
  {| noteId := js "n1"; itemIndex := 1;
     item := with_dueDate (dueItem None) (js "2025-01-06");
     noteTitle := js "Plans" |}
    ∈ popoverTasks codeUnitCompare (Some nextDay)
        (notes_after (handleUpdateActionItemDate storingTable taskNotes
                        (js "n1") 1 (js "2025-01-06"))).
Proof.
  destruct (redate_moves_task codeUnitCompare storingTable taskNotes 0
              exampleNote
              [dueItem (Some (js "09:00")); dueItem None;
               dueItem (Some (js "08:00"))]
              1 (dueItem None) nextDay)
    as [Hin _];
    [exact storingTable_stores | exact taskNotes_NoDup
     | reflexivity | reflexivity | reflexivity |].
  exact Hin.
Defined.

Lemma manual_task_in_popover_witness :
  stores_note storingInsert /\
  exists newNote,
    {| noteId := note_id newNote; itemIndex := 0;
       item := {| text := js "Buy milk"; completed := false;
                  dueDate := js "2025-01-05";
                  time := Some (js "10:00") |};
       noteTitle := js "To-Do: Buy milk" |}
      ∈ popoverTasks codeUnitCompare (Some exampleDay)
          (st_notes (handleSaveManualTask (Some (js "u1")) storingInsert noTime
                       taskState milkTask)).
Proof.
  split; [exact storingInsert_stores |].
  destruct (manual_task_in_popover codeUnitCompare (Some (js "u1"))
              storingInsert noTime taskState milkTask (js "u1") exampleDay)
    as (newNote & _ & _ & _ & _ & Hin);
    [reflexivity | exact storingInsert_stores | reflexivity |].
  exists newNote. exact Hin.
Defined.


Lemma handleSubmit_blank_question_witness :
  forallb is_space (question blankState) = true /\
  handleSubmit (replying skyStream) exampleNotes exampleStore blankState
  = {| out_store := exampleStore; out_state := blankState; effects := [] |}.
Proof.
  split; [reflexivity |].
  destruct (handleSubmit_blank_question (replying skyStream) exampleNotes
              exampleStore blankState) as [Hdrop _].
  apply Hdrop. right. reflexivity.
Defined.

Lemma two_exchanges_witness :
  session_title
    (session (out_state
       (handleSubmit (replying skyStream) exampleNotes
          (out_store (handleSubmit (replying skyStream) exampleNotes [[]]
                        newState))
          (withQuestion (out_state (handleSubmit (replying skyStream) exampleNotes
                               [[]] newState))
                 (js "And the sea?")))))
  = js "Which of my notes mention the colour of the sky at".
Proof.
  destruct (two_exchanges (replying skyStream) exampleNotes [[]] newState
              (js "And the sea?"))
    as (_ & _ & _ & Htitle & _);
    [simpl; lia | reflexivity | reflexivity | reflexivity
     | reflexivity | vm_compute; reflexivity |].
  rewrite Htitle. vm_compute. reflexivity.
Defined.

Lemma retry_after_failure_witness :
  session_title
    (session (out_state
       (handleSubmit flakyBackend exampleNotes
          (out_store (handleSubmit flakyBackend exampleNotes [[]] newState))
          (withQuestion (out_state (handleSubmit flakyBackend exampleNotes [[]]
                               newState))
                 (js "And the sea?")))))
  = js "New Chat".
Proof.
  destruct (retry_after_failure flakyBackend exampleNotes [[]] newState
              (js "And the sea?"))
    as (_ & _ & _ & _ & Htitle & _);
    [simpl; lia | reflexivity | reflexivity | reflexivity
     | vm_compute; reflexivity | vm_compute; reflexivity |].
  exact Htitle.
Defined.
